(** * cp-linalg-lib: dense matrix container and QR-type iterations

  A shallow embedding of [src/types/matrix/matrix.h] and
  [src/algorithms/qr_algorithm.h].

    - [std::size_t] is [N] with the wrap-around modulo [2^64] written out.
    - [std::vector<T>] is [list T], read and written through stdpp's list
      lookup and insert; a read or write outside the vector is [Undefined],
      and so is a division by zero.
    - a failed [assert] is [ContractFailure].
    - the [do ... while] loop of [Transpose] runs on fuel; [OutOfFuel] is a
      loop that has not ended within it.
    - the scalar type of the templates is a type class [Scalar]; the
      instance for binary64 ([double]) is built on the kernel's floats. *)

From Stdlib Require Import NArith ZArith Lia PrimFloat Uint63.
From stdpp Require Import base option list numbers.

Open Scope N_scope.

(** ** Outcomes of a call *)

Inductive result (A : Type) : Type :=
| Ok (a : A)
| ContractFailure
| Undefined
| OutOfFuel.

Arguments Ok {A} a.
Arguments ContractFailure {A}.
Arguments Undefined {A}.
Arguments OutOfFuel {A}.

#[global] Instance result_ret : MRet result := fun A a => Ok a.
#[global] Instance result_bind : MBind result := fun A B f r =>
  match r with
  | Ok a => f a
  | ContractFailure => ContractFailure
  | Undefined => Undefined
  | OutOfFuel => OutOfFuel
  end.

(** [assert(c)] followed by the rest of the function. *)
Definition assert {A} (c : bool) (k : result A) : result A :=
  if c then k else ContractFailure.

(** A counted loop [for (i = start; n iterations; ++i) body], the state
    threaded through the bodies; a failing body ends the loop. *)
Fixpoint for_loop {S : Type} (n : nat) (i : N) (body : N -> S -> result S)
    (s : S) : result S :=
  match n with
  | O => Ok s
  | S n' => s' ← body i s; for_loop n' (N.succ i) body s'
  end.

(** ** std::size_t *)

Module SizeT.
Definition modulus : N := 2 ^ 64.
Definition wrap (x : N) : N := x mod modulus.
Definition add (a b : N) : N := wrap (a + b).
Definition mul (a b : N) : N := wrap (a * b).
Definition sub (a b : N) : N := wrap (a + modulus - wrap b).
Definition fits (x : N) : Prop := x < modulus.
(** [a / b] and [a % b]; a zero divisor is undefined behaviour *)
Definition div (a b : N) : result N := if b =? 0 then Undefined else Ok (a / b).
Definition rem (a b : N) : result N := if b =? 0 then Undefined else Ok (a mod b).
End SizeT.

(** ** std::vector *)

Section Vector.
Context {A : Type}.

Definition size (v : list A) : N := N.of_nat (length v).

(** [v[i]] read *)
Definition vget (v : list A) (i : N) : result A :=
  match v !! N.to_nat i with
  | Some x => Ok x
  | None => Undefined
  end.

(** [v[i] = x] *)
Definition vset (v : list A) (i : N) (x : A) : result (list A) :=
  if i <? size v then Ok (<[N.to_nat i := x]> v) else Undefined.

(** [std::swap(v[i], v[j])] *)
Definition vswap (v : list A) (i j : N) : result (list A) :=
  a ← vget v i; b ← vget v j; v' ← vset v i b; vset v' j a.

End Vector.

(** ** Scalars *)

Class Scalar (T : Type) : Type := {
  of_Z : Z -> T;
  sadd : T -> T -> T;
  ssub : T -> T -> T;
  smul : T -> T -> T;
  sdiv : T -> T -> T;
  seqb : T -> T -> bool;
  sabs : T -> T;
  ssqrt : T -> T
}.

Definition float_of_Z (z : Z) : float :=
  match z with
  | Zneg p => PrimFloat.opp (PrimFloat.of_uint63 (Uint63.of_Z (Zpos p)))
  | _ => PrimFloat.of_uint63 (Uint63.of_Z z)
  end.

(** [double] *)
#[global] Instance float_Scalar : Scalar float := {|
  of_Z := float_of_Z;
  sadd := PrimFloat.add;
  ssub := PrimFloat.sub;
  smul := PrimFloat.mul;
  sdiv := PrimFloat.div;
  seqb := PrimFloat.eqb;
  sabs := PrimFloat.abs;
  ssqrt := PrimFloat.sqrt
|}.

(** ** The matrix container, [matrix.h] *)

Section MatrixDef.
Context {T : Type} `{Scalar T}.

Record Matrix : Type := mkMatrix { rows_ : N; buffer_ : list T }.

Definition Rows (m : Matrix) : N := rows_ m.

Definition Columns (m : Matrix) : N :=
  if rows_ m =? 0 then 0 else size (buffer_ m) / rows_ m.

(** The invariant of the data model: the buffer holds [rows * columns]
    elements, and a matrix with rows has columns. *)
Definition wf (m : Matrix) : Prop :=
  size (buffer_ m) = Rows m * Columns m /\
  (0 < Rows m -> 0 < Columns m) /\
  SizeT.fits (size (buffer_ m)).

(** [Columns() * row_idx + col_idx] in [size_t] *)
Definition flat_index (m : Matrix) (row_idx col_idx : N) : N :=
  SizeT.add (SizeT.mul (Columns m) row_idx) col_idx.

(** [T operator()(row_idx, col_idx) const] *)
Definition elem (m : Matrix) (row_idx col_idx : N) : result T :=
  assert (flat_index m row_idx col_idx <? size (buffer_ m))
    (vget (buffer_ m) (flat_index m row_idx col_idx)).

(** an assignment through [T &operator()(row_idx, col_idx)] *)
Definition set_elem (m : Matrix) (row_idx col_idx : N) (x : T) : result Matrix :=
  assert (flat_index m row_idx col_idx <? size (buffer_ m))
    (b ← vset (buffer_ m) (flat_index m row_idx col_idx) x;
     Ok (mkMatrix (rows_ m) b)).

(** *** Constructors *)

(** [explicit Matrix(IndexType sq_size)] *)
Definition Matrix_square (sq_size : N) : result Matrix :=
  let m := mkMatrix sq_size
             (replicate (N.to_nat (SizeT.mul sq_size sq_size)) (of_Z 0)) in
  assert (0 <? Rows m) (Ok m).

(** [Matrix(IndexType row_cnt, IndexType col_cnt, T value)] *)
Definition Matrix_fill (row_cnt col_cnt : N) (value : T) : result Matrix :=
  let m := mkMatrix row_cnt
             (replicate (N.to_nat (SizeT.mul row_cnt col_cnt)) value) in
  assert (0 <? Rows m) (assert (0 <? Columns m) (Ok m)).

(** the loop of the diagonal constructor *)
Fixpoint diag_fill (diag : list T) (idx : N) (m : Matrix) : result Matrix :=
  match diag with
  | [] => Ok m
  | value :: rest => m' ← set_elem m idx idx value; diag_fill rest (N.succ idx) m'
  end.

(** [explicit Matrix(const Data &diag)] *)
Definition Matrix_diag (diag : list T) : result Matrix :=
  let n := size diag in
  let m := mkMatrix n (replicate (N.to_nat (SizeT.mul n n)) (of_Z 0)) in
  assert (0 <? Rows m) (diag_fill diag 0 m).

(** the loop of the nested-literal constructor *)
Fixpoint push_rows (columns : N) (lst : list (list T)) (buffer : list T)
    : result (list T) :=
  match lst with
  | [] => Ok buffer
  | sublist :: rest =>
      assert (size sublist =? columns) (push_rows columns rest (buffer ++ sublist))
  end.

(** [Matrix(std::initializer_list<std::initializer_list<T>> list)] *)
Definition Matrix_of_rows (lst : list (list T)) : result Matrix :=
  assert (0 <? size lst)
    match lst with
    | [] => Undefined
    | first :: _ =>
        assert (0 <? size first)
          (buffer ← push_rows (size first) lst [];
           Ok (mkMatrix (size lst) buffer))
    end.

(** [static Matrix Identity(IndexType size, T default_value)] *)
Definition Identity (sz : N) (default_value : T) : result Matrix :=
  Matrix_diag (replicate (N.to_nat sz) default_value).

(** *** Arithmetic *)

(** [operator+=] *)
Definition op_add_assign (self rhs : Matrix) : result Matrix :=
  assert (Rows self =? Rows rhs)
    (assert (Columns self =? Columns rhs)
       (b ← for_loop (length (buffer_ self)) 0
              (fun i b => x ← vget b i; y ← vget (buffer_ rhs) i;
                          vset b i (sadd x y))
              (buffer_ self);
        Ok (mkMatrix (rows_ self) b))).

(** [operator+]; its second assertion compares [rhs.Columns()] with itself *)
Definition op_add (lhs rhs : Matrix) : result Matrix :=
  assert (Rows lhs =? Rows rhs)
    (assert (Columns rhs =? Columns rhs) (op_add_assign lhs rhs)).

(** [operator-=] *)
Definition op_sub_assign (self rhs : Matrix) : result Matrix :=
  assert (Rows self =? Rows rhs)
    (assert (Columns self =? Columns rhs)
       (b ← for_loop (length (buffer_ self)) 0
              (fun i b => x ← vget b i; y ← vget (buffer_ rhs) i;
                          vset b i (ssub x y))
              (buffer_ self);
        Ok (mkMatrix (rows_ self) b))).

(** [operator-] *)
Definition op_sub (lhs rhs : Matrix) : result Matrix :=
  assert (Rows lhs =? Rows rhs)
    (assert (Columns lhs =? Columns rhs) (op_sub_assign lhs rhs)).

(** [operator*(const Matrix &, const Matrix &)] *)
Definition op_mul (lhs rhs : Matrix) : result Matrix :=
  assert (Columns lhs =? Rows rhs)
    (res ← Matrix_fill (Rows lhs) (Columns rhs) (of_Z 0);
     for_loop (N.to_nat (Rows lhs)) 0
       (fun i res =>
          for_loop (N.to_nat (Columns rhs)) 0
            (fun j res =>
               sum ← for_loop (N.to_nat (Columns lhs)) 0
                       (fun k sum => a ← elem lhs i k; b ← elem rhs k j;
                                     Ok (sadd sum (smul a b)))
                       (of_Z 0);
               set_elem res i j sum)
            res)
       res).

(** [operator*=(const Matrix &)] *)
Definition op_mul_assign (self rhs : Matrix) : result Matrix := op_mul self rhs.

(** *** Comparison *)

(** [std::vector]'s [==]: equal sizes and pairwise [==] elements *)
Fixpoint vec_eqb (v w : list T) : bool :=
  match v, w with
  | [], [] => true
  | x :: v', y :: w' => seqb x y && vec_eqb v' w'
  | _, _ => false
  end.

(** [operator==] *)
Definition op_eq (lhs rhs : Matrix) : bool :=
  vec_eqb (buffer_ lhs) (buffer_ rhs).

(** [operator!=] *)
Definition op_ne (lhs rhs : Matrix) : bool := negb (op_eq lhs rhs).

(** *** ApplyToEach

    A callback is a function of its captured state [C] and the element it
    gets by reference; it returns the new state and the new element. *)

(** [void ApplyToEach(Function func)] *)
Definition ApplyToEach {C : Type} (func : C -> T -> C * T) (c : C) (m : Matrix)
    : result (C * Matrix) :=
  '(c', b) ← for_loop (length (buffer_ m)) 0
      (fun i '(c, b) =>
         x ← vget b i;
         let '(c', x') := func c x in
         b' ← vset b i x'; Ok (c', b'))
      (c, buffer_ m);
  Ok (c', mkMatrix (rows_ m) b).

(** [void ApplyToEach(FunctionIndexes func)] *)
Definition ApplyToEachIdx {C : Type} (func : C -> T -> N -> N -> C * T) (c : C)
    (m : Matrix) : result (C * Matrix) :=
  '(c', b) ← for_loop (length (buffer_ m)) 0
      (fun i '(c, b) =>
         x ← vget b i;
         q ← SizeT.div i (Rows m);
         r ← SizeT.rem i (Rows m);
         let '(c', x') := func c x q r in
         b' ← vset b i x'; Ok (c', b'))
      (c, buffer_ m);
  Ok (c', mkMatrix (rows_ m) b).

(** [operator*=(T scalar)] *)
Definition op_scale_assign (self : Matrix) (scalar : T) : result Matrix :=
  '(_, m) ← ApplyToEach (fun (_ : unit) value => (tt, smul value scalar)) tt self;
  Ok m.

(** *** Transpose *)

(** [(swap_idx == last_idx) ? last_idx : (Rows() * swap_idx) % last_idx] *)
Definition next_idx (rows last_idx swap_idx : N) : result N :=
  if swap_idx =? last_idx then Ok last_idx
  else SizeT.rem (SizeT.mul rows swap_idx) last_idx.

(** the [do ... while (swap_idx != i)] loop; [fuel] bounds its iterations *)
Fixpoint cycle (fuel : nat) (rows last_idx i swap_idx : N)
    (st : list T * list bool) : result (list T * list bool) :=
  match fuel with
  | O => OutOfFuel
  | S fuel' =>
      s ← next_idx rows last_idx swap_idx;
      b ← vswap (fst st) s i;
      vis ← vset (snd st) s true;
      if s =? i then Ok (b, vis)
      else cycle fuel' rows last_idx i s (b, vis)
  end.

(** [void Transpose()], every inner loop run with [fuel] *)
Definition Transpose_fuel (fuel : nat) (m : Matrix) : result Matrix :=
  let visited := replicate (length (buffer_ m)) false in
  let last_idx := SizeT.sub (size (buffer_ m)) 1 in
  st ← for_loop (length (buffer_ m) - 1) 1
         (fun i st =>
            v ← vget (snd st) i;
            if v : bool then Ok st
            else cycle fuel (Rows m) last_idx i i st)
         (buffer_ m, visited);
  Ok (mkMatrix (Columns (mkMatrix (rows_ m) (fst st))) (fst st)).

(** An inner loop marks one more index at each iteration, so the buffer's
    length bounds its iterations. *)
Definition Transpose (m : Matrix) : result Matrix :=
  Transpose_fuel (length (buffer_ m)) m.

(** [static Matrix Transposed(const Matrix &rhs)] *)
Definition Transposed (rhs : Matrix) : result Matrix := Transpose rhs.

End MatrixDef.

Arguments Matrix T : clear implicits.

(** ** The algorithms, [qr_algorithm.h]

    The header's collaborators are not among the sources; each is a
    parameter:
    - [Sign] is [utils::Sign];
    - [HouseholderQR] returns the pair that the structured binding
      [auto [Q, R]] takes apart;
    - [GivensLeftRotation] and [GivensRightRotation] rotate their first
      argument in place, so each returns the rotated matrix;
    - [RoundZeroes] and [GetSubmatrix] are members of the matrix type the
      header is compiled against, [IsHermitian] is [utils::IsHermitian]. *)

Record SpectralPair (T : Type) : Type :=
  mkSpectralPair { SP_D : Matrix T; SP_Q : Matrix T }.

Record DiagBasisQR (T : Type) : Type :=
  mkDiagBasisQR { DB_U : Matrix T; DB_D : Matrix T; DB_VT : Matrix T }.

Arguments mkSpectralPair {T} _ _.
Arguments SP_D {T} _.
Arguments SP_Q {T} _.
Arguments mkDiagBasisQR {T} _ _ _.
Arguments DB_U {T} _.
Arguments DB_D {T} _.
Arguments DB_VT {T} _.

Section Algorithms.
Context {T : Type} `{Scalar T}.
Variable Sign : T -> T.
Variable HouseholderQR : Matrix T -> result (Matrix T * Matrix T).
Variable GivensLeftRotation : Matrix T -> N -> N -> T -> T -> result (Matrix T).
Variable GivensRightRotation : Matrix T -> N -> N -> T -> T -> result (Matrix T).
Variable RoundZeroes : Matrix T -> result (Matrix T).
Variable GetSubmatrix : Matrix T -> N * N -> N * N -> result (Matrix T).
Variable IsHermitian : Matrix T -> bool.

(** Modelled from the spec: [Copy()] is a member of the matrix type the
    header is compiled against, which [matrix.h] does not declare; the
    running matrix is "initialized to a copy of the input". *)
Definition Copy (m : Matrix T) : Matrix T := m.

(** [GetWilkinsonShift] *)
Definition GetWilkinsonShift (matrix : Matrix T) : result T :=
  assert (Rows matrix =? 2)
    (assert (Columns matrix =? 2)
       (m01 ← elem matrix 0 1;
        m10 ← elem matrix 1 0;
        assert (seqb m01 m10)
          (m00 ← elem matrix 0 0;
           m11 ← elem matrix 1 1;
           let d := sdiv (ssub m00 m11) (of_Z 2) in
           let coefficient :=
             sadd (sabs d) (ssqrt (sadd (smul d d) (smul m01 m01))) in
           Ok (ssub m11 (sdiv (smul (smul (Sign d) m01) m01) coefficient))))).

(** the body of the loop of [GetRealSpecDecomposition] *)
Definition spec_iteration (shift_I : Matrix T) (st : Matrix T * Matrix T)
    : result (Matrix T * Matrix T) :=
  let '(D, transform) := st in
  A ← op_sub D shift_I;
  '(Q, R) ← HouseholderQR A;
  RQ ← op_mul R Q;
  D ← op_add RQ shift_I;
  transform ← op_mul_assign transform Q;
  D ← RoundZeroes D;
  Ok (D, transform).

(** [GetRealSpecDecomposition] *)
Definition GetRealSpecDecomposition (matrix : Matrix T) (shift : T) (it_cnt : N)
    : result (SpectralPair T) :=
  assert (IsHermitian matrix)
    (let D := Copy matrix in
     shift_I ← Identity (Rows D) shift;
     transform ← Identity (Rows D) (of_Z 1);
     '(D, transform) ← for_loop (N.to_nat it_cnt) 0
                          (fun _ st => spec_iteration shift_I st) (D, transform);
     Ok (mkSpectralPair D transform)).

(** the body of [for (IndexType i = 0; i < size; ++i)] in
    [BidiagonalAlgorithmQR], on the triple [(U, S, VT)], [S] written [Sm] *)
Definition sweep_body (shift : T) (i : N) (st : Matrix T * Matrix T * Matrix T)
    : result (Matrix T * Matrix T * Matrix T) :=
  let '(U, Sm, VT) := st in
  '(Sm, VT) ←
    (if SizeT.add i 1 <? Columns Sm then
       f_elem ← (if 0 <? i then elem Sm (SizeT.sub i 1) i
                 else a ← elem Sm 0 0; b ← elem Sm 0 0;
                      Ok (ssub (smul a b) shift));
       s_elem ← (if 0 <? i then elem Sm (SizeT.sub i 1) (SizeT.add i 1)
                 else a ← elem Sm 0 1; b ← elem Sm 0 0; Ok (smul a b));
       VT ← GivensLeftRotation VT i (SizeT.add i 1) f_elem s_elem;
       Sm ← GivensRightRotation Sm i (SizeT.add i 1) f_elem s_elem;
       Ok (Sm, VT)
     else Ok (Sm, VT));
  if SizeT.add i 1 <? Rows Sm then
    a ← elem Sm i i; b ← elem Sm (SizeT.add i 1) i;
    U ← GivensRightRotation U i (SizeT.add i 1) a b;
    a ← elem Sm i i; b ← elem Sm (SizeT.add i 1) i;
    Sm ← GivensLeftRotation Sm i (SizeT.add i 1) a b;
    Ok (U, Sm, VT)
  else Ok (U, Sm, VT).

(** one pass of [while (it_cnt--)] in [BidiagonalAlgorithmQR] *)
Definition sweep (r c sz : N) (st : Matrix T * Matrix T * Matrix T)
    : result (Matrix T * Matrix T * Matrix T) :=
  let '(U, Sm, VT) := st in
  minor ← GetSubmatrix Sm (SizeT.sub r 2, r) (SizeT.sub c 2, c);
  BB ← Matrix_square 2;
  m00 ← elem minor 0 0; m00' ← elem minor 0 0;
  extra ← (if 3 <=? r then
             a ← elem Sm (SizeT.sub r 3) (SizeT.sub c 2);
             b ← elem Sm (SizeT.sub r 3) (SizeT.sub c 2);
             Ok (smul a b)
           else Ok (of_Z 0));
  BB ← set_elem BB 0 0 (sadd (smul m00 m00') extra);
  m00 ← elem minor 0 0; m01 ← elem minor 0 1;
  BB ← set_elem BB 1 0 (smul m00 m01);
  b10 ← elem BB 1 0;
  BB ← set_elem BB 0 1 b10;
  m01 ← elem minor 0 1; m01' ← elem minor 0 1;
  m11 ← elem minor 1 1; m11' ← elem minor 1 1;
  BB ← set_elem BB 1 1 (sadd (smul m01 m01') (smul m11 m11'));
  shift ← GetWilkinsonShift BB;
  '(U, Sm, VT) ← for_loop (N.to_nat sz) 0 (sweep_body shift) (U, Sm, VT);
  Sm ← RoundZeroes Sm;
  Ok (U, Sm, VT).

(** [BidiagonalAlgorithmQR] *)
Definition BidiagonalAlgorithmQR (B : Matrix T) (it_cnt : N)
    : result (DiagBasisQR T) :=
  let Sm := B in
  let r := Rows Sm in
  let c := Columns Sm in
  let sz := N.min r c in
  U ← Identity r (of_Z 1);
  VT ← Identity c (of_Z 1);
  '(U, Sm, VT) ← for_loop (N.to_nat it_cnt) 0 (fun _ st => sweep r c sz st)
                   (U, Sm, VT);
  Ok (mkDiagBasisQR U Sm VT).

End Algorithms.

(** ** The collaborators, from the spec's contracts *)

Section Collaborators.
Context {T : Type} `{Scalar T}.

(** Modelled from the spec: [givens.h] is not among the sources. "The 2x2
    rotation derived from (a, b)" has cosine [a / r] and sine [b / r] with
    [r = sqrt (a^2 + b^2)]; it sends the pair [(a, b)] to [(r, 0)],
    "zeroing the target element". *)
Definition givens_pair (a b : T) : T * T :=
  let r := ssqrt (sadd (smul a a) (smul b b)) in (sdiv a r, sdiv b r).

(** Modelled from the spec: the rotation with cosine and sine [cs] applied
    to the pair [(x, y)]. *)
Definition rotate (cs : T * T) (x y : T) : T * T :=
  (sadd (smul (fst cs) x) (smul (snd cs) y),
   ssub (smul (fst cs) y) (smul (snd cs) x)).

(** Modelled from the spec: [RotateLeft(M, i, j, a, b)] applies the rotation
    to rows [i] and [j] of [M]; contract: [i ≠ j], both indices in range. *)
Definition SpecGivensLeft (M : Matrix T) (i j : N) (a b : T) : result (Matrix T) :=
  assert (negb (i =? j))
    (assert ((i <? Rows M) && (j <? Rows M))
       (for_loop (N.to_nat (Columns M)) 0
          (fun k M =>
             x ← elem M i k; y ← elem M j k;
             M ← set_elem M i k (fst (rotate (givens_pair a b) x y));
             set_elem M j k (snd (rotate (givens_pair a b) x y)))
          M)).

(** Modelled from the spec: [RotateRight(M, i, j, a, b)] applies the
    rotation to columns [i] and [j] of [M]; same contract. *)
Definition SpecGivensRight (M : Matrix T) (i j : N) (a b : T) : result (Matrix T) :=
  assert (negb (i =? j))
    (assert ((i <? Columns M) && (j <? Columns M))
       (for_loop (N.to_nat (Rows M)) 0
          (fun k M =>
             x ← elem M k i; y ← elem M k j;
             M ← set_elem M k i (fst (rotate (givens_pair a b) x y));
             set_elem M k j (snd (rotate (givens_pair a b) x y)))
          M)).

End Collaborators.

(** ** Reference functions

    What the loops of the container compute, as functions on lists. *)

Section Reference.
Context {T : Type} `{Scalar T}.

(** [m] is a well-formed [r x c] matrix. *)
Definition shaped (r c : N) (m : Matrix T) : Prop :=
  wf m /\ Rows m = r /\ Columns m = c.

(** The position of flat index [i] in row-major order. *)
Definition position (m : Matrix T) (i : N) : N * N :=
  (i / Columns m, i mod Columns m).

(** The index-taking [ApplyToEach] on the elements from flat index [i] on:
    the callback gets the element, [i / rows] and [i % rows]. *)
Fixpoint each_idx {C : Type} (func : C -> T -> N -> N -> C * T) (rows i : N)
    (c : C) (l : list T) : C * list T :=
  match l with
  | [] => (c, [])
  | x :: l' =>
      let '(c1, x') := func c x (i / rows) (i mod rows) in
      let '(c2, l'') := each_idx func rows (N.succ i) c1 l' in
      (c2, x' :: l'')
  end.

(** A callback that leaves the element alone and appends its arguments to
    the log it captures. *)
Definition record_call (log : list (T * N * N)) (x : T) (q r : N)
    : list (T * N * N) * T :=
  (log ++ [(x, q, r)], x).

End Reference.


(** The number of indices that the [visited] vector of [Transpose] has not
    marked yet. *)
Fixpoint unvisited (visited : list bool) : nat :=
  match visited with
  | [] => 0
  | v :: rest => (if v then 0 else 1) + unvisited rest
  end.

(** Where [Transpose] sends the element at flat index [j] of a buffer whose
    last index is [last_idx], for a matrix of [rows] rows. *)
Definition target (rows last_idx j : N) : N :=
  if j =? last_idx then last_idx else (rows * j) mod last_idx.

(** ** The invariants of [Transpose]

    [a] is the buffer at entry and [sigma] the map of the flat indices
    that the inner loop follows. *)

Section Invariants.
Context {T : Type}.
Variable a : list T.
Variable sigma : N -> N.

Local Notation "v @ j" := (v !! N.to_nat j) (at level 20).

(** Between two inner loops: the marked indices are closed under [sigma]
    both ways, each marked index has had its element moved to its target,
    and the unmarked indices hold what they held at entry. *)
Definition between_cycles (b : list T) (vis : list bool) : Prop :=
  size b = size a /\ size vis = size a /\
  (forall j, j < size a -> vis @ sigma j = Some true -> vis @ j = Some true) /\
  (forall j, j < size a -> vis @ j = Some true ->
     vis @ sigma j = Some true /\ b @ sigma j = a @ j) /\
  (forall j, j < size a -> vis @ j = Some false -> b @ j = a @ j).

(** Inside the inner loop started at [i], with [swap_idx = s]: slot [i]
    holds the element that entered at [s], and the chain from [i] to [s] is
    marked and moved. *)
Definition in_cycle (i s : N) (b : list T) (vis : list bool) : Prop :=
  size b = size a /\ size vis = size a /\ i < size a /\ s < size a /\
  (s = i \/ vis @ s = Some true) /\
  vis @ i = Some false /\
  (forall j, j < size a -> vis @ sigma j = Some true ->
     j <> s /\ (vis @ j = Some true \/ j = i)) /\
  (forall j, j < size a -> vis @ j = Some true \/ j = i -> j <> s ->
     vis @ sigma j = Some true /\ b @ sigma j = a @ j) /\
  b @ i = a @ s /\
  (forall j, j < size a -> vis @ j = Some false -> j <> i -> b @ j = a @ j).

(** The effect of one iteration of the inner loop on the two vectors. *)
Definition swapped (b b' : list T) (s i : N) : Prop :=
  size b' = size b /\ b' @ i = b @ s /\ b' @ s = b @ i /\
  (forall j, j <> s -> j <> i -> b' @ j = b @ j).

Definition marked (vis vis' : list bool) (s : N) : Prop :=
  size vis' = size vis /\ vis' @ s = Some true /\
  (forall j, j <> s -> vis' @ j = vis @ j).

End Invariants.


(** The precondition of [GetWilkinsonShift]: a 2x2 matrix whose two
    off-diagonal elements are [==]. *)
Definition symmetric_2x2 {T : Type} `{Scalar T} (M : Matrix T) : Prop :=
  Rows M = 2 /\ Columns M = 2 /\
  exists a b, elem M 0 1 = Ok a /\ elem M 1 0 = Ok b /\ seqb a b = true.

(** The shift as the spec writes it, from the three entries it reads. *)
Definition wilkinson_formula {T : Type} `{Scalar T} (Sign : T -> T)
    (m00 m01 m11 : T) : T :=
  let d := sdiv (ssub m00 m11) (of_Z 2) in
  let c := sadd (sabs d) (ssqrt (sadd (smul d d) (smul m01 m01))) in
  ssub m11 (sdiv (smul (smul (Sign d) m01) m01) c).

(** Modelled from the spec: [utils::Sign] is not among the sources. The sign
    of a [double] with the convention [sign(0) := 0]. *)
Definition SpecSign (d : float) : float :=
  if PrimFloat.ltb 0 d then 1%float
  else if PrimFloat.ltb d 0 then (-1)%float
  else 0%float.


(** ** The iterations as the spec words them *)

(** "Runs exactly [k] iterations": the state after [k] iterations is one
    step from the state after [k - 1] of them; a failed step fails the rest. *)
Fixpoint iterations {S : Type} (k : nat) (step : S -> result S) (s : S)
    : result S :=
  match k with
  | O => Ok s
  | S k' => s' ← iterations k' step s; step s'
  end.

Section Worded.
Context {T : Type} `{Scalar T}.
Variable HouseholderQR : Matrix T -> result (Matrix T * Matrix T).
Variable GivensLeftRotation : Matrix T -> N -> N -> T -> T -> result (Matrix T).
Variable GivensRightRotation : Matrix T -> N -> N -> T -> T -> result (Matrix T).
Variable RoundZeroes : Matrix T -> result (Matrix T).

(** One iteration of the shifted QR iteration: factor [D - shift_I] into
    [Q] and [R], set [D] to [R * Q + shift_I], multiply the accumulator by
    [Q] on the right, round the near-zero entries of [D]. *)
Definition qr_iteration (shift_I : Matrix T) (st : Matrix T * Matrix T)
    : result (Matrix T * Matrix T) :=
  shifted ← op_sub (fst st) shift_I;
  QR ← HouseholderQR shifted;
  RQ ← op_mul (snd QR) (fst QR);
  D' ← op_add RQ shift_I;
  transform' ← op_mul (snd st) (fst QR);
  rounded ← RoundZeroes D';
  Ok (rounded, transform').

(** The contracts of the collaborators on [n x n] matrices: the factors of
    an [n x n] matrix are [n x n], and rounding keeps the shape. *)
Definition factors_square (n : N) : Prop :=
  forall A, shaped n n A ->
    exists Q R, HouseholderQR A = Ok (Q, R) /\ shaped n n Q /\ shaped n n R.

Definition rounding_keeps_shape (n : N) : Prop :=
  forall A, shaped n n A -> exists A', RoundZeroes A = Ok A' /\ shaped n n A'.

(** The rotation pair [(f, s)] of step [i] of a sweep. *)
Definition rotation_pair (shift : T) (i : N) (Sm : Matrix T) : result (T * T) :=
  if i =? 0 then
    s00 ← elem Sm 0 0; s01 ← elem Sm 0 1;
    Ok (ssub (smul s00 s00) shift, smul s01 s00)
  else
    f ← elem Sm (SizeT.sub i 1) i;
    s ← elem Sm (SizeT.sub i 1) (SizeT.add i 1);
    Ok (f, s).

(** Step [i] of a sweep as claim C3 words it: the right rotation on both
    [VT] and [S], then the left rotation on both [U] and [S]. *)
Definition claimed_sweep_body (shift : T) (i : N)
    (st : Matrix T * Matrix T * Matrix T)
    : result (Matrix T * Matrix T * Matrix T) :=
  let '(U, Sm, VT) := st in
  '(Sm, VT) ←
    (if SizeT.add i 1 <? Columns Sm then
       fs ← rotation_pair shift i Sm;
       VT ← GivensRightRotation VT i (SizeT.add i 1) (fst fs) (snd fs);
       Sm ← GivensRightRotation Sm i (SizeT.add i 1) (fst fs) (snd fs);
       Ok (Sm, VT)
     else Ok (Sm, VT));
  if SizeT.add i 1 <? Rows Sm then
    a ← elem Sm i i; b ← elem Sm (SizeT.add i 1) i;
    U ← GivensLeftRotation U i (SizeT.add i 1) a b;
    Sm ← GivensLeftRotation Sm i (SizeT.add i 1) a b;
    Ok (U, Sm, VT)
  else Ok (U, Sm, VT).

(** The column step of the sweep, as the code has it: the left rotation on
    [VT], the right rotation on [S], both with the rotation pair. *)
Definition column_step (shift : T) (i : N) (Sm VT Sm' VT' : Matrix T) : Prop :=
  if SizeT.add i 1 <? Columns Sm then
    exists f s,
      rotation_pair shift i Sm = Ok (f, s) /\
      GivensLeftRotation VT i (SizeT.add i 1) f s = Ok VT' /\
      GivensRightRotation Sm i (SizeT.add i 1) f s = Ok Sm'
  else Sm' = Sm /\ VT' = VT.

(** The row step: the right rotation on [U], the left rotation on [S], both
    with the pair [(S(i,i), S(i+1,i))] read before [S] is rotated. *)
Definition row_step (i : N) (U Sm U' Sm' : Matrix T) : Prop :=
  if SizeT.add i 1 <? Rows Sm then
    exists a b,
      elem Sm i i = Ok a /\ elem Sm (SizeT.add i 1) i = Ok b /\
      GivensRightRotation U i (SizeT.add i 1) a b = Ok U' /\
      GivensLeftRotation Sm i (SizeT.add i 1) a b = Ok Sm'
  else U' = U /\ Sm' = Sm.

End Worded.


(** Step 0 of a sweep on [S = [[1,1],[0,1]]] with [U = VT = I] and shift 0,
    in [double], with the rotations of the spec's contract. *)
Definition sweep_example : Matrix float * Matrix float * Matrix float :=
  Eval vm_compute in
    match sweep_body SpecGivensLeft SpecGivensRight 0%float 0
            (mkMatrix 2 [1; 0; 0; 1]%float, mkMatrix 2 [1; 1; 0; 1]%float,
             mkMatrix 2 [1; 0; 0; 1]%float) with
    | Ok st => st
    | _ => (mkMatrix 0 [], mkMatrix 0 [], mkMatrix 0 [])
    end.

(** ** The rest of the container, [matrix.h] *)

Section MatrixRest.
Context {T : Type} `{Scalar T}.

(** [operator*(const Matrix &lhs, T scalar)] *)
Definition op_scale (lhs : Matrix T) (scalar : T) : result (Matrix T) :=
  op_scale_assign lhs scalar.

(** [Matrix GetDiag(bool transpose) const] *)
Definition GetDiag (m : Matrix T) (transpose : bool) : result (Matrix T) :=
  let sz := N.min (Rows m) (Columns m) in
  res ← Matrix_fill sz 1 (of_Z 0 : T);
  res ← for_loop (N.to_nat sz) 0
           (fun i res => x ← elem m i i; set_elem res i 0 x) res;
  if transpose then Transpose res else Ok res.

(** [Matrix GetRow(IndexType index) const] *)
Definition GetRow (m : Matrix T) (index : N) : result (Matrix T) :=
  assert (index <? Rows m)
    (res ← Matrix_fill 1 (Columns m) (of_Z 0 : T);
     for_loop (N.to_nat (Columns m)) 0
       (fun i res => x ← elem m index i; set_elem res 0 i x) res).

(** [Matrix GetColumn(IndexType index) const] *)
Definition GetColumn (m : Matrix T) (index : N) : result (Matrix T) :=
  assert (index <? Columns m)
    (res ← Matrix_fill (Rows m) 1 (of_Z 0 : T);
     for_loop (N.to_nat (Rows m)) 0
       (fun i res => x ← elem m i index; set_elem res i 0 x) res).

(** [void Conjugate()]. The test of the [if constexpr],
    [utils::IsFloatComplexValue<T>()], is a constant of the scalar type and
    its header is not among the sources: it is the parameter [is_complex];
    [conj] is [std::conj]. *)
Definition Conjugate (is_complex : bool) (conj : T -> T) (m : Matrix T)
    : result (Matrix T) :=
  m ← Transpose m;
  if is_complex then
    '(_, m) ← ApplyToEach (fun (_ : unit) val => (tt, conj val)) tt m;
    Ok m
  else Ok m.

(** [static Matrix Conjugated(const Matrix &rhs)] *)
Definition Conjugated (is_complex : bool) (conj : T -> T) (rhs : Matrix T)
    : result (Matrix T) :=
  Conjugate is_complex conj rhs.

End MatrixRest.

(** ** More reference functions *)

Section ReferenceRest.
Context {T : Type} `{Scalar T}.

(** The element-only [ApplyToEach] on a list: the callback is run on the
    elements in order, its state threaded through. *)
Fixpoint each {C : Type} (func : C -> T -> C * T) (c : C) (l : list T)
    : C * list T :=
  match l with
  | [] => (c, [])
  | x :: l' =>
      let '(c1, x') := func c x in
      let '(c2, l'') := each func c1 l' in
      (c2, x' :: l'')
  end.

(** A nested literal that the constructor accepts: it has a first row, the
    first row has an element, and every row has the length of the first. *)
Definition rectangular (lst : list (list T)) : Prop :=
  exists first rest,
    lst = first :: rest /\ first <> [] /\
    Forall (fun row => size row = size first) lst.

(** The element of [m] at [(i, j)], zero where there is none. *)
Definition entry (m : Matrix T) (i j : N) : T :=
  match elem m i j with
  | Ok x => x
  | _ => of_Z 0
  end.

(** The sum that [operator*] accumulates for the entry [(i, j)]: from zero,
    the products [lhs(i,k) * rhs(k,j)] added for [k = 0, 1, ..., n - 1] in
    this order. *)
Definition dot (lhs rhs : Matrix T) (i j : N) (n : nat) : T :=
  foldl (fun sum k => sadd sum (smul (entry lhs i (N.of_nat k))
                                     (entry rhs (N.of_nat k) j)))
    (of_Z 0) (seq 0 n).

(** The contracts of the rotation primitives, from the spec: a rotation of
    two distinct rows (columns) in range returns, and keeps the shape. *)
Definition rotates_rows (rotation : Matrix T -> N -> N -> T -> T -> result (Matrix T))
    : Prop :=
  forall r c M i j a b,
    shaped r c M -> i <> j -> i < r -> j < r ->
    exists M', rotation M i j a b = Ok M' /\ shaped r c M'.

Definition rotates_columns
    (rotation : Matrix T -> N -> N -> T -> T -> result (Matrix T)) : Prop :=
  forall r c M i j a b,
    shaped r c M -> i <> j -> i < c -> j < c ->
    exists M', rotation M i j a b = Ok M' /\ shaped r c M'.

(** The contract of [RoundZeroes], from the spec: rounding returns and keeps
    the shape. *)
Definition keeps_shape (rounding : Matrix T -> result (Matrix T)) : Prop :=
  forall r c A, shaped r c A -> exists A', rounding A = Ok A' /\ shaped r c A'.

(** The contract of [GetSubmatrix], from the spec: on ranges that lie in the
    matrix it returns the block over the rows [[r0, r1)] and the columns
    [[c0, c1)]. *)
Definition extracts_blocks
    (submatrix : Matrix T -> N * N -> N * N -> result (Matrix T)) : Prop :=
  forall r c m r0 r1 c0 c1,
    shaped r c m -> r0 < r1 -> r1 <= r -> c0 < c1 -> c1 <= c ->
    exists res,
      submatrix m (r0, r1) (c0, c1) = Ok res /\
      shaped (r1 - r0) (c1 - c0) res /\
      forall i j, i < r1 - r0 -> j < c1 - c0 ->
        elem res i j = elem m (r0 + i) (c0 + j).

(** ... and it fails its contract on a range that is empty, reversed or
    not in the matrix. *)
Definition rejects_bad_ranges
    (submatrix : Matrix T -> N * N -> N * N -> result (Matrix T)) : Prop :=
  forall m r0 r1 c0 c1,
    ~ (r0 < r1 /\ r1 <= Rows m /\ c0 < c1 /\ c1 <= Columns m) ->
    submatrix m (r0, r1) (c0, c1) = ContractFailure.

(** The off-diagonal entry of the 2x2 matrix [BB] that a sweep on the
    [r x c] matrix [Sm] hands to [GetWilkinsonShift]. *)
Definition trailing_product (Sm : Matrix T) (r c : N) : T :=
  smul (entry Sm (r - 2) (c - 2)) (entry Sm (r - 2) (c - 1)).

(** The shift of a sweep on the [r x c] matrix [Sm]: [GetWilkinsonShift] on
    [BB], written with the entries of [Sm] that the sweep reads. *)
Definition trailing_shift (Sign : T -> T) (Sm : Matrix T) (r c : N) : T :=
  let m00 := entry Sm (r - 2) (c - 2) in
  let m01 := entry Sm (r - 2) (c - 1) in
  let m11 := entry Sm (r - 1) (c - 1) in
  let above := entry Sm (r - 3) (c - 2) in
  wilkinson_formula Sign
    (sadd (smul m00 m00) (if 3 <=? r then smul above above else of_Z 0))
    (smul m00 m01)
    (sadd (smul m01 m01) (smul m11 m11)).

(** Modelled from the spec: [GetSubmatrix] is a member of the matrix type
    the header is compiled against, which [matrix.h] does not declare. The
    block of [m] over the rows [[r0, r1)] and the columns [[c0, c1)]. *)
Definition SpecGetSubmatrix (m : Matrix T) (rs cs : N * N) : result (Matrix T) :=
  let '(r0, r1) := rs in
  let '(c0, c1) := cs in
  assert ((r0 <? r1) && (r1 <=? Rows m) && (c0 <? c1) && (c1 <=? Columns m))
    (res ← Matrix_fill (r1 - r0) (c1 - c0) (of_Z 0 : T);
     for_loop (N.to_nat (r1 - r0)) 0
       (fun i res =>
          for_loop (N.to_nat (c1 - c0)) 0
            (fun j res => x ← elem m (r0 + i) (c0 + j); set_elem res i j x)
            res)
       res).

End ReferenceRest.


(** ** The shifted QR iteration, entry by entry *)

Section WordedEntries.
Context {T : Type} `{Scalar T}.
Variable HouseholderQR : Matrix T -> result (Matrix T * Matrix T).
Variable RoundZeroes : Matrix T -> result (Matrix T).

(** The [r x c] matrix whose entry [(i, j)] is [f i j], in row-major order. *)
Definition tabulate (r c : N) (f : N -> N -> T) : Matrix T :=
  mkMatrix r
    (map (fun k => f (N.of_nat k / c) (N.of_nat k mod c)) (seq 0 (N.to_nat (r * c)))).

(** The entry [(i, j)] of [v * I]. *)
Definition scalar_diag (v : T) (i j : N) : T := if i =? j then v else of_Z 0.

(** One iteration as claim C4 words it, on [n x n] matrices and entry by
    entry: factor [D - shift * I] into [Q] and [R]; the new [D] is the
    rounded [R * Q + shift * I], and the new accumulator is
    [transform * Q]. The products are the sums [dot], which do not go
    through [operator*]. *)
Definition qr_step (n : N) (shift : T) (st : Matrix T * Matrix T)
    : result (Matrix T * Matrix T) :=
  QR ← HouseholderQR
         (tabulate n n (fun i j => ssub (entry (fst st) i j) (scalar_diag shift i j)));
  D' ← RoundZeroes
         (tabulate n n
            (fun i j => sadd (dot (snd QR) (fst QR) i j (N.to_nat n))
                             (scalar_diag shift i j)));
  Ok (D', tabulate n n (fun i j => dot (snd st) (fst QR) i j (N.to_nat n))).

End WordedEntries.

(** Modelled from the spec: [qr_decomposition.h] is not among the sources.
    A factorization that keeps the contract [A == Q * R] with [Q] orthogonal
    and [R] upper triangular, on matrices with two rows: the Givens rotation
    [G] that zeroes [A(1,0)] gives [R = G * A] and [Q] the transpose of
    [G]. *)
Definition givens_qr {T : Type} `{Scalar T} (A : Matrix T)
    : result (Matrix T * Matrix T) :=
  a ← elem A 0 0; b ← elem A 1 0;
  R ← SpecGivensLeft A 0 1 a b;
  one ← Identity (Rows A) (of_Z 1);
  G ← SpecGivensLeft one 0 1 a b;
  Q ← Transpose G;
  Ok (Q, R).

(** Modelled from the spec: [RoundZeroes] is a member of the matrix type the
    header is compiled against, which [matrix.h] does not declare. It
    "zeroes out matrix entries whose magnitude falls below a small
    numerical-noise threshold"; the threshold is the parameter [eps]. *)
Definition SpecRoundZeroes (eps : float) (m : Matrix float) : result (Matrix float) :=
  Ok (mkMatrix (rows_ m)
        (map (fun x => if PrimFloat.ltb (PrimFloat.abs x) eps then 0%float else x)
           (buffer_ m))).

(** * Properties *)

(** ** size_t arithmetic *)

Lemma wrap_small x : SizeT.fits x -> SizeT.wrap x = x.
Proof. intros Hx. apply N.mod_small. exact Hx. Qed.

Lemma add_small a b : SizeT.fits (a + b) -> SizeT.add a b = a + b.
Proof. apply wrap_small. Qed.

Lemma mul_small a b : SizeT.fits (a * b) -> SizeT.mul a b = a * b.
Proof. apply wrap_small. Qed.

Lemma div_nonzero a b : b <> 0 -> SizeT.div a b = Ok (a / b).
Proof. intros Hb. unfold SizeT.div. apply N.eqb_neq in Hb. rewrite Hb. reflexivity. Qed.

Lemma rem_nonzero a b : b <> 0 -> SizeT.rem a b = Ok (a mod b).
Proof. intros Hb. unfold SizeT.rem. apply N.eqb_neq in Hb. rewrite Hb. reflexivity. Qed.

Lemma sub_small a b : b <= a -> SizeT.fits a -> SizeT.sub a b = a - b.
Proof.
  unfold SizeT.fits. intros Hb Ha. unfold SizeT.sub.
  rewrite (wrap_small b) by (unfold SizeT.fits; lia).
  replace (a + SizeT.modulus - b) with ((a - b) + 1 * SizeT.modulus) by lia.
  unfold SizeT.wrap. rewrite N.Div0.mod_add. apply N.mod_small. lia.
Qed.

(** ** Vectors *)

Section VectorFacts.
Context {A : Type}.
Implicit Types v w : list A.

Lemma vget_Ok v i x : vget v i = Ok x <-> v !! N.to_nat i = Some x.
Proof. unfold vget. destruct (v !! N.to_nat i); split; congruence. Qed.

Lemma lookup_N_is_Some v i : i < size v -> exists x, v !! N.to_nat i = Some x.
Proof.
  intros Hi. apply (lookup_lt_is_Some_2 v (N.to_nat i)). unfold size in Hi. lia.
Qed.

Lemma vset_lt v i x : i < size v -> vset v i x = Ok (<[N.to_nat i := x]> v).
Proof. intros Hi. unfold vset. apply N.ltb_lt in Hi. rewrite Hi. reflexivity. Qed.

Lemma size_insert v n x : size (<[n := x]> v) = size v.
Proof. unfold size. rewrite length_insert. reflexivity. Qed.

Lemma lookup_N_insert_eq v i x :
  i < size v -> <[N.to_nat i := x]> v !! N.to_nat i = Some x.
Proof. intros Hi. apply list_lookup_insert_eq. unfold size in Hi. lia. Qed.

Lemma lookup_N_insert_ne v i j x :
  i <> j -> <[N.to_nat i := x]> v !! N.to_nat j = v !! N.to_nat j.
Proof. intros Hij. apply list_lookup_insert_ne. lia. Qed.

(** Two vectors of one size that agree at every index below it are equal. *)
Lemma vec_ext v w :
  size v = size w ->
  (forall i, i < size v -> v !! N.to_nat i = w !! N.to_nat i) ->
  v = w.
Proof.
  intros Hs Hi. apply list_eq. intros n.
  destruct (decide (n < length v)%nat) as [Hn|Hn].
  - specialize (Hi (N.of_nat n)). rewrite Nat2N.id in Hi. apply Hi.
    unfold size. lia.
  - unfold size in Hs.
    rewrite !lookup_ge_None_2; [reflexivity | lia | lia].
Qed.

End VectorFacts.

(** ** Element access *)

Section AccessFacts.
Context {T : Type} `{Scalar T}.
Implicit Types m : Matrix T.

Lemma elem_in_range m r c :
  flat_index m r c < size (buffer_ m) ->
  elem m r c = vget (buffer_ m) (flat_index m r c).
Proof.
  intros Hlt. unfold elem, assert. apply N.ltb_lt in Hlt. rewrite Hlt. reflexivity.
Qed.

Lemma elem_out_of_range m r c :
  size (buffer_ m) <= flat_index m r c -> elem m r c = ContractFailure.
Proof.
  intros Hge. unfold elem, assert. apply N.ltb_ge in Hge. rewrite Hge. reflexivity.
Qed.

Lemma flat_index_small m r c :
  SizeT.fits (Columns m * r + c) -> flat_index m r c = Columns m * r + c.
Proof.
  unfold SizeT.fits. intros Hf. unfold flat_index.
  rewrite mul_small by (unfold SizeT.fits; lia). apply add_small. exact Hf.
Qed.

Lemma wf_Columns_pos m i : wf m -> i < size (buffer_ m) -> 0 < Columns m.
Proof.
  intros (Hsz & Hpos & _) Hi. apply Hpos.
  destruct (N.eq_dec (Rows m) 0) as [E|E]; [|lia].
  rewrite E in Hsz. lia.
Qed.

(** The pair [(i / Columns, i % Columns)] is the position of flat index [i]:
    its column is a column of the matrix and [operator()] maps it to [i]. *)
Lemma position_flat_index m i :
  wf m -> i < size (buffer_ m) ->
  snd (position m i) < Columns m /\
  flat_index m (fst (position m i)) (snd (position m i)) = i.
Proof.
  intros Hwf Hi. pose proof (wf_Columns_pos m i Hwf Hi) as Hc.
  destruct Hwf as (Hsz & _ & Hfit). unfold position. simpl.
  split; [apply N.mod_lt; lia|].
  rewrite flat_index_small.
  - symmetry. apply N.div_mod. lia.
  - rewrite <- N.div_mod by lia. unfold SizeT.fits in *. lia.
Qed.

End AccessFacts.

(** ** The result monad *)

Lemma bind_Ok {A B : Type} (r : result A) (f : A -> result B) (b : B) :
  r ≫= f = Ok b <-> exists x, r = Ok x /\ f x = Ok b.
Proof.
  destruct r as [x| | |]; cbn; split.
  - intros Hf. exists x. split; [reflexivity | exact Hf].
  - intros (y & Hy & Hf). injection Hy as <-. exact Hf.
  - discriminate.
  - intros (y & Hy & _). discriminate.
  - discriminate.
  - intros (y & Hy & _). discriminate.
  - discriminate.
  - intros (y & Hy & _). discriminate.
Qed.

Lemma bind_assoc {A B C : Type} (r : result A) (f : A -> result B)
    (g : B -> result C) :
  (r ≫= f) ≫= g = r ≫= (fun x => f x ≫= g).
Proof. destruct r; reflexivity. Qed.

Lemma bind_ext {A B : Type} (r : result A) (f g : A -> result B) :
  (forall x, f x = g x) -> r ≫= f = r ≫= g.
Proof. intros Hfg. destruct r; cbn; [apply Hfg | reflexivity..]. Qed.

(** ** The nested-literal constructor establishes the invariant *)

Section ConstructorFacts.
Context {T : Type} `{Scalar T}.

Lemma push_rows_Ok (columns : N) (lst : list (list T)) (buffer b' : list T) :
  push_rows columns lst buffer = Ok b' ->
  b' = buffer ++ concat lst /\ Forall (fun row => size row = columns) lst.
Proof.
  revert buffer. induction lst as [|row lst IH]; intros buffer Hrun.
  - injection Hrun as <-. rewrite app_nil_r. split; [reflexivity | constructor].
  - cbn [push_rows] in Hrun. unfold assert in Hrun.
    destruct (N.eqb_spec (size row) columns) as [Hrow|]; [|discriminate].
    destruct (IH _ Hrun) as [-> Hall]. split.
    + cbn [concat]. rewrite <- app_assoc. reflexivity.
    + constructor; assumption.
Qed.

Lemma size_concat_rows (columns : N) (lst : list (list T)) :
  Forall (fun row => size row = columns) lst ->
  size (concat lst) = size lst * columns.
Proof.
  induction 1 as [|row lst Hrow _ IH]; [reflexivity|].
  unfold size in *. cbn [concat length]. rewrite length_app. lia.
Qed.

Lemma Matrix_of_rows_wf (lst : list (list T)) (m : Matrix T) :
  Matrix_of_rows lst = Ok m -> SizeT.fits (size (concat lst)) ->
  wf m /\ Rows m = size lst /\ buffer_ m = concat lst.
Proof.
  unfold Matrix_of_rows, assert. intros Hrun Hfit.
  destruct (N.ltb_spec 0 (size lst)) as [Hrows|]; [|discriminate].
  destruct lst as [|first rest]; [discriminate|].
  destruct (N.ltb_spec 0 (size first)) as [Hcols|]; [|discriminate].
  apply bind_Ok in Hrun as (buffer & Hpush & [= <-]).
  apply push_rows_Ok in Hpush as [-> Hall].
  pose proof (size_concat_rows _ _ Hall) as Hsize.
  split; [|split; reflexivity].
  assert (HC : Columns (mkMatrix (size (first :: rest)) ([] ++ concat (first :: rest)))
               = size first).
  { unfold Columns. cbn [rows_ buffer_ app]. rewrite Hsize.
    destruct (N.eqb_spec (size (first :: rest)) 0); [lia|].
    rewrite N.mul_comm. apply N.div_mul. lia. }
  unfold wf. rewrite HC. unfold Rows. cbn [rows_ buffer_ app]. split_and!.
  - exact Hsize.
  - intros _. exact Hcols.
  - exact Hfit.
Qed.

End ConstructorFacts.

(** ** Equality *)

Section EqualityFacts.
Context {T : Type} `{Scalar T}.

Lemma vec_eqb_Forall2 (v w : list T) :
  vec_eqb v w = true <-> Forall2 (fun x y => seqb x y = true) v w.
Proof.
  revert w. induction v as [|x v IH]; intros [|y w]; simpl.
  - split; [constructor | reflexivity].
  - split; [discriminate | inversion 1].
  - split; [discriminate | inversion 1].
  - rewrite andb_true_iff, IH. split.
    + intros [Hx Hv]. constructor; assumption.
    + inversion 1; subst. split; assumption.
Qed.

(** What [operator==] decides: the buffers have one length and pairwise
    [==] elements. The row counts are not read. *)
Lemma op_eq_buffers (lhs rhs : Matrix T) :
  op_eq lhs rhs = true <->
  Forall2 (fun x y => seqb x y = true) (buffer_ lhs) (buffer_ rhs).
Proof. apply vec_eqb_Forall2. Qed.

Lemma op_eq_rows_irrelevant (lhs rhs : Matrix T) (r r' : N) :
  op_eq (mkMatrix r (buffer_ lhs)) (mkMatrix r' (buffer_ rhs)) = op_eq lhs rhs.
Proof. reflexivity. Qed.

End EqualityFacts.

(** C1. [operator==] compares the buffers only: the 1x2 matrix [[1,2]] and
    the 2x1 matrix [[1],[2]], both built by the nested-literal constructor,
    have different row counts and compare equal. *)
Theorem op_eq_ignores_row_count :
  exists A B : Matrix float,
    Matrix_of_rows [[1; 2]]%float = Ok A /\
    Matrix_of_rows [[1]; [2]]%float = Ok B /\
    Rows A = 1 /\ Rows B = 2 /\ wf A /\ wf B /\
    buffer_ A = buffer_ B /\
    op_eq A B = true /\ op_ne A B = false.
Proof.
  eexists; eexists.
  split; [vm_compute; reflexivity|].
  split; [vm_compute; reflexivity|].
  repeat split; try reflexivity; vm_compute; congruence.
Qed.

(** ** The bounds contract of element access *)

Section BoundsFacts.
Context {T : Type} `{Scalar T}.

(** C9. [operator()] asserts on the flat index only. It fails its contract
    exactly when [Columns() * row + col], computed in [size_t], is not below
    the buffer's size. So in a matrix with at least two rows a column index
    past the last column, with the flat index still inside the buffer, is
    accepted: the access yields the element at that flat position, which is
    the element at column [col % Columns()] of the later row
    [row + col / Columns()]. *)
Theorem elem_checks_flat_index_only (m : Matrix T) (row col : N) :
  (elem m row col = ContractFailure <->
   size (buffer_ m) <= flat_index m row col) /\
  (SizeT.fits (Columns m * row + col) ->
   flat_index m row col = Columns m * row + col) /\
  (wf m -> 2 <= Rows m -> Columns m <= col ->
   Columns m * row + col < size (buffer_ m) ->
   exists x,
     elem m row col = Ok x /\
     buffer_ m !! N.to_nat (Columns m * row + col) = Some x /\
     row < row + col / Columns m /\
     row + col / Columns m < Rows m /\
     col mod Columns m < Columns m /\
     elem m (row + col / Columns m) (col mod Columns m) = Ok x).
Proof.
  split; [|split].
  - split.
    + intros Hfail. destruct (N.lt_ge_cases (flat_index m row col) (size (buffer_ m)))
        as [Hlt|Hge]; [|exact Hge].
      rewrite elem_in_range in Hfail by exact Hlt.
      destruct (lookup_N_is_Some _ _ Hlt) as [x Hx].
      apply vget_Ok in Hx. congruence.
    + apply elem_out_of_range.
  - apply flat_index_small.
  - intros Hwf Hrows Hcol Hin.
    pose proof (wf_Columns_pos m _ Hwf Hin) as Hc.
    destruct Hwf as (Hsz & _ & Hfit). unfold SizeT.fits in Hfit.
    assert (Hflat : flat_index m row col = Columns m * row + col)
      by (apply flat_index_small; unfold SizeT.fits; lia).
    assert (Hdm : col = Columns m * (col / Columns m) + col mod Columns m)
      by (apply N.div_mod; lia).
    assert (Hmod : col mod Columns m < Columns m) by (apply N.mod_lt; lia).
    assert (Hq : 0 < col / Columns m) by (apply N.div_str_pos; lia).
    assert (Hflat' : flat_index m (row + col / Columns m) (col mod Columns m)
                     = Columns m * row + col).
    { rewrite flat_index_small; [lia|]. unfold SizeT.fits. lia. }
    destruct (lookup_N_is_Some _ _ Hin) as [x Hx].
    exists x. repeat split.
    + rewrite elem_in_range by lia. rewrite Hflat. apply vget_Ok. exact Hx.
    + exact Hx.
    + lia.
    + destruct (N.lt_ge_cases (row + col / Columns m) (Rows m)) as [Hlt|Hge];
        [exact Hlt | exfalso].
      assert (Rows m * Columns m <= Columns m * (row + col / Columns m)) by nia.
      pose proof (N.le_0_l (col mod Columns m)). lia.
    + exact Hmod.
    + rewrite elem_in_range by lia. rewrite Hflat'. apply vget_Ok. exact Hx.
Qed.

End BoundsFacts.

(** In [[1,2,3],[4,5,6]] the access [(0, 4)] is accepted and yields 5, the
    element at row 1, column 1. *)
Lemma elem_checks_flat_index_only_witness :
  exists x,
    elem (mkMatrix 2 [1; 2; 3; 4; 5; 6]%float) 0 4 = Ok x /\
    [1; 2; 3; 4; 5; 6]%float !! N.to_nat (3 * 0 + 4) = Some x /\
    0 < 0 + 4 / 3 /\
    0 + 4 / 3 < 2 /\
    4 mod 3 < 3 /\
    elem (mkMatrix 2 [1; 2; 3; 4; 5; 6]%float) (0 + 4 / 3) (4 mod 3) = Ok x.
Proof.
  apply (elem_checks_flat_index_only (mkMatrix 2 [1; 2; 3; 4; 5; 6]%float) 0 4).
  - repeat split; vm_compute; congruence.
  - vm_compute; congruence.
  - vm_compute; congruence.
  - vm_compute; reflexivity.
Defined.

(** ** Loops over the buffer *)

Section LoopFacts.
Context {T : Type} `{Scalar T}.

Lemma vget_middle {A} (done rest : list A) x :
  vget (done ++ x :: rest) (N.of_nat (length done)) = Ok x.
Proof.
  apply vget_Ok. rewrite Nat2N.id. apply list_lookup_middle. reflexivity.
Qed.

Lemma vset_middle {A} (done rest : list A) x y :
  vset (done ++ x :: rest) (N.of_nat (length done)) y = Ok ((done ++ [y]) ++ rest).
Proof.
  rewrite vset_lt.
  - rewrite Nat2N.id. f_equal.
    replace (length done) with (length done + 0)%nat by lia.
    rewrite insert_app_r. simpl. rewrite <- app_assoc. reflexivity.
  - unfold size. rewrite length_app. simpl. lia.
Qed.

Lemma succ_length {A} (done : list A) y :
  N.succ (N.of_nat (length done)) = N.of_nat (length (done ++ [y])).
Proof. rewrite length_app. simpl. lia. Qed.

(** The loop of [+=] and [-=]: element [i] becomes [f] of itself and of
    element [i] of the right operand. *)
Lemma zip_loop (f : T -> T -> T) (rest done rhs_done rhs_rest : list T) :
  length done = length rhs_done ->
  length rest = length rhs_rest ->
  for_loop (length rest) (N.of_nat (length done))
    (fun i b => x ← vget b i; y ← vget (rhs_done ++ rhs_rest) i; vset b i (f x y))
    (done ++ rest)
  = Ok (done ++ zip_with f rest rhs_rest).
Proof.
  revert done rhs_done rhs_rest.
  induction rest as [|x rest IH]; intros done rhs_done [|y rhs_rest] Hd Hr;
    simpl in Hr; try discriminate.
  - reflexivity.
  - cbn [for_loop length]. rewrite vget_middle. cbn.
    rewrite Hd, vget_middle. cbn. rewrite <- Hd, vset_middle. cbn.
    rewrite (succ_length done (f x y)).
    replace (rhs_done ++ y :: rhs_rest) with ((rhs_done ++ [y]) ++ rhs_rest)
      by (rewrite <- app_assoc; reflexivity).
    rewrite IH.
    + rewrite <- app_assoc. reflexivity.
    + rewrite !length_app. simpl. lia.
    + lia.
Qed.

(** The loop of the index-taking [ApplyToEach]. *)
Lemma each_idx_loop {C : Type} (func : C -> T -> N -> N -> C * T) (rows : N)
    (rest done : list T) (c : C) :
  rest = [] \/ rows <> 0 ->
  for_loop (length rest) (N.of_nat (length done))
    (fun i '(c, b) =>
       x ← vget b i;
       q ← SizeT.div i rows;
       r ← SizeT.rem i rows;
       let '(c', x') := func c x q r in
       b' ← vset b i x'; Ok (c', b'))
    (c, done ++ rest)
  = Ok (fst (each_idx func rows (N.of_nat (length done)) c rest),
        done ++ snd (each_idx func rows (N.of_nat (length done)) c rest)).
Proof.
  revert done c. induction rest as [|x rest IH]; intros done c Hrows.
  - reflexivity.
  - destruct Hrows as [?|Hrows]; [discriminate|].
    cbn [for_loop length each_idx]. rewrite vget_middle. cbn.
    rewrite (div_nonzero (N.of_nat (length done)) rows Hrows).
    rewrite (rem_nonzero (N.of_nat (length done)) rows Hrows). cbn.
    destruct (func c x _ _) as [c1 x'].
    rewrite vset_middle. cbn. rewrite (succ_length done x').
    rewrite IH by (right; exact Hrows).
    rewrite <- (succ_length done x').
    destruct (each_idx func rows _ c1 rest) as [c2 l'']. cbn.
    rewrite <- app_assoc. reflexivity.
Qed.

Lemma each_idx_record_call (rows i : N) (log : list (T * N * N)) (l : list T) :
  each_idx record_call rows i log l
  = (log ++ imap (fun k x => (x, (i + N.of_nat k) / rows, (i + N.of_nat k) mod rows)) l,
     l).
Proof.
  revert i log. induction l as [|x l IH]; intros i log.
  - cbn. rewrite app_nil_r. reflexivity.
  - cbn [each_idx record_call]. rewrite IH. cbn [imap].
    rewrite <- app_assoc. cbn. rewrite N.add_0_r. do 3 f_equal.
    apply imap_ext. intros k y _. cbn.
    replace (N.succ i + N.of_nat k) with (i + N.of_nat (S k)) by lia.
    reflexivity.
Qed.

End LoopFacts.

(** ** The index-taking ApplyToEach *)

Section ApplyFacts.
Context {T : Type} `{Scalar T}.

Lemma wf_empty_or_rows (m : Matrix T) : wf m -> buffer_ m = [] \/ Rows m <> 0.
Proof.
  intros (Hsz & _ & _). destruct (N.eq_dec (Rows m) 0) as [E|E]; [left|right; exact E].
  rewrite E in Hsz. unfold size in Hsz.
  destruct (buffer_ m); [reflexivity | simpl in Hsz; lia].
Qed.

(** C10. The index-taking [ApplyToEach] calls the callback on the element at
    flat index [i] with the arguments [(i / Rows(), i % Rows())], in the order
    of the flat indices; the position of flat index [i], the pair that
    [operator()] maps to [i], is [(i / Columns(), i % Columns())]. The two
    agree at every element exactly when [Rows() == Columns()]. *)
Theorem ApplyToEachIdx_arguments (m : Matrix T) :
  wf m ->
  (forall (C : Type) (func : C -> T -> N -> N -> C * T) (c : C),
     ApplyToEachIdx func c m
     = Ok (fst (each_idx func (Rows m) 0 c (buffer_ m)),
           mkMatrix (rows_ m) (snd (each_idx func (Rows m) 0 c (buffer_ m))))) /\
  ApplyToEachIdx record_call [] m
  = Ok (imap (fun k x => (x, N.of_nat k / Rows m, N.of_nat k mod Rows m))
          (buffer_ m), m) /\
  (forall i, i < size (buffer_ m) ->
     snd (position m i) < Columns m /\
     flat_index m (fst (position m i)) (snd (position m i)) = i) /\
  ((forall i, i < size (buffer_ m) -> (i / Rows m, i mod Rows m) = position m i)
   <-> Rows m = Columns m).
Proof.
  intros Hwf.
  assert (Hrun : forall (C : Type) (func : C -> T -> N -> N -> C * T) (c : C),
     ApplyToEachIdx func c m
     = Ok (fst (each_idx func (Rows m) 0 c (buffer_ m)),
           mkMatrix (rows_ m) (snd (each_idx func (Rows m) 0 c (buffer_ m))))).
  { intros C func c. unfold ApplyToEachIdx.
    pose proof (each_idx_loop func (Rows m) (buffer_ m) [] c
                  (wf_empty_or_rows m Hwf)) as Hloop.
    change (N.of_nat (length [])) with 0 in Hloop.
    change ([] ++ buffer_ m) with (buffer_ m) in Hloop.
    rewrite Hloop. reflexivity. }
  split; [exact Hrun|]. split; [|split].
  - rewrite Hrun, each_idx_record_call. cbn. destruct m; reflexivity.
  - intros i Hi. apply position_flat_index; assumption.
  - split.
    + intros Hall. destruct Hwf as (Hsz & Hpos & _).
      destruct (N.eq_dec (Rows m) 0) as [E|E].
      { rewrite E. unfold Columns, Rows in *. rewrite E. reflexivity. }
      assert (Hc : 0 < Columns m) by (apply Hpos; lia).
      destruct (N.lt_trichotomy (Rows m) (Columns m)) as [Hlt|[Heq|Hgt]];
        [exfalso | exact Heq | exfalso].
      * assert (Hi : Rows m < size (buffer_ m)) by nia.
        specialize (Hall _ Hi). unfold position in Hall.
        rewrite N.div_same, (N.div_small (Rows m) (Columns m)) in Hall by lia.
        congruence.
      * assert (Hi : Columns m < size (buffer_ m)) by nia.
        specialize (Hall _ Hi). unfold position in Hall.
        rewrite N.div_same, (N.div_small (Columns m) (Rows m)) in Hall by lia.
        congruence.
    + intros Heq i _. unfold position. rewrite Heq. reflexivity.
Qed.

End ApplyFacts.

(** On the 2x3 matrix [[1,2,3],[4,5,6]] the callback gets the index pairs
    (0,0) (0,1) (1,0) (1,1) (2,0) (2,1). *)
Lemma ApplyToEachIdx_arguments_witness :
  ApplyToEachIdx record_call [] (mkMatrix 2 [1; 2; 3; 4; 5; 6]%float)
  = Ok ([(1%float, 0, 0); (2%float, 0, 1); (3%float, 1, 0);
         (4%float, 1, 1); (5%float, 2, 0); (6%float, 2, 1)],
        mkMatrix 2 [1; 2; 3; 4; 5; 6]%float).
Proof.
  apply (ApplyToEachIdx_arguments (mkMatrix 2 [1; 2; 3; 4; 5; 6]%float)).
  repeat split; vm_compute; congruence.
Defined.

(** ** Addition and subtraction *)

Section AdditiveFacts.
Context {T : Type} `{Scalar T}.

Lemma same_shape_length (A B : Matrix T) :
  wf A -> wf B -> Rows A = Rows B -> Columns A = Columns B ->
  length (buffer_ A) = length (buffer_ B).
Proof.
  intros (HA & _) (HB & _) Hr Hc. unfold size in *. rewrite Hr, Hc in HA. lia.
Qed.

Lemma op_add_assign_zip (self rhs : Matrix T) :
  Rows self = Rows rhs -> Columns self = Columns rhs ->
  length (buffer_ self) = length (buffer_ rhs) ->
  op_add_assign self rhs
  = Ok (mkMatrix (rows_ self) (zip_with sadd (buffer_ self) (buffer_ rhs))).
Proof.
  intros Hr Hc Hlen. unfold op_add_assign, assert.
  rewrite Hr, Hc, !N.eqb_refl.
  pose proof (zip_loop sadd (buffer_ self) [] [] (buffer_ rhs) eq_refl Hlen) as Hl.
  change (N.of_nat (length [])) with 0 in Hl.
  change ([] ++ buffer_ self) with (buffer_ self) in Hl.
  change ([] ++ buffer_ rhs) with (buffer_ rhs) in Hl.
  rewrite Hl. reflexivity.
Qed.

Lemma op_sub_assign_zip (self rhs : Matrix T) :
  Rows self = Rows rhs -> Columns self = Columns rhs ->
  length (buffer_ self) = length (buffer_ rhs) ->
  op_sub_assign self rhs
  = Ok (mkMatrix (rows_ self) (zip_with ssub (buffer_ self) (buffer_ rhs))).
Proof.
  intros Hr Hc Hlen. unfold op_sub_assign, assert.
  rewrite Hr, Hc, !N.eqb_refl.
  pose proof (zip_loop ssub (buffer_ self) [] [] (buffer_ rhs) eq_refl Hlen) as Hl.
  change (N.of_nat (length [])) with 0 in Hl.
  change ([] ++ buffer_ self) with (buffer_ self) in Hl.
  change ([] ++ buffer_ rhs) with (buffer_ rhs) in Hl.
  rewrite Hl. reflexivity.
Qed.

Lemma op_add_zip (lhs rhs : Matrix T) :
  Rows lhs = Rows rhs -> Columns lhs = Columns rhs ->
  length (buffer_ lhs) = length (buffer_ rhs) ->
  op_add lhs rhs
  = Ok (mkMatrix (rows_ lhs) (zip_with sadd (buffer_ lhs) (buffer_ rhs))).
Proof.
  intros Hr Hc Hlen. unfold op_add, assert. rewrite Hr, !N.eqb_refl.
  apply op_add_assign_zip; assumption.
Qed.

Lemma op_sub_zip (lhs rhs : Matrix T) :
  Rows lhs = Rows rhs -> Columns lhs = Columns rhs ->
  length (buffer_ lhs) = length (buffer_ rhs) ->
  op_sub lhs rhs
  = Ok (mkMatrix (rows_ lhs) (zip_with ssub (buffer_ lhs) (buffer_ rhs))).
Proof.
  intros Hr Hc Hlen. unfold op_sub, assert. rewrite Hr, Hc, !N.eqb_refl.
  apply op_sub_assign_zip; assumption.
Qed.

Lemma Columns_same_length (r : N) (v w : list T) :
  length v = length w -> Columns (mkMatrix r v) = Columns (mkMatrix r w).
Proof. intros Hl. unfold Columns, size. simpl. rewrite Hl. reflexivity. Qed.

Lemma zip_sub_add (a b : list T) :
  length a = length b ->
  zip_with ssub (zip_with sadd a b) b
  = zip_with (fun x y => ssub (sadd x y) y) a b.
Proof.
  revert b. induction a as [|x a IH]; intros [|y b] Hl; simpl in *;
    try discriminate; [reflexivity|].
  f_equal. apply IH. lia.
Qed.

Lemma Forall2_zip_left (g : T -> T -> T) (a b : list T) :
  length a = length b ->
  Forall2 (fun x y => seqb x y = true) (zip_with g a b) a <->
  Forall2 (fun x y => seqb (g x y) x = true) a b.
Proof.
  revert b. induction a as [|x a IH]; intros [|y b] Hl; simpl in *;
    try discriminate.
  - split; constructor.
  - split; inversion 1; subst; constructor; try assumption; apply IH; auto; lia.
Qed.

(** C8, as the code has it. For same-shaped [A] and [B], [(A + B) - B] is
    computed without a contract failure, has the shape of [A], and holds
    [(a + b) - b] at each index, in the arithmetic of the scalar type. It
    [==] [A] exactly when [(a + b) - b == a] at each index. *)
Theorem add_then_sub (A B : Matrix T) :
  wf A -> wf B -> Rows A = Rows B -> Columns A = Columns B ->
  exists S D : Matrix T,
    op_add A B = Ok S /\ op_sub S B = Ok D /\
    Rows D = Rows A /\ Columns D = Columns A /\
    buffer_ D = zip_with (fun a b => ssub (sadd a b) b) (buffer_ A) (buffer_ B) /\
    (op_eq D A = true <->
     Forall2 (fun a b => seqb (ssub (sadd a b) b) a = true)
       (buffer_ A) (buffer_ B)).
Proof.
  intros HA HB Hr Hc.
  pose proof (same_shape_length A B HA HB Hr Hc) as Hlen.
  assert (Hzl : length (zip_with sadd (buffer_ A) (buffer_ B)) = length (buffer_ A))
    by (rewrite length_zip_with; lia).
  eexists; eexists. split; [apply op_add_zip; assumption|].
  split.
  { apply op_sub_zip; simpl.
    - exact Hr.
    - rewrite <- Hc. apply Columns_same_length. exact Hzl.
    - lia. }
  simpl. split; [reflexivity|]. split.
  { destruct A as [ra ba]. apply Columns_same_length. simpl in *.
    rewrite length_zip_with; lia. }
  split; [apply zip_sub_add; exact Hlen|].
  rewrite op_eq_buffers. simpl. rewrite zip_sub_add by exact Hlen.
  apply Forall2_zip_left. exact Hlen.
Qed.

End AdditiveFacts.

(** C8 fails in [double]: [1 + 2^53] rounds to [2^53], so
    [([[1]] + [[2^53]]) - [[2^53]]] is [[0]], which is not [== [[1]]]. *)
Lemma add_then_sub_not_inverse_in_double :
  exists A B S D : Matrix float,
    Matrix_of_rows [[1]]%float = Ok A /\
    Matrix_of_rows [[9007199254740992]]%float = Ok B /\
    Rows A = Rows B /\ Columns A = Columns B /\
    op_add A B = Ok S /\ op_sub S B = Ok D /\
    op_eq D A = false.
Proof.
  do 4 eexists.
  split; [vm_compute; reflexivity|].
  split; [vm_compute; reflexivity|].
  repeat split; vm_compute; reflexivity.
Qed.

(** [([[3,4],[5,6]] + [[1,1],[1,1]]) - [[1,1],[1,1]]] in [double]. *)
Lemma add_then_sub_witness :
  exists S D : Matrix float,
    op_add (mkMatrix 2 [3; 4; 5; 6]%float) (mkMatrix 2 [1; 1; 1; 1]%float) = Ok S /\
    op_sub S (mkMatrix 2 [1; 1; 1; 1]%float) = Ok D /\
    Rows D = 2 /\ Columns D = 2 /\
    buffer_ D = [3; 4; 5; 6]%float /\
    (op_eq D (mkMatrix 2 [3; 4; 5; 6]%float) = true <->
     Forall2 (fun a b => seqb (ssub (sadd a b) b) a = true)
       [3; 4; 5; 6]%float [1; 1; 1; 1]%float).
Proof.
  assert (HA : wf (mkMatrix 2 [3; 4; 5; 6]%float))
    by (repeat split; vm_compute; congruence).
  assert (HB : wf (mkMatrix 2 [1; 1; 1; 1]%float))
    by (repeat split; vm_compute; congruence).
  pose proof (add_then_sub _ _ HA HB eq_refl eq_refl) as W.
  vm_compute in W. vm_compute. exact W.
Defined.

(** ** Transpose: following the cycles of a permutation

    The loops of [Transpose] are first studied for any map [sigma] of the
    indices below [n] that is one-to-one; [a] is the buffer at entry. *)

Section CycleFacts.
Context {T : Type}.
Variable a : list T.
Variable rows last_idx : N.
Variable sigma : N -> N.

Local Abbreviation n := (size a).
Local Notation "v @ j" := (v !! N.to_nat j) (at level 20).

Hypothesis sigma_next : forall j, j < n -> next_idx rows last_idx j = Ok (sigma j).
Hypothesis sigma_lt : forall j, j < n -> sigma j < n.
Hypothesis sigma_inj : forall j k, j < n -> k < n -> sigma j = sigma k -> j = k.

Local Abbreviation between_cycles := (between_cycles a sigma).
Local Abbreviation in_cycle := (in_cycle a sigma).

Lemma vis_cases (vis : list bool) j :
  size vis = n -> j < n -> vis @ j = Some true \/ vis @ j = Some false.
Proof.
  intros Hs Hj. destruct (lookup_N_is_Some vis j) as [[|] Hv]; [lia| |]; auto.
Qed.

Lemma enter_cycle b vis i :
  between_cycles b vis -> i < n -> vis @ i = Some false -> in_cycle i i b vis.
Proof.
  intros (Hb & Hv & Hback & Hfwd & Hrest) Hi Hvi.
  unfold in_cycle. split_and!; auto.
  - intros j Hj Hvj. split.
    + intros ->. apply Hback in Hvj; [congruence | assumption].
    + left. apply Hback; assumption.
  - intros j Hj [Hvj| ->] Hne; [|congruence]. apply Hfwd; assumption.
Qed.

Lemma next_unvisited i s b vis :
  in_cycle i s b vis -> vis @ sigma s = Some false.
Proof.
  intros (Hb & Hv & Hi & Hs & Hsi & Hvi & Hback & _).
  destruct (vis_cases vis (sigma s) Hv (sigma_lt s Hs)) as [Ht|Hf]; [|exact Hf].
  apply Hback in Ht; [|exact Hs]. destruct Ht as [Hne _]. congruence.
Qed.

Lemma stay_in_cycle i s b vis b' vis' :
  in_cycle i s b vis -> sigma s <> i ->
  swapped b b' (sigma s) i -> marked vis vis' (sigma s) ->
  in_cycle i (sigma s) b' vis'.
Proof.
  intros Hin Hne (Hb' & Hbi & Hbs & Hbo) (Hv' & Hvs & Hvo).
  pose proof (next_unvisited i s b vis Hin) as Hnext.
  destruct Hin as (Hb & Hv & Hi & Hs & Hsi & Hvi & Hback & Hfwd & Hslot & Hrest).
  assert (Hss : sigma s <> s).
  { intros E. destruct Hsi as [->|Hsv]; [congruence|]. rewrite E in Hnext. congruence. }
  assert (Hold : forall j, j <> sigma s -> vis' @ j = Some true \/ j = i ->
                           vis @ j = Some true \/ j = i).
  { intros j Hj [Ht|Ht]; [left|right; exact Ht]. rewrite Hvo in Ht by exact Hj. exact Ht. }
  unfold in_cycle. split_and!.
  - congruence.
  - congruence.
  - exact Hi.
  - apply sigma_lt; exact Hs.
  - right; exact Hvs.
  - rewrite Hvo by congruence. exact Hvi.
  - intros j Hj Hvj. split.
    + intros ->. destruct (N.eq_dec (sigma (sigma s)) (sigma s)) as [E|E].
      * apply sigma_inj in E; [congruence | apply sigma_lt; exact Hs | exact Hs].
      * rewrite Hvo in Hvj by exact E.
        apply Hback in Hvj; [|apply sigma_lt; exact Hs].
        destruct Hvj as [_ [Ht|Ht]]; congruence.
    + destruct (N.eq_dec j s) as [->|Hjs].
      * destruct Hsi as [->|Hsv]; [right; reflexivity|].
        left. rewrite Hvo by congruence. exact Hsv.
      * destruct (N.eq_dec (sigma j) (sigma s)) as [E|E].
        { apply sigma_inj in E; [congruence | exact Hj | exact Hs]. }
        rewrite Hvo in Hvj by exact E. apply Hback in Hvj; [|exact Hj].
        destruct Hvj as [_ [Ht|Ht]]; [left|right; exact Ht].
        destruct (N.eq_dec j (sigma s)) as [->|E']; [exact Hvs|].
        rewrite Hvo by exact E'. exact Ht.
  - intros j Hj Hvj Hjs'.
    destruct (N.eq_dec j s) as [->|Hjs]; [split; [exact Hvs | rewrite Hbs; exact Hslot]|].
    destruct (Hfwd j Hj (Hold j Hjs' Hvj) Hjs) as [Ht Hb0]. split.
    + destruct (N.eq_dec (sigma j) (sigma s)) as [->|E]; [exact Hvs|].
      rewrite Hvo by exact E. exact Ht.
    + rewrite Hbo; [exact Hb0 | |].
      * intros E. apply sigma_inj in E; [congruence | exact Hj | exact Hs].
      * intros E. rewrite E in Ht. congruence.
  - rewrite Hbi. apply Hrest; [apply sigma_lt; exact Hs | exact Hnext | exact Hne].
  - intros j Hj Hvj Hji.
    destruct (N.eq_dec j (sigma s)) as [->|E]; [congruence|].
    rewrite Hvo in Hvj by exact E. rewrite Hbo by assumption.
    apply Hrest; assumption.
Qed.

Lemma leave_cycle i s b vis b' vis' :
  in_cycle i s b vis -> sigma s = i ->
  swapped b b' i i -> marked vis vis' i ->
  between_cycles b' vis' /\ vis' @ i = Some true.
Proof.
  intros (Hb & Hv & Hi & Hs & Hsi & Hvi & Hback & Hfwd & Hslot & Hrest) Hsig
    (Hb' & Hbi & _ & Hbo) (Hv' & Hvs & Hvo).
  assert (Hsame : forall j, b' @ j = b @ j).
  { intros j. destruct (N.eq_dec j i) as [->|E]; [exact Hbi | apply Hbo; exact E]. }
  assert (Hold : forall j, vis' @ j = Some true -> vis @ j = Some true \/ j = i).
  { intros j Ht. destruct (N.eq_dec j i) as [->|Hji]; [right; reflexivity|left].
    rewrite Hvo in Ht by exact Hji. exact Ht. }
  split; [|exact Hvs]. unfold between_cycles. split_and!.
  - congruence.
  - congruence.
  - intros j Hj Hvj. destruct (N.eq_dec j i) as [->|Hji]; [exact Hvs|].
    rewrite Hvo by exact Hji.
    destruct (N.eq_dec (sigma j) i) as [E|E].
    + rewrite <- Hsig in E. apply sigma_inj in E; [|exact Hj|exact Hs]. subst j.
      destruct Hsi as [->|Hsv]; [congruence | exact Hsv].
    + rewrite Hvo in Hvj by exact E. apply Hback in Hvj; [|exact Hj].
      destruct Hvj as [_ [Ht|Ht]]; congruence.
  - intros j Hj Hvj. rewrite Hsame.
    destruct (N.eq_dec j s) as [->|Hjs];
      [rewrite Hsig; split; [exact Hvs | exact Hslot]|].
    destruct (Hfwd j Hj (Hold j Hvj) Hjs) as [Ht Hb0]. split; [|exact Hb0].
    destruct (N.eq_dec (sigma j) i) as [->|E]; [exact Hvs|].
    rewrite Hvo by exact E. exact Ht.
  - intros j Hj Hvj. rewrite Hsame.
    destruct (N.eq_dec j i) as [->|Hji]; [congruence|].
    rewrite Hvo in Hvj by exact Hji. apply Hrest; assumption.
Qed.

Lemma vswap_swapped (b : list T) s i :
  s < size b -> i < size b ->
  exists b', vswap b s i = Ok b' /\ swapped b b' s i.
Proof.
  intros Hs Hi.
  destruct (lookup_N_is_Some b s Hs) as [x Hx].
  destruct (lookup_N_is_Some b i Hi) as [y Hy].
  exists (<[N.to_nat i := x]> (<[N.to_nat s := y]> b)). split.
  - unfold vswap. apply vget_Ok in Hx, Hy. rewrite Hx. cbn. rewrite Hy. cbn.
    rewrite vset_lt by exact Hs. cbn. apply vset_lt. rewrite size_insert. exact Hi.
  - unfold swapped. split_and!.
    + rewrite !size_insert. reflexivity.
    + rewrite lookup_N_insert_eq by (rewrite size_insert; exact Hi). congruence.
    + destruct (N.eq_dec i s) as [->|E].
      * rewrite lookup_N_insert_eq by (rewrite size_insert; exact Hs). congruence.
      * rewrite lookup_N_insert_ne by exact E.
        rewrite lookup_N_insert_eq by exact Hs. congruence.
    + intros j Hjs Hji. rewrite !lookup_N_insert_ne by congruence. reflexivity.
Qed.

Lemma insert_marked (vis : list bool) s :
  s < size vis -> marked vis (<[N.to_nat s := true]> vis) s.
Proof.
  intros Hs. unfold marked. split_and!.
  - apply size_insert.
  - apply lookup_N_insert_eq. exact Hs.
  - intros j Hj. apply lookup_N_insert_ne. congruence.
Qed.

Lemma unvisited_insert (vis : list bool) (k : nat) :
  vis !! k = Some false -> unvisited vis = S (unvisited (<[k := true]> vis)).
Proof.
  revert k. induction vis as [|v vis IH]; intros [|k] Hk; simpl in *;
    try discriminate.
  - injection Hk as ->. reflexivity.
  - rewrite (IH k Hk). lia.
Qed.

Lemma unvisited_le_length (vis : list bool) : (unvisited vis <= length vis)%nat.
Proof. induction vis as [|[|] vis IH]; simpl; lia. Qed.

(** The inner loop started at an unmarked index comes back to it within as
    many iterations as there are unmarked indices. *)
Lemma cycle_run (i : N) (fuel : nat) :
  forall s b vis,
    in_cycle i s b vis -> (unvisited vis <= fuel)%nat ->
    exists b' vis',
      cycle fuel rows last_idx i s (b, vis) = Ok (b', vis') /\
      between_cycles b' vis' /\ vis' @ i = Some true /\
      (forall j, vis @ j = Some true -> vis' @ j = Some true).
Proof.
  induction fuel as [|fuel IH]; intros s b vis Hin Hfuel.
  - destruct Hin as (_ & _ & _ & _ & _ & Hvi & _).
    apply unvisited_insert in Hvi. lia.
  - pose proof (next_unvisited i s b vis Hin) as Hnext.
    pose proof Hin as (Hb & Hv & Hi & Hs & _ & Hvi & _).
    pose proof (sigma_lt s Hs) as Hlt.
    destruct (vswap_swapped b (sigma s) i) as (b' & Hswap & Hsw); [lia | lia |].
    assert (Hmk : marked vis (<[N.to_nat (sigma s) := true]> vis) (sigma s))
      by (apply insert_marked; lia).
    cbn [cycle fst snd]. rewrite (sigma_next s Hs). cbn.
    rewrite Hswap. cbn. rewrite vset_lt by lia. cbn.
    destruct (N.eqb_spec (sigma s) i) as [E|E].
    + exists b', (<[N.to_nat (sigma s) := true]> vis). split; [reflexivity|].
      rewrite E in Hsw, Hmk |- *.
      destruct (leave_cycle i s b vis b' _ Hin E Hsw Hmk) as [Hbc Hti].
      split_and!; try assumption.
      intros j Hj. destruct Hmk as (_ & _ & Hvo).
      rewrite Hvo; [exact Hj | congruence].
    + destruct (IH (sigma s) b' (<[N.to_nat (sigma s) := true]> vis))
        as (b'' & vis'' & Hrun & Hbc & Hti & Hmono).
      * apply stay_in_cycle with (b := b) (vis := vis); auto.
      * rewrite (unvisited_insert vis _ Hnext) in Hfuel. lia.
      * exists b'', vis''. split_and!; try assumption.
        intros j Hj. apply Hmono. destruct Hmk as (_ & _ & Hvo).
        rewrite Hvo; [exact Hj | congruence].
Qed.

(** The outer loop from index [i] on. *)
Lemma outer_run (fuel : nat) (k : nat) :
  (length a <= fuel)%nat ->
  forall i b vis,
    between_cycles b vis -> N.of_nat k + i = n ->
    (forall j, 1 <= j < i -> vis @ j = Some true) ->
    exists b' vis',
      for_loop k i
        (fun i st =>
           v ← vget (snd st) i;
           if v : bool then Ok st else cycle fuel rows last_idx i i st)
        (b, vis) = Ok (b', vis') /\
      between_cycles b' vis' /\
      (forall j, 1 <= j < n -> vis' @ j = Some true).
Proof.
  intros Hfuel. induction k as [|k IH]; intros i b vis Hbc Hki Hdone.
  - exists b, vis. split; [reflexivity|]. split; [exact Hbc|].
    intros j Hj. apply Hdone. lia.
  - pose proof Hbc as (Hb & Hv & _).
    assert (Hi : i < n) by lia.
    cbn [for_loop snd].
    destruct (vis_cases vis i Hv Hi) as [Ht|Hf].
    + apply vget_Ok in Ht as Hg. rewrite Hg. cbn.
      apply IH; [exact Hbc | lia |].
      intros j Hj. destruct (N.eq_dec j i) as [->|E]; [exact Ht | apply Hdone; lia].
    + apply vget_Ok in Hf as Hg. rewrite Hg. cbn.
      destruct (cycle_run i fuel i b vis) as (b' & vis' & Hrun & Hbc' & Hti & Hmono).
      * apply enter_cycle; assumption.
      * pose proof (unvisited_le_length vis). unfold size in Hv. lia.
      * rewrite Hrun. cbn. apply IH; [exact Hbc' | lia |].
        intros j Hj. destruct (N.eq_dec j i) as [->|E]; [exact Hti|].
        apply Hmono, Hdone. lia.
Qed.

Lemma lookup_N_replicate_false (len : nat) j :
  j < N.of_nat len -> replicate len false @ j = Some false.
Proof. intros Hj. apply lookup_replicate_2. lia. Qed.

(** Both loops of [Transpose]: they end, and the element that entered at
    [j] is at [sigma j]. *)
Lemma loops_run (fuel : nat) :
  (length a <= fuel)%nat -> sigma 0 = 0 ->
  exists b' vis',
    for_loop (length a - 1) 1
      (fun i st =>
         v ← vget (snd st) i;
         if v : bool then Ok st else cycle fuel rows last_idx i i st)
      (a, replicate (length a) false) = Ok (b', vis') /\
    size b' = n /\
    (forall j, j < n -> b' @ sigma j = a @ j).
Proof.
  intros Hfuel Hzero.
  destruct (decide (length a = 0%nat)) as [E|E].
  { exists a, (replicate (length a) false). rewrite E. split; [reflexivity|].
    split; [reflexivity|]. intros j Hj. unfold size in Hj. lia. }
  assert (Hinit : between_cycles a (replicate (length a) false)).
  { unfold between_cycles. split_and!.
    - reflexivity.
    - unfold size. rewrite length_replicate. reflexivity.
    - intros j Hj Hvj.
      rewrite lookup_N_replicate_false in Hvj by (apply sigma_lt; exact Hj).
      discriminate.
    - intros j Hj Hvj. rewrite lookup_N_replicate_false in Hvj by exact Hj.
      discriminate.
    - reflexivity. }
  destruct (outer_run fuel (length a - 1) Hfuel 1 a _ Hinit)
    as (b' & vis' & Hrun & Hbc & Hall).
  - unfold size. lia.
  - intros j Hj. lia.
  - exists b', vis'. split; [exact Hrun|].
    destruct Hbc as (Hb & Hv & _ & Hfwd & Hrest). split; [exact Hb|].
    intros j Hj. destruct (vis_cases vis' j Hv Hj) as [Ht|Hf].
    + apply Hfwd; assumption.
    + destruct (N.eq_dec j 0) as [->|E0].
      * rewrite Hzero. apply Hrest; assumption.
      * rewrite Hall in Hf by lia. discriminate.
Qed.

End CycleFacts.

(** ** Transpose: the permutation of the flat indices *)

Section TargetBasics.
Variables R n : N.
Hypothesis n_pos : 1 <= n.

Lemma target_lt j : j < n -> target R (n - 1) j < n.
Proof.
  intros Hj. unfold target. destruct (N.eqb_spec j (n - 1)) as [E|E]; [lia|].
  assert (n - 1 <> 0) by lia.
  pose proof (N.mod_lt (R * j) (n - 1)). lia.
Qed.

Lemma target_zero : target R (n - 1) 0 = 0.
Proof.
  unfold target. destruct (N.eqb_spec 0 (n - 1)) as [E|E]; [lia|].
  rewrite N.mul_0_r. apply N.Div0.mod_0_l.
Qed.

Lemma target_last : target R (n - 1) (n - 1) = n - 1.
Proof. unfold target. rewrite N.eqb_refl. reflexivity. Qed.

Lemma target_inner j :
  j < n - 1 -> target R (n - 1) j = (R * j) mod (n - 1) /\ target R (n - 1) j < n - 1.
Proof.
  intros Hj. unfold target. destruct (N.eqb_spec j (n - 1)) as [E|E]; [lia|].
  split; [reflexivity|]. apply N.mod_lt. lia.
Qed.

Lemma next_idx_target j :
  SizeT.fits (R * n) -> j < n -> next_idx R (n - 1) j = Ok (target R (n - 1) j).
Proof.
  unfold SizeT.fits. intros Hfit Hj. unfold next_idx, target.
  destruct (N.eqb_spec j (n - 1)) as [E|E]; [reflexivity|].
  rewrite rem_nonzero by lia.
  rewrite mul_small by (unfold SizeT.fits; nia). reflexivity.
Qed.

End TargetBasics.

Section TargetFacts.
Variables R C n : N.
Hypothesis n_pos : 1 <= n.
Hypothesis n_RC : n = R * C.

(** The targets for [C] rows undo the targets for [R] rows: this is the
    second transposition. *)
Lemma target_inverse j : j < n -> target C (n - 1) (target R (n - 1) j) = j.
Proof.
  intros Hj. destruct (N.eq_dec j (n - 1)) as [->|E].
  - rewrite target_last. unfold target. rewrite N.eqb_refl. reflexivity.
  - destruct (target_inner R n n_pos j) as [Ht Hlt]; [lia|].
    unfold target at 1. destruct (N.eqb_spec (target R (n - 1) j) (n - 1)); [lia|].
    rewrite Ht, N.Div0.mul_mod_idemp_r.
    replace (C * (R * j)) with (j + j * (n - 1)) by nia.
    rewrite N.Div0.mod_add. apply N.mod_small. lia.
Qed.

Lemma target_inj j k :
  j < n -> k < n -> target R (n - 1) j = target R (n - 1) k -> j = k.
Proof.
  intros Hj Hk E. rewrite <- (target_inverse j Hj), <- (target_inverse k Hk), E.
  reflexivity.
Qed.

(** The target of the flat index of [(r, c)] in an [R x C] matrix is the
    flat index of [(c, r)] in a [C x R] matrix. *)
Lemma target_position r c : r < R -> c < C -> target R (n - 1) (C * r + c) = R * c + r.
Proof.
  intros Hr Hc. unfold target.
  destruct (N.eqb_spec (C * r + c) (n - 1)) as [E|E].
  - nia.
  - replace (R * (C * r + c)) with ((R * c + r) + r * (n - 1)) by nia.
    rewrite N.Div0.mod_add. apply N.mod_small. nia.
Qed.

End TargetFacts.

(** Why the bound on [R * n]: for a column of [2^33] elements the product
    [Rows() * swap_idx] wraps at [swap_idx = 2^31 + 1], and the index that
    the loop computes is no longer the target. *)
Remark next_idx_wraps_beyond_bound :
  next_idx (2 ^ 33) (2 ^ 33 - 1) (2 ^ 31 + 1) = Ok 1 /\
  target (2 ^ 33) (2 ^ 33 - 1) (2 ^ 31 + 1) = 2 ^ 31 + 1.
Proof. split; vm_compute; reflexivity. Qed.

(** ** Transpose on matrices *)

Section TransposeFacts.
Context {T : Type} `{Scalar T}.
Implicit Types m A : Matrix T.

Local Notation "v @ j" := (v !! N.to_nat j) (at level 20).

Lemma Columns_resize (r : N) (v w : list T) :
  size v = size w -> Columns (mkMatrix r v) = Columns (mkMatrix r w).
Proof. intros Hs. unfold Columns. simpl. rewrite Hs. reflexivity. Qed.

(** [Transpose] returns, with any fuel from the buffer's length on: the row
    count becomes the column count, and the element that entered at [j] is
    at the target of [j]. *)
Lemma Transpose_fuel_run m (fuel : nat) :
  wf m -> SizeT.fits (Rows m * size (buffer_ m)) ->
  (length (buffer_ m) <= fuel)%nat ->
  exists b',
    Transpose_fuel fuel m = Ok (mkMatrix (Columns m) b') /\
    size b' = size (buffer_ m) /\
    (forall j, j < size (buffer_ m) ->
       b' @ target (Rows m) (size (buffer_ m) - 1) j = buffer_ m @ j).
Proof.
  intros (Hsz & Hpos & Hfit) Hmul Hfuel. destruct m as [r b].
  unfold Rows in *. simpl in *.
  destruct (decide (b = [])) as [->|Hne].
  { exists []. split; [reflexivity|]. split; [reflexivity|].
    intros j Hj. unfold size in Hj. simpl in Hj. lia. }
  assert (Hn : 1 <= size b).
  { unfold size. destruct b; [congruence | simpl; lia]. }
  unfold Transpose_fuel. cbn [buffer_ rows_ Rows].
  rewrite sub_small by (assumption || lia).
  destruct (loops_run b r (size b - 1) (target r (size b - 1)))
    with (fuel := fuel) as (b' & vis' & Hrun & Hb' & Hall).
  - intros j Hj. apply next_idx_target; assumption.
  - intros j Hj. apply target_lt; assumption.
  - intros j k. apply (target_inj r (Columns (mkMatrix r b)) (size b) Hn Hsz).
  - exact Hfuel.
  - apply target_zero. exact Hn.
  - exists b'. rewrite Hrun. cbn. split; [|split; assumption].
    f_equal. f_equal. apply Columns_resize. exact Hb'.
Qed.

Lemma Transpose_run m :
  wf m -> SizeT.fits (Rows m * size (buffer_ m)) ->
  exists b',
    Transpose m = Ok (mkMatrix (Columns m) b') /\
    size b' = size (buffer_ m) /\
    (forall j, j < size (buffer_ m) ->
       b' @ target (Rows m) (size (buffer_ m) - 1) j = buffer_ m @ j).
Proof. intros Hwf Hmul. apply Transpose_fuel_run; auto. Qed.

(** The targets determine the buffer, so more fuel changes nothing. *)
Lemma Transpose_fuel_enough m (fuel : nat) :
  wf m -> SizeT.fits (Rows m * size (buffer_ m)) ->
  (length (buffer_ m) <= fuel)%nat ->
  Transpose_fuel fuel m = Transpose m.
Proof.
  intros Hwf Hmul Hfuel.
  destruct (Transpose_fuel_run m fuel Hwf Hmul Hfuel) as (b1 & -> & Hb1 & Hall1).
  destruct (Transpose_run m Hwf Hmul) as (b2 & -> & Hb2 & Hall2).
  do 2 f_equal. apply vec_ext; [congruence|].
  intros i Hi. rewrite Hb1 in Hi.
  destruct Hwf as (Hsz & _).
  assert (Hn : 1 <= size (buffer_ m)) by lia.
  assert (Hsz' : size (buffer_ m) = Columns m * Rows m) by lia.
  pose proof (target_lt (Columns m) _ Hn i Hi) as Hlt.
  rewrite <- (target_inverse (Columns m) (Rows m) _ Hn Hsz' i Hi).
  rewrite Hall1, Hall2 by exact Hlt. reflexivity.
Qed.

Lemma transposed_shape (m : Matrix T) (b' : list T) :
  wf m -> size b' = size (buffer_ m) ->
  wf (mkMatrix (Columns m) b') /\
  Rows (mkMatrix (Columns m) b') = Columns m /\
  Columns (mkMatrix (Columns m) b') = Rows m.
Proof.
  intros (Hsz & Hpos & Hfit) Hb'.
  assert (Hcols : Columns (mkMatrix (Columns m) b') = Rows m).
  { unfold Columns at 1. simpl. rewrite Hb', Hsz.
    destruct (N.eqb_spec (Columns m) 0) as [E|E].
    - destruct (N.eq_dec (Rows m) 0) as [E0|E0]; [congruence|].
      assert (0 < Columns m) by (apply Hpos; lia). lia.
    - rewrite N.div_mul by exact E. reflexivity. }
  split; [|split; [reflexivity | exact Hcols]].
  unfold wf. rewrite Hcols. unfold Rows at 1 3. simpl. rewrite Hb'. split_and!.
  - lia.
  - intros Hc. destruct (N.eq_dec (Rows m) 0) as [E0|E0]; [|lia].
    unfold Columns, Rows in *. rewrite E0 in Hc. simpl in Hc. lia.
  - exact Hfit.
Qed.

(** X20. [Transpose] ends on every well-formed matrix whose product
    [Rows() * size] fits [size_t]. With [R] rows and a buffer of [N] elements at entry, the
    element that was at flat index [i], [0 < i < N - 1], is then at flat
    index [(R * i) mod (N - 1)]; indices [0] and [N - 1] keep their
    elements; the row count is the old column count, and the result is the
    transposed matrix: [(c, r)] holds what [(r, c)] held. Transposing
    [[a,b,c],[d,e,f]] gives [[a,d],[b,e],[c,f]]. *)
Theorem Transpose_cycle_following :
  (forall m,
     wf m -> SizeT.fits (Rows m * size (buffer_ m)) ->
     exists m',
       Transpose m = Ok m' /\
       Rows m' = Columns m /\ Columns m' = Rows m /\
       size (buffer_ m') = size (buffer_ m) /\
       (forall i, 0 < i < size (buffer_ m) - 1 ->
          buffer_ m' @ ((Rows m * i) mod (size (buffer_ m) - 1)) = buffer_ m @ i) /\
       buffer_ m' @ 0 = buffer_ m @ 0 /\
       buffer_ m' @ (size (buffer_ m) - 1) = buffer_ m @ (size (buffer_ m) - 1) /\
       (forall r c, r < Rows m -> c < Columns m -> elem m' c r = elem m r c)) /\
  (forall a b c d e f : T,
     exists m m',
       Matrix_of_rows [[a; b; c]; [d; e; f]] = Ok m /\
       Matrix_of_rows [[a; d]; [b; e]; [c; f]] = Ok m' /\
       Transpose m = Ok m').
Proof.
  split.
  - intros m Hwf Hmul.
    destruct (Transpose_run m Hwf Hmul) as (b' & Hrun & Hb' & Hall).
    destruct (transposed_shape m b' Hwf Hb') as (Hwf' & Hrows' & Hcols').
    exists (mkMatrix (Columns m) b'). split; [exact Hrun|].
    split; [exact Hrows'|]. split; [exact Hcols'|]. split; [exact Hb'|].
    pose proof Hwf as (Hsz & Hpos & Hfit).
    destruct (N.eq_dec (size (buffer_ m)) 0) as [E|E].
    { (* the empty matrix *)
      assert (Hnil : buffer_ m = [])
        by (unfold size in E; destruct (buffer_ m); [reflexivity | simpl in E; lia]).
      assert (Hnil' : b' = [])
        by (unfold size in Hb'; rewrite Hnil in Hb'; destruct b';
            [reflexivity | simpl in Hb'; lia]).
      assert (Hno : forall r c, r < Rows m -> c < Columns m -> False)
        by (intros r c Hr Hc; rewrite E in Hsz; nia).
      simpl. rewrite Hnil, Hnil'. split_and!; try reflexivity.
      intros r c Hr Hc. destruct (Hno r c Hr Hc). }
    assert (Hn : 1 <= size (buffer_ m)) by lia.
    simpl. split_and!.
    + intros i Hi. rewrite <- Hall by lia.
      destruct (target_inner (Rows m) (size (buffer_ m)) Hn i) as [-> _]; [lia|].
      reflexivity.
    + rewrite <- Hall by lia. rewrite target_zero by exact Hn. reflexivity.
    + rewrite <- Hall by lia. rewrite target_last. reflexivity.
    + intros r c Hr Hc.
      assert (Hin : Columns m * r + c < size (buffer_ m)) by nia.
      unfold SizeT.fits in *.
      rewrite (elem_in_range m r c), (flat_index_small m r c);
        try (rewrite flat_index_small); try (unfold SizeT.fits; lia).
      assert (Hflat : flat_index (mkMatrix (Columns m) b') c r = Rows m * c + r).
      { rewrite flat_index_small; rewrite Hcols'; [reflexivity|].
        unfold SizeT.fits. nia. }
      rewrite elem_in_range; rewrite Hflat; [|simpl; nia].
      unfold vget. simpl.
      rewrite <- (target_position (Rows m) (Columns m) (size (buffer_ m)) Hn Hsz r c Hr Hc).
      rewrite Hall by exact Hin. reflexivity.
  - intros a b c d e f. do 2 eexists.
    split; [vm_compute; reflexivity|]. split; vm_compute; reflexivity.
Qed.

(** X21. On a well-formed matrix whose products [Rows() * size] and
    [Columns() * size] fit [size_t], transposing twice gives the matrix
    back, row count and buffer, so no element is recomputed; [==] then
    holds as soon as every element is [==] to itself. *)
Theorem Transpose_involution A :
  wf A ->
  SizeT.fits (Rows A * size (buffer_ A)) ->
  SizeT.fits (Columns A * size (buffer_ A)) ->
  exists A',
    Transpose A = Ok A' /\ Transpose A' = Ok A /\
    (Forall (fun x => seqb x x = true) (buffer_ A) ->
     forall A'', Transpose A' = Ok A'' -> op_eq A'' A = true).
Proof.
  intros Hwf HR HC.
  destruct (Transpose_run A Hwf HR) as (b' & Hrun & Hb' & Hall).
  destruct (transposed_shape A b' Hwf Hb') as (Hwf' & Hrows' & Hcols').
  destruct (Transpose_run (mkMatrix (Columns A) b') Hwf') as (b'' & Hrun' & Hb'' & Hall').
  { rewrite Hrows'. simpl. rewrite Hb'. exact HC. }
  rewrite Hrows', Hcols' in *. simpl in Hb'', Hall'. rewrite Hb' in Hb'', Hall'.
  assert (Hback : mkMatrix (Rows A) b'' = A).
  { destruct A as [r a]. unfold Rows in *. simpl in *. f_equal.
    apply vec_ext; [exact Hb''|]. intros i Hi. rewrite Hb'' in Hi.
    destruct Hwf as (Hsz & _). simpl in Hsz.
    assert (Hn : 1 <= size a) by lia.
    pose proof (target_lt r (size a) Hn i Hi) as Hlt.
    rewrite <- (target_inverse r _ (size a) Hn Hsz i Hi) at 1.
    rewrite Hall' by exact Hlt. apply Hall. exact Hi. }
  rewrite Hback in Hrun'.
  exists (mkMatrix (Columns A) b'). split; [exact Hrun|]. split; [exact Hrun'|].
  intros Hrefl A'' HA''. rewrite Hrun' in HA''. injection HA'' as <-.
  apply op_eq_buffers. clear -Hrefl.
  induction Hrefl; constructor; assumption.
Qed.

End TransposeFacts.

(** The 2x3 matrix [[1,2,3],[4,5,6]] in [double]. *)
Lemma Transpose_cycle_following_witness :
  exists m' : Matrix float,
    Transpose (mkMatrix 2 [1; 2; 3; 4; 5; 6]%float) = Ok m' /\
    Rows m' = 3 /\ Columns m' = 2 /\
    size (buffer_ m') = 6 /\
    (forall i, 0 < i < 5 ->
       buffer_ m' !! N.to_nat ((2 * i) mod 5)
       = [1; 2; 3; 4; 5; 6]%float !! N.to_nat i) /\
    buffer_ m' !! N.to_nat 0 = Some 1%float /\
    buffer_ m' !! N.to_nat 5 = Some 6%float /\
    (forall r c, r < 2 -> c < 3 ->
       elem m' c r = elem (mkMatrix 2 [1; 2; 3; 4; 5; 6]%float) r c).
Proof.
  assert (Hwf : wf (mkMatrix 2 [1; 2; 3; 4; 5; 6]%float))
    by (repeat split; vm_compute; congruence).
  assert (Hfit : SizeT.fits (Rows (mkMatrix 2 [1; 2; 3; 4; 5; 6]%float)
                             * size (buffer_ (mkMatrix 2 [1; 2; 3; 4; 5; 6]%float))))
    by (vm_compute; reflexivity).
  exact (proj1 Transpose_cycle_following _ Hwf Hfit).
Defined.

Lemma Transpose_involution_witness :
  exists A' : Matrix float,
    Transpose (mkMatrix 2 [1; 2; 3; 4; 5; 6]%float) = Ok A' /\
    Transpose A' = Ok (mkMatrix 2 [1; 2; 3; 4; 5; 6]%float) /\
    (Forall (fun x => seqb x x = true) [1; 2; 3; 4; 5; 6]%float ->
     forall A'', Transpose A' = Ok A'' ->
                 op_eq A'' (mkMatrix 2 [1; 2; 3; 4; 5; 6]%float) = true).
Proof.
  assert (Hwf : wf (mkMatrix 2 [1; 2; 3; 4; 5; 6]%float))
    by (repeat split; vm_compute; congruence).
  apply (Transpose_involution (mkMatrix 2 [1; 2; 3; 4; 5; 6]%float) Hwf).
  - vm_compute; reflexivity.
  - vm_compute; reflexivity.
Defined.

(** ** The Wilkinson shift *)

Section WilkinsonFacts.
Context {T : Type} `{Scalar T}.
Variable Sign : T -> T.

Lemma two_by_two_size (M : Matrix T) :
  Rows M = 2 -> Columns M = 2 -> 4 <= size (buffer_ M).
Proof.
  unfold Rows, Columns. intros -> Hc.
  change (2 =? 0) with false in Hc. cbv iota in Hc.
  pose proof (N.Div0.mul_div_le (size (buffer_ M)) 2) as Hle.
  rewrite Hc in Hle. exact Hle.
Qed.

Lemma two_by_two_elem (M : Matrix T) r c :
  Rows M = 2 -> Columns M = 2 -> r < 2 -> c < 2 ->
  exists x, elem M r c = Ok x.
Proof.
  intros Hr Hc Hrow Hcol. pose proof (two_by_two_size M Hr Hc) as Hsz.
  assert (Hflat : flat_index M r c = 2 * r + c).
  { rewrite flat_index_small; rewrite Hc; [reflexivity|].
    unfold SizeT.fits, SizeT.modulus. simpl. lia. }
  rewrite elem_in_range by lia.
  destruct (lookup_N_is_Some (buffer_ M) (flat_index M r c)) as [x Hx]; [lia|].
  exists x. apply vget_Ok. exact Hx.
Qed.

Lemma GetWilkinsonShift_eval (M : Matrix T) m00 m01 m10 m11 :
  Rows M = 2 -> Columns M = 2 ->
  elem M 0 0 = Ok m00 -> elem M 0 1 = Ok m01 ->
  elem M 1 0 = Ok m10 -> elem M 1 1 = Ok m11 ->
  GetWilkinsonShift Sign M
  = assert (seqb m01 m10) (Ok (wilkinson_formula Sign m00 m01 m11)).
Proof.
  intros Hr Hc H00 H01 H10 H11. unfold GetWilkinsonShift.
  rewrite Hr, Hc, H01, H10. cbn. unfold assert.
  destruct (seqb m01 m10); [|reflexivity].
  rewrite H00, H11. reflexivity.
Qed.

(** C6. [GetWilkinsonShift] fails a contract exactly when its argument is
    not a 2x2 matrix with [M(0,1) == M(1,0)]; on such a matrix it returns a
    shift, so no assertion of the function or of the element accesses it
    makes fails, and no access leaves the buffer. *)
Theorem GetWilkinsonShift_contract (M : Matrix T) :
  (GetWilkinsonShift Sign M = ContractFailure <-> ~ symmetric_2x2 M) /\
  (symmetric_2x2 M -> exists shift, GetWilkinsonShift Sign M = Ok shift).
Proof.
  assert (Hok : symmetric_2x2 M -> exists shift, GetWilkinsonShift Sign M = Ok shift).
  { intros (Hr & Hc & a & b & H01 & H10 & Hab).
    destruct (two_by_two_elem M 0 0 Hr Hc) as [m00 H00]; [lia | lia |].
    destruct (two_by_two_elem M 1 1 Hr Hc) as [m11 H11]; [lia | lia |].
    rewrite (GetWilkinsonShift_eval M m00 a b m11) by assumption.
    rewrite Hab. eexists. reflexivity. }
  split; [|exact Hok]. split.
  - intros Hfail Hpre. destruct (Hok Hpre) as [shift Hs]. congruence.
  - intros Hnot. unfold GetWilkinsonShift, assert.
    destruct (N.eqb_spec (Rows M) 2) as [Hr|Hr]; [|reflexivity].
    destruct (N.eqb_spec (Columns M) 2) as [Hc|Hc]; [|reflexivity].
    destruct (two_by_two_elem M 0 1 Hr Hc) as [a H01]; [lia | lia |].
    destruct (two_by_two_elem M 1 0 Hr Hc) as [b H10]; [lia | lia |].
    rewrite H01, H10. cbn.
    destruct (seqb a b) eqn:Hab; [|reflexivity].
    exfalso. apply Hnot. unfold symmetric_2x2. eauto 10.
Qed.

End WilkinsonFacts.

(** C5. On a 2x2 matrix with [M(0,1) == M(1,0)] the shift is
    [M(1,1) - sign(d) * M(0,1) * M(0,1) / c] with [d = (M(0,0) - M(1,1)) / 2]
    and [c = |d| + sqrt (d * d + M(0,1) * M(0,1))], every operation in the
    scalar type; in [double], for any [Sign] with [Sign 0 = 0], the shift of
    [[2,1],[1,2]] is exactly 2. *)
Theorem GetWilkinsonShift_formula :
  (forall (T : Type) (ST : Scalar T) (Sign : T -> T) (M : Matrix T)
          (m00 m01 m10 m11 : T),
     Rows M = 2 -> Columns M = 2 ->
     elem M 0 0 = Ok m00 -> elem M 0 1 = Ok m01 ->
     elem M 1 0 = Ok m10 -> elem M 1 1 = Ok m11 ->
     seqb m01 m10 = true ->
     GetWilkinsonShift Sign M
     = Ok (let d := sdiv (ssub m00 m11) (of_Z 2) in
           let c := sadd (sabs d) (ssqrt (sadd (smul d d) (smul m01 m01))) in
           ssub m11 (sdiv (smul (smul (Sign d) m01) m01) c))) /\
  (forall Sign : float -> float,
     Sign 0%float = 0%float ->
     exists M,
       Matrix_of_rows [[2; 1]; [1; 2]]%float = Ok M /\
       GetWilkinsonShift Sign M = Ok 2%float).
Proof.
  split.
  - intros T ST Sign M m00 m01 m10 m11 Hr Hc H00 H01 H10 H11 Hsym.
    rewrite (GetWilkinsonShift_eval Sign M m00 m01 m10 m11) by assumption.
    rewrite Hsym. reflexivity.
  - intros Sign Hsign. eexists. split; [vm_compute; reflexivity|].
    rewrite (GetWilkinsonShift_eval Sign _ 2%float 1%float 1%float 2%float)
      by (vm_compute; reflexivity).
    unfold wilkinson_formula. cbn.
    change (PrimFloat.div (PrimFloat.sub 2 2) 2) with 0%float.
    rewrite Hsign. vm_compute. reflexivity.
Qed.

Lemma GetWilkinsonShift_formula_witness :
  GetWilkinsonShift SpecSign (mkMatrix 2 [4; 1; 1; 2]%float)
  = Ok (let d := sdiv (ssub 4 2) (of_Z 2) in
        let c := sadd (sabs d) (ssqrt (sadd (smul d d) (smul 1 1))) in
        ssub 2 (sdiv (smul (smul (SpecSign d) 1) 1) c))%float /\
  exists M,
    Matrix_of_rows [[2; 1]; [1; 2]]%float = Ok M /\
    GetWilkinsonShift SpecSign M = Ok 2%float.
Proof.
  split.
  - apply (proj1 GetWilkinsonShift_formula float _ SpecSign
             (mkMatrix 2 [4; 1; 1; 2]%float) 4%float 1%float 1%float 2%float);
      vm_compute; reflexivity.
  - apply (proj2 GetWilkinsonShift_formula SpecSign). vm_compute. reflexivity.
Defined.

Lemma GetWilkinsonShift_contract_witness :
  exists shift, GetWilkinsonShift SpecSign (mkMatrix 2 [2; 1; 1; 2]%float) = Ok shift.
Proof.
  apply (GetWilkinsonShift_contract SpecSign (mkMatrix 2 [2; 1; 1; 2]%float)).
  split; [reflexivity|]. split; [reflexivity|].
  exists 1%float, 1%float. repeat split; vm_compute; reflexivity.
Defined.

(** ** Counted loops *)

Lemma for_loop_ext {S : Type} (body body' : N -> S -> result S) :
  (forall i s, body i s = body' i s) ->
  forall k i s, for_loop k i body s = for_loop k i body' s.
Proof.
  intros Hbody. induction k as [|k IH]; intros i s; [reflexivity|].
  cbn [for_loop]. rewrite Hbody. apply bind_ext. intros s'. apply IH.
Qed.

Lemma iterations_first {S : Type} (step : S -> result S) (k : nat) (s : S) :
  iterations (Datatypes.S k) step s = step s ≫= iterations k step.
Proof.
  revert s. induction k as [|k IH]; intros s.
  - cbn. destruct (step s); reflexivity.
  - change (iterations (Datatypes.S (Datatypes.S k)) step s)
      with (iterations (Datatypes.S k) step s ≫= step).
    rewrite IH, bind_assoc. reflexivity.
Qed.

(** A counted loop whose body ignores the counter runs its body [k] times. *)
Lemma for_loop_iterations {S : Type} (step : S -> result S) (k : nat) (i : N) (s : S) :
  for_loop k i (fun _ => step) s = iterations k step s.
Proof.
  revert i s. induction k as [|k IH]; intros i s; [reflexivity|].
  rewrite iterations_first. cbn [for_loop]. apply bind_ext. intros s'. apply IH.
Qed.

(** A counted loop is its body at the indices [i], [i + 1], ... in turn. *)
Lemma foldl_bind {S : Type} (body : N -> S -> result S) (l : list nat) (r : result S) :
  foldl (fun acc j => acc ≫= body (N.of_nat j)) r l
  = r ≫= (fun s => foldl (fun acc j => acc ≫= body (N.of_nat j)) (Ok s) l).
Proof.
  revert r. induction l as [|j l IH]; intros r.
  - destruct r; reflexivity.
  - cbn [foldl]. rewrite IH, bind_assoc. apply bind_ext. intros s.
    rewrite (IH (Ok s ≫= body (N.of_nat j))). reflexivity.
Qed.

Lemma for_loop_foldl {S : Type} (body : N -> S -> result S) (k i : nat) (s : S) :
  for_loop k (N.of_nat i) body s
  = foldl (fun acc j => acc ≫= body (N.of_nat j)) (Ok s) (seq i k).
Proof.
  revert i s. induction k as [|k IH]; intros i s; [reflexivity|].
  cbn [for_loop seq foldl]. rewrite foldl_bind. cbn.
  apply bind_ext. intros s'.
  replace (N.succ (N.of_nat i)) with (N.of_nat (Datatypes.S i)) by lia.
  apply IH.
Qed.

(** ** The sweep of the bidiagonal iteration *)

Section SweepFacts.
Context {T : Type} `{Scalar T}.
Variable GivensLeftRotation : Matrix T -> N -> N -> T -> T -> result (Matrix T).
Variable GivensRightRotation : Matrix T -> N -> N -> T -> T -> result (Matrix T).

Lemma rotation_pair_code (shift : T) (i : N) (Sm : Matrix T) (f s : T) :
  rotation_pair shift i Sm = Ok (f, s) <->
  (if 0 <? i then elem Sm (SizeT.sub i 1) i
   else a ← elem Sm 0 0; b ← elem Sm 0 0; Ok (ssub (smul a b) shift)) = Ok f /\
  (if 0 <? i then elem Sm (SizeT.sub i 1) (SizeT.add i 1)
   else a ← elem Sm 0 1; b ← elem Sm 0 0; Ok (smul a b)) = Ok s.
Proof.
  unfold rotation_pair.
  destruct (N.eqb_spec i 0) as [->|Hi].
  - change (0 <? 0) with false. cbv iota.
    destruct (elem Sm 0 0) as [a| | |]; cbn;
      try (split; [discriminate | intros [? _]; discriminate]).
    destruct (elem Sm 0 1) as [b| | |]; cbn;
      try (split; [discriminate | intros [_ ?]; discriminate]).
    split.
    + intros [= <- <-]. split; reflexivity.
    + intros [[= <-] [= <-]]. reflexivity.
  - assert (Hpos : (0 <? i) = true) by (apply N.ltb_lt; lia). rewrite Hpos.
    destruct (elem Sm (SizeT.sub i 1) i) as [a| | |]; cbn;
      try (split; [discriminate | intros [? _]; discriminate]).
    destruct (elem Sm (SizeT.sub i 1) (SizeT.add i 1)) as [b| | |]; cbn;
      try (split; [discriminate | intros [_ ?]; discriminate]).
    split.
    + intros [= <- <-]. split; reflexivity.
    + intros [[= <-] [= <-]]. reflexivity.
Qed.

(** C3, as the code has it. The inner loop of a sweep runs step [i] for
    [i] from 0 to [size - 1] in turn. Step [i] returns [(U', S', VT')]
    exactly when, for some intermediate [S1]: if column [i+1] exists, [VT']
    is the left rotation of [VT] and [S1] the right rotation of [S], both
    with the rotation pair [(f, s)], else both are unchanged; and if row
    [i+1] exists in [S1], [U'] is the right rotation of [U] and [S'] the
    left rotation of [S1], both with [(S1(i,i), S1(i+1,i))], else both are
    unchanged. *)
Theorem sweep_body_rotations (shift : T) :
  (forall (sz : N) (st : Matrix T * Matrix T * Matrix T),
     for_loop (N.to_nat sz) 0
       (sweep_body GivensLeftRotation GivensRightRotation shift) st
     = foldl (fun acc i =>
                acc ≫= sweep_body GivensLeftRotation GivensRightRotation shift
                         (N.of_nat i))
         (Ok st) (seq 0 (N.to_nat sz))) /\
  (forall (i : N) (U Sm VT U' Sm' VT' : Matrix T),
     sweep_body GivensLeftRotation GivensRightRotation shift i (U, Sm, VT)
     = Ok (U', Sm', VT')
     <-> exists S1,
           column_step GivensLeftRotation GivensRightRotation shift i Sm VT S1 VT' /\
           row_step GivensLeftRotation GivensRightRotation i U S1 U' Sm').
Proof.
  split; [intros sz st; apply (for_loop_foldl _ (N.to_nat sz) 0%nat)|].
  intros i U Sm VT U' Sm' VT'.
  unfold sweep_body, column_step, row_step. split.
  - intros Hrun. apply bind_Ok in Hrun as ([S1 VT1] & Hcol & Hrow).
    exists S1. split.
    + destruct (SizeT.add i 1 <? Columns Sm).
      * apply bind_Ok in Hcol as (f & Hf & Hcol).
        apply bind_Ok in Hcol as (s & Hs & Hcol).
        apply bind_Ok in Hcol as (VT2 & HVT & Hcol).
        apply bind_Ok in Hcol as (S2 & HS & Hcol).
        injection Hcol as -> ->.
        assert (VT1 = VT').
        { destruct (SizeT.add i 1 <? Rows S1).
          - repeat (apply bind_Ok in Hrow as (? & _ & Hrow)). congruence.
          - congruence. }
        subst VT1. exists f, s. split; [|split; assumption].
        apply rotation_pair_code. split; assumption.
      * injection Hcol as <- <-.
        destruct (SizeT.add i 1 <? Rows Sm).
        -- repeat (apply bind_Ok in Hrow as (? & _ & Hrow)).
           split; congruence.
        -- split; congruence.
    + destruct (SizeT.add i 1 <? Rows S1).
      * apply bind_Ok in Hrow as (a & Ha & Hrow).
        apply bind_Ok in Hrow as (b & Hb & Hrow).
        apply bind_Ok in Hrow as (U1 & HU & Hrow).
        apply bind_Ok in Hrow as (a' & Ha' & Hrow).
        apply bind_Ok in Hrow as (b' & Hb' & Hrow).
        apply bind_Ok in Hrow as (S2 & HS & Hrow).
        injection Hrow as -> -> ->.
        assert (a' = a) by congruence. assert (b' = b) by congruence. subst.
        exists a, b. auto.
      * injection Hrow as -> -> ->. auto.
  - intros (S1 & Hcol & Hrow).
    assert (Hfirst :
      (if SizeT.add i 1 <? Columns Sm then
         f_elem ← (if 0 <? i then elem Sm (SizeT.sub i 1) i
                   else a ← elem Sm 0 0; b ← elem Sm 0 0;
                        Ok (ssub (smul a b) shift));
         s_elem ← (if 0 <? i then elem Sm (SizeT.sub i 1) (SizeT.add i 1)
                   else a ← elem Sm 0 1; b ← elem Sm 0 0; Ok (smul a b));
         VT0 ← GivensLeftRotation VT i (SizeT.add i 1) f_elem s_elem;
         S0 ← GivensRightRotation Sm i (SizeT.add i 1) f_elem s_elem;
         Ok (S0, VT0)
       else Ok (Sm, VT)) = Ok (S1, VT')).
    { destruct (SizeT.add i 1 <? Columns Sm).
      - destruct Hcol as (f & s & Hpair & HVT & HS).
        apply rotation_pair_code in Hpair as [Hf Hs].
        rewrite Hf. cbn. rewrite Hs. cbn. rewrite HVT. cbn. rewrite HS. reflexivity.
      - destruct Hcol as [-> ->]. reflexivity. }
    rewrite Hfirst. cbn.
    destruct (SizeT.add i 1 <? Rows S1).
    + destruct Hrow as (a & b & Ha & Hb & HU & HS).
      rewrite Ha. cbn. rewrite Hb. cbn. rewrite HU. cbn. rewrite HS. reflexivity.
    + destruct Hrow as [-> ->]. reflexivity.
Qed.

End SweepFacts.

(** Step 0 of the example sweep, taken apart into its two steps. *)
Lemma sweep_body_rotations_witness :
  exists S1,
    column_step SpecGivensLeft SpecGivensRight 0%float 0
      (mkMatrix 2 [1; 1; 0; 1]%float) (mkMatrix 2 [1; 0; 0; 1]%float)
      S1 (snd sweep_example) /\
    row_step SpecGivensLeft SpecGivensRight 0
      (mkMatrix 2 [1; 0; 0; 1]%float) S1
      (fst (fst sweep_example)) (snd (fst sweep_example)).
Proof.
  apply (proj2 (sweep_body_rotations SpecGivensLeft SpecGivensRight 0%float) 0
           (mkMatrix 2 [1; 0; 0; 1]%float) (mkMatrix 2 [1; 1; 0; 1]%float)
           (mkMatrix 2 [1; 0; 0; 1]%float)).
  vm_compute. reflexivity.
Defined.

(** C3 as stated fails. On [S = [[1,1],[0,1]]] with [U = VT = I] and shift 0,
    step 0 of the sweep rotates [VT] by rows and [U] by columns; the wording
    of the claim rotates [VT] by columns and [U] by rows, which gives the
    transposed factors. The rotations are those of the spec's contract, in
    [double]. *)
Lemma sweep_body_not_as_claimed :
  exists U1 S1 VT1 U2 S2 VT2 : Matrix float,
    sweep_body SpecGivensLeft SpecGivensRight 0%float 0
      (mkMatrix 2 [1; 0; 0; 1]%float, mkMatrix 2 [1; 1; 0; 1]%float,
       mkMatrix 2 [1; 0; 0; 1]%float) = Ok (U1, S1, VT1) /\
    claimed_sweep_body SpecGivensLeft SpecGivensRight 0%float 0
      (mkMatrix 2 [1; 0; 0; 1]%float, mkMatrix 2 [1; 1; 0; 1]%float,
       mkMatrix 2 [1; 0; 0; 1]%float) = Ok (U2, S2, VT2) /\
    SpecGivensLeft (mkMatrix 2 [1; 0; 0; 1]%float) 0 1 1%float 1%float = Ok VT1 /\
    SpecGivensRight (mkMatrix 2 [1; 0; 0; 1]%float) 0 1 1%float 1%float = Ok VT2 /\
    op_eq S1 S2 = true /\
    op_eq VT1 VT2 = false /\
    op_eq U1 U2 = false.
Proof.
  do 6 eexists.
  split; [vm_compute; reflexivity|].
  split; [vm_compute; reflexivity|].
  repeat split; vm_compute; reflexivity.
Qed.

(** Why the code rotates [VT] by rows and [U] by columns: after step 0 of
    the example sweep [U * S * VT] is the input [[1,1],[0,1]] up to
    rounding, each entry within [2^-50]; with the factors of the claim's
    wording the product has an entry more than [1/2] away. *)
Example sweep_example_reconstructs :
  exists P P' U2 S2 VT2 : Matrix float,
    (US ← op_mul (fst (fst sweep_example)) (snd (fst sweep_example));
     op_mul US (snd sweep_example)) = Ok P /\
    forallb (fun pb => PrimFloat.ltb (PrimFloat.abs (fst pb - snd pb)) 0x1p-50)
      (zip (buffer_ P) [1; 1; 0; 1])%float = true /\
    claimed_sweep_body SpecGivensLeft SpecGivensRight 0%float 0
      (mkMatrix 2 [1; 0; 0; 1]%float, mkMatrix 2 [1; 1; 0; 1]%float,
       mkMatrix 2 [1; 0; 0; 1]%float) = Ok (U2, S2, VT2) /\
    (US ← op_mul U2 S2; op_mul US VT2) = Ok P' /\
    existsb (fun pb => PrimFloat.ltb 0.5 (PrimFloat.abs (fst pb - snd pb)))
      (zip (buffer_ P') [1; 1; 0; 1])%float = true.
Proof.
  do 5 eexists.
  split; [vm_compute; reflexivity|]. split; [vm_compute; reflexivity|].
  split; [vm_compute; reflexivity|]. split; vm_compute; reflexivity.
Qed.

(** ** Shapes: every operation of the iteration returns *)

Lemma for_loop_invariant {S : Type} (P : S -> Prop) (body : N -> S -> result S)
    (k : nat) (i0 : N) :
  (forall i s, i0 <= i < i0 + N.of_nat k -> P s -> exists s', body i s = Ok s' /\ P s') ->
  forall s, P s -> exists s', for_loop k i0 body s = Ok s' /\ P s'.
Proof.
  revert i0. induction k as [|k IH]; intros i0 Hbody s Hs.
  - exists s. split; [reflexivity | exact Hs].
  - destruct (Hbody i0 s) as (s1 & Hrun & Hs1); [lia | exact Hs |].
    cbn [for_loop]. rewrite Hrun. cbn.
    apply IH; [|exact Hs1]. intros i s2 Hi. apply Hbody. lia.
Qed.

Section ShapeFacts.
Context {T : Type} `{Scalar T}.
Implicit Types m lhs rhs : Matrix T.

Lemma shaped_flat_index r c m i j :
  shaped r c m -> i < r -> j < c ->
  flat_index m i j = c * i + j /\ flat_index m i j < size (buffer_ m).
Proof.
  intros ((Hsz & _ & Hfit) & Hr & Hc) Hi Hj. unfold SizeT.fits in Hfit.
  rewrite Hr, Hc in Hsz.
  rewrite flat_index_small; rewrite Hc; [split; [reflexivity | nia]|].
  unfold SizeT.fits. nia.
Qed.

Lemma shaped_elem r c m i j :
  shaped r c m -> i < r -> j < c ->
  exists x, elem m i j = Ok x /\ buffer_ m !! N.to_nat (c * i + j) = Some x.
Proof.
  intros Hm Hi Hj. destruct (shaped_flat_index r c m i j Hm Hi Hj) as [Hflat Hlt].
  rewrite elem_in_range by exact Hlt.
  destruct (lookup_N_is_Some _ _ Hlt) as [x Hx]. exists x.
  split; [apply vget_Ok; exact Hx | rewrite <- Hflat; exact Hx].
Qed.

Lemma shaped_resize r c m (b : list T) :
  shaped r c m -> size b = size (buffer_ m) -> shaped r c (mkMatrix (rows_ m) b).
Proof.
  intros ((Hsz & Hpos & Hfit) & Hr & Hc) Hb.
  assert (HC : Columns (mkMatrix (rows_ m) b) = Columns m).
  { destruct m as [rm bm]. apply Columns_resize. exact Hb. }
  unfold shaped, wf. rewrite HC. unfold Rows in *. simpl. rewrite Hb. auto.
Qed.

Lemma shaped_set_elem r c m i j x :
  shaped r c m -> i < r -> j < c ->
  exists m',
    set_elem m i j x = Ok m' /\ shaped r c m' /\
    buffer_ m' = <[N.to_nat (c * i + j) := x]> (buffer_ m).
Proof.
  intros Hm Hi Hj. destruct (shaped_flat_index r c m i j Hm Hi Hj) as [Hflat Hlt].
  unfold set_elem, assert. apply N.ltb_lt in Hlt as Hltb. rewrite Hltb.
  rewrite vset_lt by exact Hlt. cbn. eexists. split; [reflexivity|].
  split; [|simpl; rewrite Hflat; reflexivity].
  apply shaped_resize; [exact Hm | apply size_insert].
Qed.

Lemma shaped_length r c m m' :
  shaped r c m -> shaped r c m' -> length (buffer_ m) = length (buffer_ m').
Proof.
  intros (Hwf & Hr & Hc) (Hwf' & Hr' & Hc').
  apply same_shape_length; congruence.
 Qed.

Lemma shaped_op_add r c lhs rhs :
  shaped r c lhs -> shaped r c rhs ->
  exists m, op_add lhs rhs = Ok m /\ shaped r c m.
Proof.
  intros Hl Hr. pose proof (shaped_length r c lhs rhs Hl Hr) as Hlen.
  pose proof Hl as (_ & Hlr & Hlc). pose proof Hr as (_ & Hrr & Hrc).
  rewrite op_add_zip by congruence. eexists. split; [reflexivity|].
  apply shaped_resize; [exact Hl|]. unfold size. rewrite length_zip_with. lia.
Qed.

Lemma shaped_op_sub r c lhs rhs :
  shaped r c lhs -> shaped r c rhs ->
  exists m, op_sub lhs rhs = Ok m /\ shaped r c m.
Proof.
  intros Hl Hr. pose proof (shaped_length r c lhs rhs Hl Hr) as Hlen.
  pose proof Hl as (_ & Hlr & Hlc). pose proof Hr as (_ & Hrr & Hrc).
  rewrite op_sub_zip by congruence. eexists. split; [reflexivity|].
  apply shaped_resize; [exact Hl|]. unfold size. rewrite length_zip_with. lia.
Qed.

Lemma shaped_Matrix_fill r c (value : T) :
  0 < r -> 0 < c -> SizeT.fits (r * c) ->
  Matrix_fill r c value = Ok (mkMatrix r (replicate (N.to_nat (r * c)) value)) /\
  shaped r c (mkMatrix r (replicate (N.to_nat (r * c)) value)).
Proof.
  intros Hr Hc Hfit. unfold SizeT.fits in Hfit.
  assert (Hsize : size (replicate (N.to_nat (r * c)) value) = r * c)
    by (unfold size; rewrite length_replicate; lia).
  assert (HC : Columns (mkMatrix r (replicate (N.to_nat (r * c)) value)) = c).
  { unfold Columns. simpl. rewrite Hsize.
    destruct (N.eqb_spec r 0); [lia|]. rewrite N.mul_comm. apply N.div_mul. lia. }
  split.
  - unfold Matrix_fill, assert. rewrite mul_small by exact Hfit.
    rewrite HC. unfold Rows. simpl.
    apply N.ltb_lt in Hr as ->. apply N.ltb_lt in Hc as ->. reflexivity.
  - unfold shaped, wf. rewrite HC. unfold Rows, SizeT.fits. simpl. rewrite Hsize.
    split_and!; auto.
Qed.

(** [operator*] on an [r x k] and a [k x c] matrix returns an [r x c] matrix. *)
Lemma shaped_op_mul r k c lhs rhs :
  0 < r -> 0 < c -> SizeT.fits (r * c) ->
  shaped r k lhs -> shaped k c rhs ->
  exists m, op_mul lhs rhs = Ok m /\ shaped r c m.
Proof.
  intros Hr Hc Hfit Hl Hrh.
  pose proof Hl as (_ & Hlr & Hlc). pose proof Hrh as (_ & Hrr & Hrc).
  unfold op_mul, assert. rewrite Hlc, Hrr, N.eqb_refl, Hlr, Hrc.
  destruct (shaped_Matrix_fill r c (of_Z 0) Hr Hc Hfit) as [-> Hres]. cbn.
  apply (for_loop_invariant (shaped r c)); [|exact Hres].
  intros i res Hi Hshape.
  apply (for_loop_invariant (shaped r c)); [|exact Hshape].
  intros j res' Hj Hshape'.
  destruct (for_loop_invariant (fun _ : T => True)
              (fun kk sum => a ← elem lhs i kk; b ← elem rhs kk j;
                             Ok (sadd sum (smul a b)))
              (N.to_nat k) 0) with (s := of_Z 0) as (sum & Hsum & _).
  - intros kk acc Hkk _.
    destruct (shaped_elem r k lhs i kk Hl) as (a & Ha & _); [lia | lia |].
    destruct (shaped_elem k c rhs kk j Hrh) as (b & Hb & _); [lia | lia |].
    rewrite Ha. cbn. rewrite Hb. cbn. eauto.
  - exact I.
  - rewrite Hsum. cbn.
    destruct (shaped_set_elem r c res' i j sum Hshape') as (m' & Hset & Hm' & _);
      [lia | lia |].
    exists m'. split; assumption.
Qed.

End ShapeFacts.

(** ** The identity and [shift * I] *)

Section IdentityFacts.
Context {T : Type} `{Scalar T}.

Local Notation "v @ j" := (v !! N.to_nat j) (at level 20).

Lemma diag_fill_spec (n : N) (diag : list T) :
  forall idx (m : Matrix T),
    shaped n n m -> idx + size diag <= n ->
    exists m',
      diag_fill diag idx m = Ok m' /\ shaped n n m' /\
      forall i j, i < n -> j < n ->
        buffer_ m' @ (n * i + j)
        = match (if (i =? j) && (idx <=? i) then diag @ (i - idx) else None) with
          | Some v => Some v
          | None => buffer_ m @ (n * i + j)
          end.
Proof.
  induction diag as [|x rest IH]; intros idx m Hm Hidx.
  - exists m. split; [reflexivity|]. split; [exact Hm|].
    intros i j _ _. destruct ((i =? j) && (idx <=? i)); reflexivity.
  - assert (Hsize : size (x :: rest) = N.succ (size rest))
      by (unfold size; simpl; lia).
    rewrite Hsize in Hidx.
    destruct (shaped_set_elem n n m idx idx x Hm) as (m1 & Hset & Hm1 & Hbuf1);
      [lia | lia |].
    destruct (IH (N.succ idx) m1 Hm1) as (m' & Hrun & Hm' & Hspec); [lia|].
    exists m'. cbn [diag_fill]. rewrite Hset. cbn. split; [exact Hrun|].
    split; [exact Hm'|]. intros i j Hi Hj. rewrite (Hspec i j Hi Hj), Hbuf1.
    destruct (shaped_flat_index n n m idx idx Hm) as [_ Hlt]; [lia | lia |].
    destruct (N.eqb_spec i j) as [<-|Hij]; cbn [andb].
    + destruct (N.leb_spec idx i) as [Hle|Hgt].
      * destruct (N.eq_dec i idx) as [->|Hne].
        -- destruct (N.leb_spec (N.succ idx) idx); [lia|].
           rewrite N.sub_diag. cbn.
           rewrite lookup_N_insert_eq; [reflexivity|].
           destruct Hm as ((Hsz & _) & Hr & Hc). rewrite Hsz, Hr, Hc. nia.
        -- destruct (N.leb_spec (N.succ idx) i); [|lia].
           replace (N.to_nat (i - idx)) with (S (N.to_nat (i - N.succ idx))) by lia.
           cbn. rewrite lookup_N_insert_ne by nia. reflexivity.
      * destruct (N.leb_spec (N.succ idx) i); [lia|].
        rewrite lookup_N_insert_ne by nia. reflexivity.
    + rewrite lookup_N_insert_ne; [reflexivity|].
      intros E. apply N.div_mod_unique in E; [|lia|lia]. lia.
Qed.

(** [Identity(n, v)] is the [n x n] matrix with [v] on the diagonal and
    zero elsewhere. *)
Lemma Identity_spec (sz : N) (v : T) :
  0 < sz -> SizeT.fits (sz * sz) ->
  exists M,
    Identity sz v = Ok M /\ shaped sz sz M /\
    forall i j, i < sz -> j < sz ->
      elem M i j = Ok (if i =? j then v else of_Z 0).
Proof.
  intros Hpos Hfit. unfold Identity, Matrix_diag, assert.
  assert (Hsize : size (replicate (N.to_nat sz) v) = sz)
    by (unfold size; rewrite length_replicate; lia).
  rewrite Hsize, mul_small by exact Hfit. unfold Rows at 1. cbn [rows_].
  apply N.ltb_lt in Hpos as Hposb. rewrite Hposb.
  destruct (shaped_Matrix_fill sz sz (of_Z 0) Hpos Hpos Hfit) as [_ Hm0].
  destruct (diag_fill_spec sz (replicate (N.to_nat sz) v) 0 _ Hm0)
    as (M & Hrun & HM & Hspec); [lia|].
  exists M. split; [exact Hrun|]. split; [exact HM|].
  intros i j Hi Hj.
  destruct (shaped_elem sz sz M i j HM Hi Hj) as (x & Hx & Hlook).
  rewrite Hx. f_equal. rewrite (Hspec i j Hi Hj) in Hlook. cbn [buffer_] in Hlook.
  destruct (N.eqb_spec i j) as [<-|Hij]; cbn [andb] in Hlook.
  - rewrite N.sub_0_r in Hlook.
    rewrite (proj2 (N.leb_le 0 i) (N.le_0_l i)) in Hlook.
    rewrite lookup_replicate_2 in Hlook by lia. congruence.
  - rewrite lookup_replicate_2 in Hlook by (unfold SizeT.fits in Hfit; nia).
    congruence.
Qed.

End IdentityFacts.

(** ** The shifted QR iteration *)

Section SpectralFacts.
Context {T : Type} `{Scalar T}.
Variable HouseholderQR : Matrix T -> result (Matrix T * Matrix T).
Variable RoundZeroes : Matrix T -> result (Matrix T).
Variable IsHermitian : Matrix T -> bool.

Lemma spec_iteration_worded (shift_I : Matrix T) (st : Matrix T * Matrix T) :
  spec_iteration HouseholderQR RoundZeroes shift_I st
  = qr_iteration HouseholderQR RoundZeroes shift_I st.
Proof.
  destruct st as [D transform]. unfold spec_iteration, qr_iteration, op_mul_assign.
  cbn [fst snd]. apply bind_ext. intros shifted.
  destruct (HouseholderQR shifted) as [[Q R]| | |]; reflexivity.
Qed.

Lemma qr_iteration_returns (n : N) (shift_I D transform : Matrix T) :
  0 < n -> SizeT.fits (n * n) ->
  factors_square HouseholderQR n -> rounding_keeps_shape RoundZeroes n ->
  shaped n n shift_I -> shaped n n D -> shaped n n transform ->
  exists D' transform',
    qr_iteration HouseholderQR RoundZeroes shift_I (D, transform)
    = Ok (D', transform') /\
    shaped n n D' /\ shaped n n transform'.
Proof.
  intros Hn Hfit Hqr Hround HsI HD Ht. unfold qr_iteration. cbn [fst snd].
  destruct (shaped_op_sub n n D shift_I HD HsI) as (shifted & -> & Hshifted). cbn.
  destruct (Hqr shifted Hshifted) as (Q & R & -> & HQ & HR). cbn.
  destruct (shaped_op_mul n n n R Q Hn Hn Hfit HR HQ) as (RQ & -> & HRQ). cbn.
  destruct (shaped_op_add n n RQ shift_I HRQ HsI) as (D1 & -> & HD1). cbn.
  destruct (shaped_op_mul n n n transform Q Hn Hn Hfit Ht HQ) as (t1 & -> & Ht1). cbn.
  destruct (Hround D1 HD1) as (D2 & -> & HD2). cbn.
  exists D2, t1. auto.
Qed.

Lemma iterations_return (n : N) (shift_I : Matrix T) (k : nat) :
  0 < n -> SizeT.fits (n * n) ->
  factors_square HouseholderQR n -> rounding_keeps_shape RoundZeroes n -> shaped n n shift_I ->
  forall D transform,
    shaped n n D -> shaped n n transform ->
    exists D' transform',
      iterations k (qr_iteration HouseholderQR RoundZeroes shift_I) (D, transform)
      = Ok (D', transform') /\
      shaped n n D' /\ shaped n n transform'.
Proof.
  intros Hn Hfit Hqr Hround HsI D transform HD Ht.
  induction k as [|k (D1 & t1 & Hrun & HD1 & Ht1)].
  - exists D, transform. auto.
  - cbn [iterations]. rewrite Hrun. cbn.
    apply (qr_iteration_returns n); assumption.
Qed.

(** The loop of [GetRealSpecDecomposition] is a counted loop: after the
    Hermitian check and the two identities the iteration runs exactly
    [it_cnt] times, whatever the iterates are. On an [n x n] argument, with
    collaborators that keep their contracts, every operation succeeds. *)
Lemma GetRealSpecDecomposition_counted_loop (matrix : Matrix T) (shift : T)
    (it_cnt : N) :
  GetRealSpecDecomposition HouseholderQR RoundZeroes IsHermitian matrix shift it_cnt
  = assert (IsHermitian matrix)
      (shift_I ← Identity (Rows matrix) shift;
       one ← Identity (Rows matrix) (of_Z 1);
       st ← iterations (N.to_nat it_cnt)
              (qr_iteration HouseholderQR RoundZeroes shift_I) (matrix, one);
       Ok (mkSpectralPair (fst st) (snd st))) /\
  (forall n,
     0 < n -> SizeT.fits (n * n) -> shaped n n matrix ->
     IsHermitian matrix = true ->
     factors_square HouseholderQR n -> rounding_keeps_shape RoundZeroes n ->
     exists shift_I one D transform,
       Identity n shift = Ok shift_I /\ Identity n (of_Z 1) = Ok one /\
       (forall i j, i < n -> j < n ->
          elem shift_I i j = Ok (if i =? j then shift else of_Z 0)) /\
       iterations (N.to_nat it_cnt)
         (qr_iteration HouseholderQR RoundZeroes shift_I) (matrix, one)
       = Ok (D, transform) /\
       GetRealSpecDecomposition HouseholderQR RoundZeroes IsHermitian
         matrix shift it_cnt = Ok (mkSpectralPair D transform) /\
       shaped n n D /\ shaped n n transform).
Proof.
  assert (Heq :
    GetRealSpecDecomposition HouseholderQR RoundZeroes IsHermitian matrix shift it_cnt
    = assert (IsHermitian matrix)
        (shift_I ← Identity (Rows matrix) shift;
         one ← Identity (Rows matrix) (of_Z 1);
         st ← iterations (N.to_nat it_cnt)
                (qr_iteration HouseholderQR RoundZeroes shift_I) (matrix, one);
         Ok (mkSpectralPair (fst st) (snd st)))).
  { unfold GetRealSpecDecomposition, Copy. f_equal.
    apply bind_ext. intros shift_I. apply bind_ext. intros one.
    rewrite (for_loop_ext _ (fun _ => qr_iteration HouseholderQR RoundZeroes shift_I))
      by (intros i st; apply spec_iteration_worded).
    rewrite for_loop_iterations.
    destruct (iterations _ _ _) as [[D transform]| | |]; reflexivity. }
  split; [exact Heq|].
  intros n Hn Hfit Hm Hherm Hqr Hround.
  destruct (Identity_spec n shift Hn Hfit) as (shift_I & HsI & HsIshape & HsIelem).
  destruct (Identity_spec n (of_Z 1) Hn Hfit) as (one & Hone & Honeshape & _).
  destruct (iterations_return n shift_I (N.to_nat it_cnt) Hn Hfit Hqr Hround
              HsIshape matrix one Hm Honeshape) as (D & transform & Hrun & HD & Ht).
  exists shift_I, one, D, transform.
  split; [exact HsI|]. split; [exact Hone|]. split; [exact HsIelem|].
  split; [exact Hrun|]. split; [|split; assumption].
  rewrite Heq, Hherm. destruct Hm as (_ & -> & _).
  unfold assert. rewrite HsI. cbn. rewrite Hone. cbn. rewrite Hrun. reflexivity.
Qed.

End SpectralFacts.

(** The spec's fixed point: with the factorization [Q = I], [R = D] of a
    diagonal matrix, a hundred iterations leave [[5,0],[0,3]] and the
    identity as they are. *)
Example diagonal_fixed_point :
  GetRealSpecDecomposition
    (fun A => one ← Identity (Rows A) 1%float; Ok (one, A))
    Ok (fun _ => true)
    (mkMatrix 2 [5; 0; 0; 3]%float) 0%float 100
  = Ok (mkSpectralPair (mkMatrix 2 [5; 0; 0; 3]%float)
          (mkMatrix 2 [1; 0; 0; 1]%float)).
Proof. vm_compute. reflexivity. Qed.


(** * More of the container *)

(** ** Loops with an invariant that follows the counter *)

Lemma for_loop_indexed {S : Type} (P : N -> S -> Prop) (body : N -> S -> result S)
    (k : nat) (i0 : N) :
  (forall i s, i0 <= i < i0 + N.of_nat k -> P i s ->
     exists s', body i s = Ok s' /\ P (N.succ i) s') ->
  forall s, P i0 s ->
    exists s', for_loop k i0 body s = Ok s' /\ P (i0 + N.of_nat k) s'.
Proof.
  revert i0. induction k as [|k IH]; intros i0 Hbody s Hs.
  - exists s. split; [reflexivity|]. rewrite N.add_0_r. exact Hs.
  - destruct (Hbody i0 s) as (s1 & Hrun & Hs1); [lia | exact Hs |].
    cbn [for_loop]. rewrite Hrun. cbn.
    destruct (IH (N.succ i0)) with (s := s1) as (s2 & Hrun2 & Hs2).
    + intros i s' Hi. apply Hbody. lia.
    + exact Hs1.
    + exists s2. split; [exact Hrun2|].
      replace (i0 + N.of_nat (Datatypes.S k)) with (N.succ i0 + N.of_nat k) by lia.
      exact Hs2.
Qed.

(** ** Reading and writing one element *)

Section ElementFacts.
Context {T : Type} `{Scalar T}.
Implicit Types m : Matrix T.

Local Notation "v @ j" := (v !! N.to_nat j) (at level 20).

Lemma shaped_elem_lookup r c m i j x :
  shaped r c m -> i < r -> j < c ->
  elem m i j = Ok x <-> buffer_ m @ (c * i + j) = Some x.
Proof.
  intros Hm Hi Hj. destruct (shaped_flat_index r c m i j Hm Hi Hj) as [Hflat Hlt].
  rewrite elem_in_range by exact Hlt. rewrite Hflat. apply vget_Ok.
Qed.

Lemma shaped_size r c m : shaped r c m -> size (buffer_ m) = r * c.
Proof. intros ((Hsz & _) & <- & <-). exact Hsz. Qed.

Lemma shaped_set_get r c m i j x :
  shaped r c m -> i < r -> j < c ->
  exists m',
    set_elem m i j x = Ok m' /\ shaped r c m' /\
    elem m' i j = Ok x /\
    (forall i' j', i' < r -> j' < c -> (i', j') <> (i, j) ->
       elem m' i' j' = elem m i' j').
Proof.
  intros Hm Hi Hj.
  destruct (shaped_set_elem r c m i j x Hm Hi Hj) as (m' & Hset & Hm' & Hbuf).
  pose proof (shaped_size r c m Hm) as Hsz.
  exists m'. split; [exact Hset|]. split; [exact Hm'|]. split.
  - apply (shaped_elem_lookup r c m' i j x Hm' Hi Hj). rewrite Hbuf.
    apply lookup_N_insert_eq. nia.
  - intros i' j' Hi' Hj' Hne.
    destruct (shaped_elem r c m i' j' Hm Hi' Hj') as (y & Hy & Hlook).
    rewrite Hy. apply (shaped_elem_lookup r c m' i' j' y Hm' Hi' Hj').
    rewrite Hbuf, lookup_N_insert_ne; [exact Hlook|].
    intros E. apply N.div_mod_unique in E; [|lia|lia].
    destruct E as [-> ->]. congruence.
Qed.

End ElementFacts.

(** ** The constructors *)

Section ConstructorRest.
Context {T : Type} `{Scalar T}.

Local Notation "v @ j" := (v !! N.to_nat j) (at level 20).

Lemma Matrix_fill_elem (r c : N) (value : T) i j :
  0 < r -> 0 < c -> SizeT.fits (r * c) -> i < r -> j < c ->
  elem (mkMatrix r (replicate (N.to_nat (r * c)) value)) i j = Ok value.
Proof.
  intros Hr Hc Hfit Hi Hj.
  destruct (shaped_Matrix_fill r c value Hr Hc Hfit) as [_ Hm].
  apply (shaped_elem_lookup r c _ i j value Hm Hi Hj). cbn [buffer_].
  apply lookup_replicate_2. nia.
Qed.

(** X1. [Matrix(row_cnt, col_cnt, value)], when [row_cnt * col_cnt] fits
    [size_t]: the call fails its contract exactly when a count is zero;
    otherwise it returns a well-formed [row_cnt x col_cnt] matrix that holds
    [value] at every position. *)
Theorem Matrix_fill_spec (row_cnt col_cnt : N) (value : T) :
  SizeT.fits (row_cnt * col_cnt) ->
  (Matrix_fill row_cnt col_cnt value = ContractFailure <->
   row_cnt = 0 \/ col_cnt = 0) /\
  (0 < row_cnt -> 0 < col_cnt ->
   exists m,
     Matrix_fill row_cnt col_cnt value = Ok m /\
     shaped row_cnt col_cnt m /\
     forall i j, i < row_cnt -> j < col_cnt -> elem m i j = Ok value).
Proof.
  intros Hfit.
  assert (Hok : 0 < row_cnt -> 0 < col_cnt ->
    exists m,
      Matrix_fill row_cnt col_cnt value = Ok m /\
      shaped row_cnt col_cnt m /\
      forall i j, i < row_cnt -> j < col_cnt -> elem m i j = Ok value).
  { intros Hr Hc.
    destruct (shaped_Matrix_fill row_cnt col_cnt value Hr Hc Hfit) as [Hrun Hm].
    eexists. split; [exact Hrun|]. split; [exact Hm|].
    intros i j Hi Hj. apply Matrix_fill_elem; assumption. }
  split; [|exact Hok]. split.
  - intros Hfail.
    destruct (N.eq_dec row_cnt 0) as [?|Hr]; [left; assumption|].
    destruct (N.eq_dec col_cnt 0) as [?|Hc]; [right; assumption|].
    destruct Hok as (m & Hrun & _); [lia | lia | congruence].
  - intros [-> | ->].
    + reflexivity.
    + unfold Matrix_fill, assert. unfold Rows, Columns. cbn [rows_ buffer_].
      destruct (0 <? row_cnt) eqn:Hr; [|reflexivity].
      apply N.ltb_lt in Hr.
      rewrite N.mul_0_r in *. unfold SizeT.mul. rewrite N.mul_0_r.
      destruct (N.eqb_spec row_cnt 0); reflexivity.
Qed.

(** X2. [Matrix(sq_size)]: zero fails the contract; a size whose square fits
    [size_t] gives a well-formed square matrix of zeros. The constructor
    asserts on the row count only: when [sq_size * sq_size] wraps to zero
    it returns a matrix with [sq_size] rows and an empty buffer, which
    breaks the invariant of the data model. *)
Theorem Matrix_square_spec :
  Matrix_square (T := T) 0 = ContractFailure /\
  (forall sq_size,
     0 < sq_size -> SizeT.fits (sq_size * sq_size) ->
     exists m,
       Matrix_square sq_size = Ok m /\ shaped sq_size sq_size m /\
       forall i j, i < sq_size -> j < sq_size -> elem m i j = Ok (of_Z 0)) /\
  (forall sq_size,
     0 < sq_size -> SizeT.mul sq_size sq_size = 0 ->
     Matrix_square (T := T) sq_size = Ok (mkMatrix sq_size []) /\
     ~ wf (mkMatrix (T := T) sq_size [])).
Proof.
  split; [reflexivity|]. split.
  - intros n Hn Hfit.
    destruct (shaped_Matrix_fill n n (of_Z 0) Hn Hn Hfit) as [_ Hm].
    eexists. split; [|split; [exact Hm|]].
    + unfold Matrix_square, assert. rewrite mul_small by exact Hfit.
      unfold Rows. cbn [rows_]. apply N.ltb_lt in Hn as ->. reflexivity.
    + intros i j Hi Hj. apply Matrix_fill_elem; assumption.
  - intros n Hn Hwrap. split.
    + unfold Matrix_square, assert. rewrite Hwrap.
      unfold Rows. cbn [rows_]. apply N.ltb_lt in Hn as ->. reflexivity.
    + intros (Hsz & Hpos & _). unfold Rows, Columns in *. cbn [rows_ buffer_] in *.
      specialize (Hpos Hn). destruct (N.eqb_spec n 0); [lia|].
      change (size []) with 0 in Hpos. rewrite N.Div0.div_0_l in Hpos. lia.
Qed.

End ConstructorRest.

Lemma Matrix_fill_spec_witness :
  exists m : Matrix float,
    Matrix_fill 2 3 1.5%float = Ok m /\ shaped 2 3 m /\
    forall i j, i < 2 -> j < 3 -> elem m i j = Ok 1.5%float.
Proof.
  apply (Matrix_fill_spec 2 3 1.5%float); reflexivity.
Defined.

Lemma Matrix_square_spec_witness :
  (exists m : Matrix float,
     Matrix_square 3 = Ok m /\ shaped 3 3 m /\
     forall i j, i < 3 -> j < 3 -> elem m i j = Ok (of_Z 0)) /\
  (Matrix_square (T := float) (2 ^ 32) = Ok (mkMatrix (2 ^ 32) []) /\
   ~ wf (mkMatrix (T := float) (2 ^ 32) [])).
Proof.
  split.
  - apply (proj1 (proj2 Matrix_square_spec) 3); reflexivity.
  - apply (proj2 (proj2 Matrix_square_spec) (2 ^ 32)); reflexivity.
Defined.

Section DiagonalFacts.
Context {T : Type} `{Scalar T}.

Local Notation "v @ j" := (v !! N.to_nat j) (at level 20).

(** X3. [Matrix(const Data &diag)] and [Identity]: an empty list fails the
    contract; a list of [n > 0] values, [n * n] fitting [size_t], gives the
    well-formed [n x n] matrix with the list on the diagonal, in order, and
    zero elsewhere. [Identity(0, v)] fails the contract, and [Identity(n, v)]
    has [v] on the diagonal. *)
Theorem Matrix_diag_spec :
  Matrix_diag (T := T) [] = ContractFailure /\
  (forall diag : list T,
     diag <> [] -> SizeT.fits (size diag * size diag) ->
     exists m,
       Matrix_diag diag = Ok m /\ shaped (size diag) (size diag) m /\
       forall i j, i < size diag -> j < size diag ->
         elem m i j = Ok (if i =? j then default (of_Z 0) (diag @ i) else of_Z 0)) /\
  (forall v : T, Identity 0 v = ContractFailure) /\
  (forall sz (v : T),
     0 < sz -> SizeT.fits (sz * sz) ->
     exists m,
       Identity sz v = Ok m /\ shaped sz sz m /\
       forall i j, i < sz -> j < sz ->
         elem m i j = Ok (if i =? j then v else of_Z 0)).
Proof.
  split; [reflexivity|]. split; [|split; [reflexivity|]].
  - intros diag Hne Hfit.
    assert (Hpos : 0 < size diag)
      by (unfold size; destruct diag; [congruence | simpl; lia]).
    unfold Matrix_diag, assert. rewrite mul_small by exact Hfit.
    unfold Rows at 1. cbn [rows_]. apply N.ltb_lt in Hpos as Hposb. rewrite Hposb.
    destruct (shaped_Matrix_fill (size diag) (size diag) (of_Z 0) Hpos Hpos Hfit)
      as [_ Hm0].
    destruct (diag_fill_spec (size diag) diag 0 _ Hm0) as (m & Hrun & Hm & Hspec);
      [lia|].
    exists m. split; [exact Hrun|]. split; [exact Hm|].
    intros i j Hi Hj.
    apply (shaped_elem_lookup _ _ m i j _ Hm Hi Hj).
    rewrite (Hspec i j Hi Hj). cbn [buffer_].
    rewrite (proj2 (N.leb_le 0 i) (N.le_0_l i)), andb_true_r, N.sub_0_r.
    destruct (N.eqb_spec i j) as [<-|Hij].
    + destruct (lookup_N_is_Some diag i Hi) as [x ->]. reflexivity.
    + apply lookup_replicate_2. unfold SizeT.fits in Hfit. nia.
  - intros sz v Hsz Hfit. apply Identity_spec; assumption.
Qed.

End DiagonalFacts.

Lemma Matrix_diag_spec_witness :
  exists m : Matrix float,
    Matrix_diag [5; 3]%float = Ok m /\ shaped 2 2 m /\
    forall i j, i < 2 -> j < 2 ->
      elem m i j
      = Ok (if i =? j then default (of_Z 0) ([5; 3]%float !! N.to_nat i)
            else of_Z 0).
Proof.
  apply (proj1 (proj2 Matrix_diag_spec) [5; 3]%float); [discriminate | reflexivity].
Defined.

Section LiteralFacts.
Context {T : Type} `{Scalar T}.

Local Notation "v @ j" := (v !! N.to_nat j) (at level 20).

Lemma push_rows_spec (columns : N) (lst : list (list T)) (buffer : list T) :
  (Forall (fun row => size row = columns) lst /\
   push_rows columns lst buffer = Ok (buffer ++ concat lst)) \/
  (~ Forall (fun row => size row = columns) lst /\
   push_rows columns lst buffer = ContractFailure).
Proof.
  revert buffer. induction lst as [|row lst IH]; intros buffer.
  - left. split; [constructor|]. cbn. rewrite app_nil_r. reflexivity.
  - cbn [push_rows]. unfold assert.
    destruct (N.eqb_spec (size row) columns) as [Hrow|Hrow].
    + destruct (IH (buffer ++ row)) as [[Hall Hrun]|[Hnot Hrun]].
      * left. split; [constructor; assumption|].
        rewrite Hrun. cbn [concat]. rewrite <- app_assoc. reflexivity.
      * right. split; [|exact Hrun]. intros Hall. apply Hnot.
        inversion Hall; assumption.
    + right. split; [|reflexivity]. intros Hall. inversion Hall; contradiction.
Qed.

Lemma lookup_concat_rows (c : nat) (lst : list (list T)) :
  Forall (fun row => length row = c) lst ->
  forall (i j : nat) row x,
    lst !! i = Some row -> row !! j = Some x ->
    concat lst !! (c * i + j)%nat = Some x.
Proof.
  induction 1 as [|row0 lst Hrow0 _ IH]; intros i j row x Hi Hj.
  - discriminate.
  - destruct i as [|i]; cbn [concat].
    + injection Hi as <-. rewrite Nat.mul_0_r. cbn.
      rewrite lookup_app_l; [exact Hj|]. apply lookup_lt_Some in Hj. exact Hj.
    + cbn in Hi. rewrite lookup_app_r by lia.
      replace (c * S i + j - length row0)%nat with (c * i + j)%nat by lia.
      apply (IH i j row x Hi Hj).
Qed.

(** X4. The nested-literal constructor, for a literal whose elements fit
    [size_t]: a rectangular literal gives the well-formed matrix whose
    buffer is the rows in order, so that [(i, j)] reads element [j] of row
    [i] of the literal; an empty literal, an empty first row or rows of
    different lengths fail the contract. *)
Theorem Matrix_of_rows_spec (lst : list (list T)) :
  (~ rectangular lst -> Matrix_of_rows lst = ContractFailure) /\
  (rectangular lst -> SizeT.fits (size (concat lst)) ->
   exists m,
     Matrix_of_rows lst = Ok m /\
     buffer_ m = concat lst /\
     shaped (size lst) (size (default [] (head lst))) m /\
     forall i j row x,
       lst @ i = Some row -> row @ j = Some x -> elem m i j = Ok x).
Proof.
  split.
  - intros Hnot. unfold Matrix_of_rows, assert.
    destruct (N.ltb_spec 0 (size lst)) as [Hrows|]; [|reflexivity].
    destruct lst as [|first rest]; [unfold size in Hrows; simpl in Hrows; lia|].
    destruct (N.ltb_spec 0 (size first)) as [Hcols|]; [|reflexivity].
    destruct (push_rows_spec (size first) (first :: rest) []) as [[Hall _]|[_ ->]];
      [|reflexivity].
    exfalso. apply Hnot. exists first, rest. split; [reflexivity|].
    split; [|exact Hall]. intros ->. unfold size in Hcols. simpl in Hcols. lia.
  - intros (first & rest & -> & Hfirst & Hall) Hfit.
    assert (Hcols : 0 < size first)
      by (unfold size; destruct first; [congruence | simpl; lia]).
    assert (Hrun : Matrix_of_rows (first :: rest)
                   = Ok (mkMatrix (size (first :: rest)) (concat (first :: rest)))).
    { unfold Matrix_of_rows, assert.
      assert (Hrows : (0 <? size (first :: rest)) = true)
        by (apply N.ltb_lt; unfold size; simpl; lia).
      rewrite Hrows. apply N.ltb_lt in Hcols as ->.
      destruct (push_rows_spec (size first) (first :: rest) []) as [[_ ->]|[Hnot _]];
        [reflexivity | contradiction]. }
    destruct (Matrix_of_rows_wf _ _ Hrun Hfit) as (Hwf & Hr & Hb).
    pose proof (size_concat_rows _ _ Hall) as Hsize.
    assert (Hm : shaped (size (first :: rest)) (size first)
                   (mkMatrix (size (first :: rest)) (concat (first :: rest)))).
    { split; [exact Hwf|]. split; [reflexivity|].
      unfold Columns. cbn [rows_ buffer_]. rewrite Hsize.
      destruct (N.eqb_spec (size (first :: rest)) 0) as [E|E];
        [unfold size in E; simpl in E; lia|].
      rewrite N.mul_comm. apply N.div_mul. lia. }
    eexists. split; [exact Hrun|]. split; [reflexivity|]. split; [exact Hm|].
    intros i j row x Hi Hj.
    assert (Hrow : size row = size first).
    { rewrite Forall_forall in Hall. apply Hall.
      apply list_elem_of_In, list_elem_of_lookup. eauto. }
    assert (Hi' : i < size (first :: rest)).
    { apply lookup_lt_Some in Hi. unfold size. lia. }
    assert (Hj' : j < size first).
    { apply lookup_lt_Some in Hj. unfold size in *. lia. }
    apply (shaped_elem_lookup _ _ _ i j x Hm Hi' Hj'). cbn [buffer_].
    replace (N.to_nat (size first * i + j))
      with (length first * N.to_nat i + N.to_nat j)%nat by (unfold size; lia).
    apply (lookup_concat_rows (length first) _) with (row := row);
      [|exact Hi | exact Hj].
    eapply Forall_impl; [|exact Hall]. intros r0 Hr0. unfold size in Hr0. lia.
Qed.

End LiteralFacts.

Lemma Matrix_of_rows_spec_witness :
  exists m : Matrix float,
    Matrix_of_rows [[1; 2; 3]; [4; 5; 6]]%float = Ok m /\
    buffer_ m = [1; 2; 3; 4; 5; 6]%float /\
    shaped 2 3 m /\
    forall i j row x,
      [[1; 2; 3]; [4; 5; 6]]%float !! N.to_nat i = Some row ->
      row !! N.to_nat j = Some x -> elem m i j = Ok x.
Proof.
  apply (proj2 (Matrix_of_rows_spec [[1; 2; 3]; [4; 5; 6]]%float)).
  - exists [1; 2; 3]%float, [[4; 5; 6]%float].
    split; [reflexivity|]. split; [discriminate|].
    repeat constructor.
  - reflexivity.
Defined.

(** ** Element access and assignment *)

Section RoundTripFacts.
Context {T : Type} `{Scalar T}.

(** X5. An assignment through [operator()] fails its contract when the flat
    index is outside the buffer. Inside a well-formed matrix it keeps the
    shape, the element assigned is the one read back at the same position,
    and every other position reads as before. *)
Theorem set_elem_round_trip (m : Matrix T) (i j : N) (x : T) :
  (size (buffer_ m) <= flat_index m i j -> set_elem m i j x = ContractFailure) /\
  (forall r c,
     shaped r c m -> i < r -> j < c ->
     exists m',
       set_elem m i j x = Ok m' /\ shaped r c m' /\
       elem m' i j = Ok x /\
       (forall i' j', i' < r -> j' < c -> (i', j') <> (i, j) ->
          elem m' i' j' = elem m i' j')).
Proof.
  split.
  - intros Hge. unfold set_elem, assert. apply N.ltb_ge in Hge. rewrite Hge.
    reflexivity.
  - intros r c. apply shaped_set_get.
Qed.

End RoundTripFacts.

Lemma set_elem_round_trip_witness :
  exists m' : Matrix float,
    set_elem (mkMatrix 2 [1; 2; 3; 4; 5; 6]%float) 1 2 9%float = Ok m' /\
    shaped 2 3 m' /\
    elem m' 1 2 = Ok 9%float /\
    (forall i' j', i' < 2 -> j' < 3 -> (i', j') <> (1, 2) ->
       elem m' i' j' = elem (mkMatrix 2 [1; 2; 3; 4; 5; 6]%float) i' j').
Proof.
  apply (proj2 (set_elem_round_trip (mkMatrix 2 [1; 2; 3; 4; 5; 6]%float) 1 2 9%float)
           2 3).
  - repeat split; vm_compute; congruence.
  - reflexivity.
  - reflexivity.
Defined.

(** ** The product *)

Section ProductFacts.
Context {T : Type} `{Scalar T}.
Implicit Types lhs rhs : Matrix T.

Lemma entry_Ok (m : Matrix T) i j x : elem m i j = Ok x -> entry m i j = x.
Proof. unfold entry. intros ->. reflexivity. Qed.

Lemma dot_succ lhs rhs i j (n : nat) :
  dot lhs rhs i j (S n)
  = sadd (dot lhs rhs i j n)
      (smul (entry lhs i (N.of_nat n)) (entry rhs (N.of_nat n) j)).
Proof. unfold dot. rewrite seq_S, foldl_app. reflexivity. Qed.

Lemma dot_loop r k c lhs rhs i j :
  shaped r k lhs -> shaped k c rhs -> i < r -> j < c ->
  for_loop (N.to_nat k) 0
    (fun kk sum => a ← elem lhs i kk; b ← elem rhs kk j; Ok (sadd sum (smul a b)))
    (of_Z 0)
  = Ok (dot lhs rhs i j (N.to_nat k)).
Proof.
  intros Hl Hr Hi Hj.
  destruct (for_loop_indexed
              (fun kk sum => sum = dot lhs rhs i j (N.to_nat kk))
              (fun kk sum => a ← elem lhs i kk; b ← elem rhs kk j;
                             Ok (sadd sum (smul a b)))
              (N.to_nat k) 0) with (s := of_Z 0) as (sum & Hrun & Hsum).
  - intros kk sum Hkk ->.
    destruct (shaped_elem r k lhs i kk Hl) as (a & Ha & _); [lia | lia |].
    destruct (shaped_elem k c rhs kk j Hr) as (b & Hb & _); [lia | lia |].
    rewrite Ha. cbn. rewrite Hb. cbn. eexists. split; [reflexivity|].
    rewrite N2Nat.inj_succ, dot_succ, N2Nat.id.
    rewrite (entry_Ok _ _ _ _ Ha), (entry_Ok _ _ _ _ Hb). reflexivity.
  - reflexivity.
  - rewrite Hrun, Hsum. do 2 f_equal. lia.
Qed.

Lemma op_mul_entries r k c lhs rhs :
  0 < r -> 0 < c -> SizeT.fits (r * c) ->
  shaped r k lhs -> shaped k c rhs ->
  exists m,
    op_mul lhs rhs = Ok m /\ shaped r c m /\
    forall i j, i < r -> j < c ->
      elem m i j = Ok (dot lhs rhs i j (N.to_nat k)).
Proof.
  intros Hr Hc Hfit Hl Hrh.
  pose proof Hl as (_ & Hlr & Hlc). pose proof Hrh as (_ & Hrr & Hrc).
  unfold op_mul, assert. rewrite Hlc, Hrr, N.eqb_refl, Hlr, Hrc.
  destruct (shaped_Matrix_fill r c (of_Z 0) Hr Hc Hfit) as [-> Hres]. cbn.
  destruct (for_loop_indexed
    (fun i res =>
       shaped r c res /\
       forall i' j', i' < i -> i' < r -> j' < c ->
         elem res i' j' = Ok (dot lhs rhs i' j' (N.to_nat k)))
    (fun i res =>
       for_loop (N.to_nat c) 0
         (fun j res =>
            sum ← for_loop (N.to_nat k) 0
                    (fun kk sum => a ← elem lhs i kk; b ← elem rhs kk j;
                                   Ok (sadd sum (smul a b)))
                    (of_Z 0);
            set_elem res i j sum)
         res)
    (N.to_nat r) 0)
    with (s := mkMatrix r (replicate (N.to_nat (r * c)) (of_Z 0)))
    as (m & Hrun & Hm & Hall).
  - intros i res Hi (Hshape & Hdone).
    destruct (for_loop_indexed
      (fun j res =>
         shaped r c res /\
         (forall i' j', i' < i -> i' < r -> j' < c ->
            elem res i' j' = Ok (dot lhs rhs i' j' (N.to_nat k))) /\
         forall j', j' < j -> j' < c ->
           elem res i j' = Ok (dot lhs rhs i j' (N.to_nat k)))
      (fun j res =>
         sum ← for_loop (N.to_nat k) 0
                 (fun kk sum => a ← elem lhs i kk; b ← elem rhs kk j;
                                Ok (sadd sum (smul a b)))
                 (of_Z 0);
         set_elem res i j sum)
      (N.to_nat c) 0) with (s := res) as (res' & Hrun' & Hshape' & Hdone' & Hrow).
    + intros j res0 Hj (Hs0 & Hd0 & Hr0).
      rewrite (dot_loop r k c lhs rhs i j Hl Hrh) by lia. cbn.
      destruct (shaped_set_get r c res0 i j (dot lhs rhs i j (N.to_nat k)) Hs0)
        as (res1 & Hset & Hs1 & Hget & Hother); [lia | lia |].
      exists res1. split; [exact Hset|]. split; [exact Hs1|]. split.
      * intros i' j' Hi' Hi'r Hj'. rewrite Hother; [apply Hd0; assumption | | |];
          try assumption. intros [= -> ->]. lia.
      * intros j' Hj' Hj'c. destruct (N.eq_dec j' j) as [->|Hne]; [exact Hget|].
        rewrite Hother; [apply Hr0; lia | lia | assumption |].
        intros [= ->]. congruence.
    + split; [exact Hshape|]. split; [exact Hdone|]. intros j' Hj'. lia.
    + exists res'. split; [exact Hrun'|]. split; [exact Hshape'|].
      intros i' j' Hi' Hi'r Hj'. destruct (N.eq_dec i' i) as [->|Hne].
      * apply Hrow; lia.
      * apply Hdone'; lia.
  - split; [exact Hres|]. intros i' j' Hi'. lia.
  - exists m. split; [exact Hrun|]. split; [exact Hm|].
    intros i j Hi Hj. apply Hall; lia.
Qed.

(** X6. [operator*]: different inner dimensions fail the contract. For a
    well-formed [r x k] and a well-formed [k x c] operand the product is a
    well-formed [r x c] matrix whose entry [(i, j)] is the sum, started at
    zero, of the products [lhs(i,q) * rhs(q,j)] added for [q = 0 .. k-1] in
    this order. *)
Theorem op_mul_spec lhs rhs :
  (Columns lhs <> Rows rhs -> op_mul lhs rhs = ContractFailure) /\
  (forall r k c,
     0 < r -> 0 < c -> SizeT.fits (r * c) ->
     shaped r k lhs -> shaped k c rhs ->
     exists m,
       op_mul lhs rhs = Ok m /\ shaped r c m /\
       forall i j, i < r -> j < c ->
         elem m i j = Ok (dot lhs rhs i j (N.to_nat k))).
Proof.
  split.
  - intros Hne. unfold op_mul, assert. apply N.eqb_neq in Hne. rewrite Hne.
    reflexivity.
  - intros r k c. apply op_mul_entries.
Qed.

End ProductFacts.

Lemma op_mul_spec_witness :
  exists m : Matrix float,
    op_mul (mkMatrix 2 [1; 2; 3; 4]%float) (mkMatrix 2 [0; 1; 1; 0]%float) = Ok m /\
    shaped 2 2 m /\
    forall i j, i < 2 -> j < 2 ->
      elem m i j
      = Ok (dot (mkMatrix 2 [1; 2; 3; 4]%float) (mkMatrix 2 [0; 1; 1; 0]%float)
              i j (N.to_nat 2)).
Proof.
  apply (proj2 (op_mul_spec (mkMatrix 2 [1; 2; 3; 4]%float)
                  (mkMatrix 2 [0; 1; 1; 0]%float)) 2 2 2).
  - reflexivity.
  - reflexivity.
  - reflexivity.
  - repeat split; vm_compute; congruence.
  - repeat split; vm_compute; congruence.
Defined.

(** ** The element-only ApplyToEach and the scalar product *)

Section ScaleFacts.
Context {T : Type} `{Scalar T}.

Lemma each_loop {C : Type} (func : C -> T -> C * T) (rest done : list T) (c : C) :
  for_loop (length rest) (N.of_nat (length done))
    (fun i '(c, b) =>
       x ← vget b i;
       let '(c', x') := func c x in
       b' ← vset b i x'; Ok (c', b'))
    (c, done ++ rest)
  = Ok (fst (each func c rest), done ++ snd (each func c rest)).
Proof.
  revert done c. induction rest as [|x rest IH]; intros done c.
  - reflexivity.
  - cbn [for_loop length each]. rewrite vget_middle. cbn.
    destruct (func c x) as [c1 x'].
    rewrite vset_middle. cbn. rewrite (succ_length done x'), IH.
    destruct (each func c1 rest) as [c2 l'']. cbn.
    rewrite <- app_assoc. reflexivity.
Qed.

Lemma each_length {C : Type} (func : C -> T -> C * T) (c : C) (l : list T) :
  length (snd (each func c l)) = length l.
Proof.
  revert c. induction l as [|x l IH]; intros c; [reflexivity|].
  cbn [each]. destruct (func c x) as [c1 x']. specialize (IH c1).
  destruct (each func c1 l) as [c2 l'']. cbn in *. lia.
Qed.

Lemma each_map (f : T -> T) (l : list T) :
  each (fun (_ : unit) v => (tt, f v)) tt l = (tt, map f l).
Proof.
  induction l as [|x l IH]; [reflexivity|]. cbn [each]. rewrite IH. reflexivity.
Qed.

Lemma ApplyToEach_run {C : Type} (func : C -> T -> C * T) (c : C) (m : Matrix T) :
  ApplyToEach func c m
  = Ok (fst (each func c (buffer_ m)),
        mkMatrix (rows_ m) (snd (each func c (buffer_ m)))).
Proof.
  unfold ApplyToEach.
  pose proof (each_loop func (buffer_ m) [] c) as Hloop.
  change (N.of_nat (length [])) with 0 in Hloop.
  change ([] ++ buffer_ m) with (buffer_ m) in Hloop.
  rewrite Hloop. reflexivity.
Qed.

Lemma ApplyToEach_map (f : T -> T) (m : Matrix T) :
  ('(_, m') ← ApplyToEach (fun (_ : unit) v => (tt, f v)) tt m; Ok m')
  = Ok (mkMatrix (rows_ m) (map f (buffer_ m))).
Proof. rewrite ApplyToEach_run, each_map. reflexivity. Qed.

Lemma op_scale_assign_map (m : Matrix T) (scalar : T) :
  op_scale_assign m scalar
  = Ok (mkMatrix (rows_ m) (map (fun v => smul v scalar) (buffer_ m))).
Proof. apply (ApplyToEach_map (fun v => smul v scalar)). Qed.

(** X7. The element-only [ApplyToEach] never fails: on any matrix, the
    empty one too, it runs the callback once on each element in the order
    of the buffer and keeps the row count and the buffer's length. So
    [operator*=(T)] and [operator*(Matrix, T)] multiply every element by the
    scalar, on the right. *)
Theorem ApplyToEach_spec (m : Matrix T) :
  (forall (C : Type) (func : C -> T -> C * T) (c : C),
     ApplyToEach func c m
     = Ok (fst (each func c (buffer_ m)),
           mkMatrix (rows_ m) (snd (each func c (buffer_ m)))) /\
     length (snd (each func c (buffer_ m))) = length (buffer_ m)) /\
  (forall scalar,
     op_scale_assign m scalar
     = Ok (mkMatrix (rows_ m) (map (fun v => smul v scalar) (buffer_ m))) /\
     op_scale m scalar = op_scale_assign m scalar).
Proof.
  split.
  - intros C func c. split; [apply ApplyToEach_run | apply each_length].
  - intros scalar. split; [apply op_scale_assign_map | reflexivity].
Qed.

End ScaleFacts.

(** ** Transposing a vector *)

Section VectorTransposeFacts.
Context {T : Type} `{Scalar T}.

Lemma target_vector (R C n j : N) :
  n = R * C -> R = 1 \/ C = 1 -> j < n -> target R (n - 1) j = j.
Proof.
  intros Hn Hvec Hj. unfold target.
  destruct (N.eqb_spec j (n - 1)) as [E|E]; [lia|].
  destruct Hvec as [-> | ->].
  - rewrite N.mul_1_l. apply N.mod_small. lia.
  - replace (R * j) with (j + j * (n - 1)) by nia.
    rewrite N.Div0.mod_add. apply N.mod_small. lia.
Qed.

Lemma Transpose_vector_run (m : Matrix T) :
  wf m -> Rows m = 1 \/ Columns m = 1 ->
  SizeT.fits (Rows m * size (buffer_ m)) ->
  Transpose m = Ok (mkMatrix (Columns m) (buffer_ m)).
Proof.
  intros Hwf Hvec Hfit.
  destruct (Transpose_run m Hwf Hfit) as (b' & -> & Hb' & Hall).
  do 2 f_equal. apply vec_ext; [exact Hb'|].
  intros i Hi. rewrite Hb' in Hi. rewrite <- (Hall i Hi).
  destruct Hwf as (Hsz & _).
  rewrite (target_vector (Rows m) (Columns m)); auto.
Qed.

(** X8. Transposing a well-formed row vector, or a well-formed column
    vector whose squared length fits [size_t], moves no element: the buffer
    is the same and only the row count changes, to the old column count. *)
Theorem Transpose_vector (m : Matrix T) :
  wf m ->
  Rows m = 1 \/ (Columns m = 1 /\ SizeT.fits (Rows m * Rows m)) ->
  exists m',
    Transpose m = Ok m' /\ buffer_ m' = buffer_ m /\
    Rows m' = Columns m /\ Columns m' = Rows m.
Proof.
  intros Hwf Hvec.
  assert (Hshape : Rows m = 1 \/ Columns m = 1) by (destruct Hvec as [?|[? _]]; auto).
  assert (Hfit : SizeT.fits (Rows m * size (buffer_ m))).
  { pose proof Hwf as (Hsz & _ & Hfits). destruct Hvec as [Hrow|[Hcol Hsq]].
    - rewrite Hrow, N.mul_1_l. exact Hfits.
    - rewrite Hsz, Hcol, N.mul_1_r. exact Hsq. }
  rewrite (Transpose_vector_run m Hwf Hshape Hfit).
  eexists. split; [reflexivity|]. split; [reflexivity|].
  destruct (transposed_shape m (buffer_ m) Hwf eq_refl) as (_ & Hr & Hc).
  split; assumption.
Qed.

End VectorTransposeFacts.

Lemma Transpose_vector_witness :
  exists m' : Matrix float,
    Transpose (mkMatrix 3 [1; 2; 3]%float) = Ok m' /\
    buffer_ m' = [1; 2; 3]%float /\ Rows m' = 1 /\ Columns m' = 3.
Proof.
  apply (Transpose_vector (mkMatrix 3 [1; 2; 3]%float)).
  - repeat split; vm_compute; congruence.
  - right. split; reflexivity.
Defined.

(** ** Rows, columns and the diagonal *)

Section SliceFacts.
Context {T : Type} `{Scalar T}.

(** A loop that copies [n] elements, one for each index, to [n] distinct
    positions of a matrix. *)
Lemma copy_loop r c (src : N -> result T) (row col : N -> N) (n : N)
    (res0 : Matrix T) :
  shaped r c res0 ->
  (forall i, i < n -> exists x, src i = Ok x) ->
  (forall i, i < n -> row i < r /\ col i < c) ->
  (forall i i', i < n -> i' < n -> (row i, col i) = (row i', col i') -> i = i') ->
  exists res,
    for_loop (N.to_nat n) 0
      (fun i res => x ← src i; set_elem res (row i) (col i) x) res0 = Ok res /\
    shaped r c res /\
    (forall i, i < n -> elem res (row i) (col i) = src i) /\
    (forall i' j', i' < r -> j' < c ->
       (forall i, i < n -> (row i, col i) <> (i', j')) ->
       elem res i' j' = elem res0 i' j').
Proof.
  intros Hres0 Hsrc Hpos Hinj.
  destruct (for_loop_indexed
    (fun k res =>
       shaped r c res /\
       (forall i, i < k -> i < n -> elem res (row i) (col i) = src i) /\
       (forall i' j', i' < r -> j' < c ->
          (forall i, i < k -> i < n -> (row i, col i) <> (i', j')) ->
          elem res i' j' = elem res0 i' j'))
    (fun i res => x ← src i; set_elem res (row i) (col i) x)
    (N.to_nat n) 0) with (s := res0) as (res & Hrun & Hshape & Hdone & Hrest).
  - intros k res Hk (Hs & Hd & Hr).
    destruct (Hsrc k) as [x Hx]; [lia|]. destruct (Hpos k) as [Hrow Hcol]; [lia|].
    rewrite Hx. cbn.
    destruct (shaped_set_get r c res (row k) (col k) x Hs Hrow Hcol)
      as (res1 & Hset & Hs1 & Hget & Hother).
    exists res1. split; [exact Hset|]. split; [exact Hs1|]. split.
    + intros i Hi Hin. destruct (N.eq_dec i k) as [->|Hne]; [congruence|].
      destruct (Hpos i Hin) as [Hri Hci].
      rewrite Hother; [apply Hd; lia | assumption | assumption |].
      intros E. apply Hne. apply Hinj; [lia | lia | exact E].
    + intros i' j' Hi' Hj' Hfree.
      rewrite Hother; [apply Hr; [assumption | assumption |] | assumption | assumption |].
      * intros i Hi Hin. apply Hfree; lia.
      * intros E. apply (Hfree k); [lia | lia | congruence].
  - split; [exact Hres0|]. split; [intros i Hi; lia|]. reflexivity.
  - exists res. split; [exact Hrun|]. split; [exact Hshape|]. split.
    + intros i Hi. apply Hdone; lia.
    + intros i' j' Hi' Hj' Hfree. apply Hrest; [assumption | assumption |].
      intros i _ Hin. apply Hfree. exact Hin.
Qed.

Lemma shaped_positive r c (m : Matrix T) :
  shaped r c m -> (0 < r <-> 0 < c) /\ SizeT.fits (r * c).
Proof.
  intros ((Hsz & Hpos & Hfit) & Hr & Hc). rewrite <- Hr, <- Hc. split.
  - split; [exact Hpos|]. intros Hc0. unfold Columns, Rows in *.
    destruct (N.eqb_spec (rows_ m) 0); lia.
  - rewrite <- Hsz. exact Hfit.
Qed.

Lemma GetRow_run r c (m : Matrix T) index :
  shaped r c m -> index < r ->
  exists res,
    GetRow m index = Ok res /\ shaped 1 c res /\
    forall j, j < c -> elem res 0 j = elem m index j.
Proof.
  intros Hm Hidx. pose proof Hm as (_ & Hr & Hc).
  destruct (shaped_positive r c m Hm) as [Hpos Hfit].
  assert (Hc0 : 0 < c) by (apply Hpos; lia).
  unfold GetRow, assert. rewrite Hr, Hc.
  apply N.ltb_lt in Hidx as Hidxb. rewrite Hidxb.
  destruct (shaped_Matrix_fill 1 c (of_Z 0 : T)) as [-> Hres0];
    [lia | lia | unfold SizeT.fits in *; nia |]. cbn.
  destruct (copy_loop 1 c (fun i => elem m index i) (fun _ => 0) (fun i => i) c _ Hres0)
    as (res & Hrun & Hshape & Hcopied & _).
  - intros i Hi. destruct (shaped_elem r c m index i Hm Hidx Hi) as (x & Hx & _). eauto.
  - intros i Hi. lia.
  - intros i i' _ _ [= ->]. reflexivity.
  - exists res. split; [exact Hrun|]. split; [exact Hshape|]. exact Hcopied.
Qed.

Lemma GetColumn_run r c (m : Matrix T) index :
  shaped r c m -> index < c ->
  exists res,
    GetColumn m index = Ok res /\ shaped r 1 res /\
    forall i, i < r -> elem res i 0 = elem m i index.
Proof.
  intros Hm Hidx. pose proof Hm as (_ & Hr & Hc).
  destruct (shaped_positive r c m Hm) as [Hpos Hfit].
  assert (Hr0 : 0 < r) by (apply Hpos; lia).
  unfold GetColumn, assert. rewrite Hr, Hc.
  apply N.ltb_lt in Hidx as Hidxb. rewrite Hidxb.
  destruct (shaped_Matrix_fill r 1 (of_Z 0 : T)) as [-> Hres0];
    [lia | lia | unfold SizeT.fits in *; nia |]. cbn.
  destruct (copy_loop r 1 (fun i => elem m i index) (fun i => i) (fun _ => 0) r _ Hres0)
    as (res & Hrun & Hshape & Hcopied & _).
  - intros i Hi. destruct (shaped_elem r c m i index Hm Hi Hidx) as (x & Hx & _). eauto.
  - intros i Hi. lia.
  - intros i i' _ _ [= ->]. reflexivity.
  - exists res. split; [exact Hrun|]. split; [exact Hshape|]. exact Hcopied.
Qed.

Lemma GetDiag_run r c (m : Matrix T) :
  shaped r c m -> 0 < r ->
  exists res,
    GetDiag m false = Ok res /\ shaped (N.min r c) 1 res /\
    (forall i, i < N.min r c -> elem res i 0 = elem m i i) /\
    (SizeT.fits (N.min r c * N.min r c) ->
     GetDiag m true = Ok (mkMatrix 1 (buffer_ res))).
Proof.
  intros Hm Hr0. pose proof Hm as (_ & Hr & Hc).
  destruct (shaped_positive r c m Hm) as [Hpos Hfit].
  assert (Hc0 : 0 < c) by (apply Hpos; lia).
  unfold GetDiag. rewrite Hr, Hc.
  destruct (shaped_Matrix_fill (N.min r c) 1 (of_Z 0 : T)) as [-> Hres0];
    [lia | lia | unfold SizeT.fits in *; nia |]. cbn.
  destruct (copy_loop (N.min r c) 1 (fun i => elem m i i) (fun i => i) (fun _ => 0)
              (N.min r c) _ Hres0)
    as (res & Hrun & Hshape & Hcopied & _).
  - intros i Hi.
    destruct (shaped_elem r c m i i Hm) as (x & Hx & _); [lia | lia | eauto].
  - intros i Hi. lia.
  - intros i i' _ _ [= ->]. reflexivity.
  - cbv beta in Hrun. rewrite Hrun. cbn.
    exists res. split; [reflexivity|]. split; [exact Hshape|].
    split; [exact Hcopied|]. intros Hsq.
    pose proof Hshape as (Hwf & Hrr & Hrc).
    rewrite (Transpose_vector_run res Hwf); [rewrite Hrc; reflexivity | right; exact Hrc |].
    rewrite Hrr, (shaped_size _ _ _ Hshape). rewrite N.mul_1_r. exact Hsq.
Qed.

(** X9. [GetRow]: an index that is not a row fails the contract; a row of a
    well-formed matrix comes back as a well-formed [1 x Columns()] matrix
    holding that row in order. *)
Theorem GetRow_spec (m : Matrix T) (index : N) :
  (Rows m <= index -> GetRow m index = ContractFailure) /\
  (forall r c,
     shaped r c m -> index < r ->
     exists res,
       GetRow m index = Ok res /\ shaped 1 c res /\
       forall j, j < c -> elem res 0 j = elem m index j).
Proof.
  split.
  - intros Hge. unfold GetRow, assert. apply N.ltb_ge in Hge. rewrite Hge. reflexivity.
  - intros r c. apply GetRow_run.
Qed.

(** X10. [GetColumn]: an index that is not a column fails the contract; a
    column of a well-formed matrix comes back as a well-formed
    [Rows() x 1] matrix holding that column in order. *)
Theorem GetColumn_spec (m : Matrix T) (index : N) :
  (Columns m <= index -> GetColumn m index = ContractFailure) /\
  (forall r c,
     shaped r c m -> index < c ->
     exists res,
       GetColumn m index = Ok res /\ shaped r 1 res /\
       forall i, i < r -> elem res i 0 = elem m i index).
Proof.
  split.
  - intros Hge. unfold GetColumn, assert. apply N.ltb_ge in Hge. rewrite Hge.
    reflexivity.
  - intros r c. apply GetColumn_run.
Qed.

(** X11. [GetDiag]: on a matrix without rows, the default matrix too, the
    constructor of the result fails its contract. On a well-formed [r x c]
    matrix the diagonal comes back as a [min(r,c) x 1] column holding
    [m(i,i)] at row [i]; with the flag set it is the [1 x min(r,c)] row
    with the same buffer. *)
Theorem GetDiag_spec (m : Matrix T) :
  (Rows m = 0 -> forall transpose, GetDiag m transpose = ContractFailure) /\
  (forall r c,
     shaped r c m -> 0 < r -> SizeT.fits (N.min r c * N.min r c) ->
     exists col row,
       GetDiag m false = Ok col /\ GetDiag m true = Ok row /\
       shaped (N.min r c) 1 col /\ shaped 1 (N.min r c) row /\
       buffer_ row = buffer_ col /\
       forall i, i < N.min r c ->
         elem col i 0 = elem m i i /\ elem row 0 i = elem m i i).
Proof.
  split.
  - intros Hr transpose. unfold GetDiag. rewrite Hr, N.min_0_l. reflexivity.
  - intros r c Hm Hr0 Hsq.
    destruct (GetDiag_run r c m Hm Hr0) as (col & Hfalse & Hshape & Hcopied & Htrue).
    specialize (Htrue Hsq).
    assert (Hrow : shaped 1 (N.min r c) (mkMatrix 1 (buffer_ col))).
    { pose proof Hshape as (Hwf & Hrr & Hrc).
      destruct (transposed_shape col (buffer_ col) Hwf eq_refl) as (Hwf' & Hr' & Hc').
      rewrite Hrc in *. rewrite Hrr in Hc'. split; [exact Hwf'|]. split; assumption. }
    exists col, (mkMatrix 1 (buffer_ col)).
    split; [exact Hfalse|]. split; [exact Htrue|]. split; [exact Hshape|].
    split; [exact Hrow|]. split; [reflexivity|].
    intros i Hi. split; [apply Hcopied; exact Hi|].
    rewrite <- (Hcopied i Hi).
    destruct (shaped_elem _ _ col i 0 Hshape Hi) as (x & Hx & Hlook); [lia|].
    rewrite Hx. apply (shaped_elem_lookup _ _ _ 0 i x Hrow); [lia | exact Hi |].
    cbn [buffer_]. rewrite <- Hlook. f_equal. lia.
Qed.

End SliceFacts.

Lemma GetRow_spec_witness :
  exists res : Matrix float,
    GetRow (mkMatrix 2 [1; 2; 3; 4; 5; 6]%float) 1 = Ok res /\ shaped 1 3 res /\
    forall j, j < 3 ->
      elem res 0 j = elem (mkMatrix 2 [1; 2; 3; 4; 5; 6]%float) 1 j.
Proof.
  apply (proj2 (GetRow_spec (mkMatrix 2 [1; 2; 3; 4; 5; 6]%float) 1) 2 3).
  - repeat split; vm_compute; congruence.
  - reflexivity.
Defined.

Lemma GetColumn_spec_witness :
  exists res : Matrix float,
    GetColumn (mkMatrix 2 [1; 2; 3; 4; 5; 6]%float) 2 = Ok res /\ shaped 2 1 res /\
    forall i, i < 2 ->
      elem res i 0 = elem (mkMatrix 2 [1; 2; 3; 4; 5; 6]%float) i 2.
Proof.
  apply (proj2 (GetColumn_spec (mkMatrix 2 [1; 2; 3; 4; 5; 6]%float) 2) 2 3).
  - repeat split; vm_compute; congruence.
  - reflexivity.
Defined.

Lemma GetDiag_spec_witness :
  exists col row : Matrix float,
    GetDiag (mkMatrix 2 [1; 2; 3; 4; 5; 6]%float) false = Ok col /\
    GetDiag (mkMatrix 2 [1; 2; 3; 4; 5; 6]%float) true = Ok row /\
    shaped 2 1 col /\ shaped 1 2 row /\
    buffer_ row = buffer_ col /\
    forall i, i < 2 ->
      elem col i 0 = elem (mkMatrix 2 [1; 2; 3; 4; 5; 6]%float) i i /\
      elem row 0 i = elem (mkMatrix 2 [1; 2; 3; 4; 5; 6]%float) i i.
Proof.
  apply (proj2 (GetDiag_spec (mkMatrix 2 [1; 2; 3; 4; 5; 6]%float)) 2 3).
  - repeat split; vm_compute; congruence.
  - reflexivity.
  - reflexivity.
Defined.

(** ** The contracts of addition and subtraction *)

Section AdditiveContracts.
Context {T : Type} `{Scalar T}.
Implicit Types lhs rhs : Matrix T.

Lemma op_add_is_assign lhs rhs : op_add lhs rhs = op_add_assign lhs rhs.
Proof.
  unfold op_add, op_add_assign, assert. rewrite (N.eqb_refl (Columns rhs)).
  destruct (Rows lhs =? Rows rhs); reflexivity.
Qed.

Lemma op_sub_is_assign lhs rhs : op_sub lhs rhs = op_sub_assign lhs rhs.
Proof.
  unfold op_sub, op_sub_assign, assert.
  destruct (Rows lhs =? Rows rhs); [|reflexivity].
  destruct (Columns lhs =? Columns rhs); reflexivity.
Qed.

(** X12. [operator+] and [operator-] on well-formed matrices fail their
    contract exactly when the row counts or the column counts differ, and
    otherwise return the element-wise sum or difference with the shape of
    the left operand. The second assertion of [operator+] compares
    [rhs.Columns()] with itself and so never fires; the column counts are
    still checked, by the [operator+=] it calls, so [lhs + rhs] and
    [lhs += rhs] have the same outcome on every pair of matrices. *)
Theorem op_add_sub_contract lhs rhs :
  op_add lhs rhs = op_add_assign lhs rhs /\
  op_sub lhs rhs = op_sub_assign lhs rhs /\
  (wf lhs -> wf rhs ->
   (op_add lhs rhs = ContractFailure <->
    Rows lhs <> Rows rhs \/ Columns lhs <> Columns rhs) /\
   (op_sub lhs rhs = ContractFailure <->
    Rows lhs <> Rows rhs \/ Columns lhs <> Columns rhs) /\
   (Rows lhs = Rows rhs -> Columns lhs = Columns rhs ->
    op_add lhs rhs
    = Ok (mkMatrix (rows_ lhs) (zip_with sadd (buffer_ lhs) (buffer_ rhs))) /\
    op_sub lhs rhs
    = Ok (mkMatrix (rows_ lhs) (zip_with ssub (buffer_ lhs) (buffer_ rhs))))).
Proof.
  split; [apply op_add_is_assign|]. split; [apply op_sub_is_assign|].
  intros Hl Hr.
  assert (Hsame : Rows lhs = Rows rhs -> Columns lhs = Columns rhs ->
    op_add lhs rhs
    = Ok (mkMatrix (rows_ lhs) (zip_with sadd (buffer_ lhs) (buffer_ rhs))) /\
    op_sub lhs rhs
    = Ok (mkMatrix (rows_ lhs) (zip_with ssub (buffer_ lhs) (buffer_ rhs)))).
  { intros Hrows Hcols.
    pose proof (same_shape_length lhs rhs Hl Hr Hrows Hcols) as Hlen.
    split; [apply op_add_zip | apply op_sub_zip]; assumption. }
  split; [|split; [|exact Hsame]].
  - split.
    + intros Hfail.
      destruct (N.eq_dec (Rows lhs) (Rows rhs)) as [Hrows|]; [|left; assumption].
      destruct (N.eq_dec (Columns lhs) (Columns rhs)) as [Hcols|]; [|right; assumption].
      destruct (Hsame Hrows Hcols) as [Hadd _]. congruence.
    + rewrite op_add_is_assign. unfold op_add_assign, assert. intros [Hne|Hne].
      * apply N.eqb_neq in Hne. rewrite Hne. reflexivity.
      * apply N.eqb_neq in Hne. rewrite Hne.
        destruct (Rows lhs =? Rows rhs); reflexivity.
  - split.
    + intros Hfail.
      destruct (N.eq_dec (Rows lhs) (Rows rhs)) as [Hrows|]; [|left; assumption].
      destruct (N.eq_dec (Columns lhs) (Columns rhs)) as [Hcols|]; [|right; assumption].
      destruct (Hsame Hrows Hcols) as [_ Hsub]. congruence.
    + rewrite op_sub_is_assign. unfold op_sub_assign, assert. intros [Hne|Hne].
      * apply N.eqb_neq in Hne. rewrite Hne. reflexivity.
      * apply N.eqb_neq in Hne. rewrite Hne.
        destruct (Rows lhs =? Rows rhs); reflexivity.
Qed.

End AdditiveContracts.

Lemma op_add_sub_contract_witness :
  (op_add (mkMatrix 2 [1; 2; 3; 4; 5; 6]%float) (mkMatrix 3 [1; 2; 3; 4; 5; 6]%float)
   = ContractFailure <->
   Rows (mkMatrix 2 [1; 2; 3; 4; 5; 6]%float) <> Rows (mkMatrix 3 [1; 2; 3; 4; 5; 6]%float)
   \/ Columns (mkMatrix 2 [1; 2; 3; 4; 5; 6]%float)
      <> Columns (mkMatrix 3 [1; 2; 3; 4; 5; 6]%float)).
Proof.
  apply (proj2 (proj2 (op_add_sub_contract (mkMatrix 2 [1; 2; 3; 4; 5; 6]%float)
                         (mkMatrix 3 [1; 2; 3; 4; 5; 6]%float)))).
  - repeat split; vm_compute; congruence.
  - repeat split; vm_compute; congruence.
Defined.

(** ** Transposition and element-wise operations *)

Section TransposeCommutes.
Context {T : Type} `{Scalar T}.

Local Notation "v @ j" := (v !! N.to_nat j) (at level 20).

(** A buffer is determined by what it holds at the targets. *)
Lemma targets_determine (R C n : N) (b1 b2 : list T) :
  n = R * C -> size b1 = n -> size b2 = n ->
  (forall j, j < n -> b1 @ target R (n - 1) j = b2 @ target R (n - 1) j) ->
  b1 = b2.
Proof.
  intros Hn H1 H2 Hall. apply vec_ext; [congruence|].
  intros i Hi. rewrite H1 in Hi.
  assert (Hpos : 1 <= n) by lia.
  assert (Hn' : n = C * R) by lia.
  pose proof (target_lt C n Hpos i Hi) as Hlt.
  rewrite <- (target_inverse C R n Hpos Hn' i Hi).
  apply Hall. exact Hlt.
Qed.

Lemma wf_resize (m : Matrix T) (b : list T) :
  wf m -> size b = size (buffer_ m) ->
  wf (mkMatrix (rows_ m) b) /\
  Rows (mkMatrix (rows_ m) b) = Rows m /\
  Columns (mkMatrix (rows_ m) b) = Columns m.
Proof.
  intros Hwf Hb.
  destruct (shaped_resize (Rows m) (Columns m) m b) as (Hwf' & Hr & Hc);
    [split; [exact Hwf | split; reflexivity] | exact Hb |].
  auto.
Qed.

(** Transposing the image of a buffer under a map of the elements. *)
Lemma Transpose_map (f : T -> T) (m : Matrix T) :
  wf m -> SizeT.fits (Rows m * size (buffer_ m)) ->
  exists b',
    Transpose m = Ok (mkMatrix (Columns m) b') /\
    Transpose (mkMatrix (rows_ m) (map f (buffer_ m)))
    = Ok (mkMatrix (Columns m) (map f b')).
Proof.
  intros Hwf Hfit.
  assert (Hsize : size (map f (buffer_ m)) = size (buffer_ m))
    by (unfold size; rewrite length_map; reflexivity).
  destruct (wf_resize m (map f (buffer_ m)) Hwf Hsize) as (Hwf' & Hr' & Hc').
  destruct (Transpose_run m Hwf Hfit) as (b1 & Hrun1 & Hb1 & Hall1).
  destruct (Transpose_run _ Hwf') as (b2 & Hrun2 & Hb2 & Hall2).
  { rewrite Hr'. cbn [buffer_]. rewrite Hsize. exact Hfit. }
  rewrite Hr', Hc' in *. cbn [buffer_] in *. rewrite Hsize in *.
  exists b1. split; [exact Hrun1|]. rewrite Hrun2. do 2 f_equal.
  destruct Hwf as (Hsz & _).
  apply (targets_determine (Rows m) (Columns m) (size (buffer_ m))); auto.
  - unfold size in *. rewrite length_map. exact Hb1.
  - intros j Hj. rewrite (Hall2 j Hj), !list_lookup_fmap, (Hall1 j Hj).
    reflexivity.
Qed.

(** Transposing the element-wise combination of two buffers. *)
Lemma Transpose_zip (f : T -> T -> T) (A B : Matrix T) :
  wf A -> wf B -> Rows A = Rows B -> Columns A = Columns B ->
  SizeT.fits (Rows A * size (buffer_ A)) ->
  exists a' b',
    Transpose A = Ok (mkMatrix (Columns A) a') /\
    Transpose B = Ok (mkMatrix (Columns A) b') /\
    length a' = length b' /\
    Transpose (mkMatrix (rows_ A) (zip_with f (buffer_ A) (buffer_ B)))
    = Ok (mkMatrix (Columns A) (zip_with f a' b')).
Proof.
  intros HA HB Hr Hc Hfit.
  pose proof (same_shape_length A B HA HB Hr Hc) as Hlen.
  assert (HsB : size (buffer_ B) = size (buffer_ A)) by (unfold size; lia).
  assert (Hsize : size (zip_with f (buffer_ A) (buffer_ B)) = size (buffer_ A))
    by (unfold size; rewrite length_zip_with; lia).
  destruct (wf_resize A _ HA Hsize) as (Hwf' & Hr' & Hc').
  destruct (Transpose_run A HA Hfit) as (a1 & Hrun1 & Ha1 & Hall1).
  destruct (Transpose_run B HB) as (b1 & Hrun2 & Hb1 & Hall2).
  { rewrite <- Hr, HsB. exact Hfit. }
  destruct (Transpose_run _ Hwf') as (z & Hrun3 & Hz & Hall3).
  { rewrite Hr'. cbn [buffer_]. rewrite Hsize. exact Hfit. }
  rewrite Hr', Hc' in *. cbn [buffer_] in *. rewrite Hsize in *.
  rewrite <- Hr, <- Hc, HsB in *.
  exists a1, b1. split; [exact Hrun1|]. split; [exact Hrun2|].
  split; [unfold size in *; lia|].
  rewrite Hrun3. do 2 f_equal.
  destruct HA as (Hsz & _).
  apply (targets_determine (Rows A) (Columns A) (size (buffer_ A))); auto.
  - unfold size in *. rewrite length_zip_with; lia.
  - intros j Hj.
    rewrite (Hall3 j Hj), !lookup_zip_with, (Hall1 j Hj), (Hall2 j Hj).
    reflexivity.
Qed.

(** X13. Transposition commutes with the element-wise operations, exactly:
    the transpose of [A * s] is the transpose of [A] times [s], and the
    transpose of [A + B] (of [A - B]) is the sum (the difference) of the
    transposes, for well-formed same-shaped operands whose index products
    fit [size_t]. *)
Theorem Transpose_commutes (A B : Matrix T) (scalar : T) :
  wf A -> wf B -> Rows A = Rows B -> Columns A = Columns B ->
  SizeT.fits (Rows A * size (buffer_ A)) ->
  exists At Bt,
    Transpose A = Ok At /\ Transpose B = Ok Bt /\
    (op_scale A scalar ≫= Transpose) = op_scale At scalar /\
    (op_add A B ≫= Transpose) = op_add At Bt /\
    (op_sub A B ≫= Transpose) = op_sub At Bt /\
    exists St, op_add At Bt = Ok St /\ Rows St = Columns A /\ Columns St = Rows A.
Proof.
  intros HA HB Hr Hc Hfit.
  pose proof (same_shape_length A B HA HB Hr Hc) as Hlen.
  destruct (Transpose_map (fun v => smul v scalar) A HA Hfit) as (a1 & Hrun1 & Hmap).
  destruct (Transpose_zip sadd A B HA HB Hr Hc Hfit)
    as (a2 & b2 & Hrun2 & HrunB & Hlen2 & Hadd).
  destruct (Transpose_zip ssub A B HA HB Hr Hc Hfit)
    as (a3 & b3 & Hrun3 & HrunB3 & _ & Hsub).
  assert (a2 = a1) by congruence. assert (a3 = a1) by congruence.
  assert (b3 = b2) by congruence. subst a2 a3 b3.
  assert (Ha1 : size a1 = size (buffer_ A)).
  { destruct (Transpose_run A HA Hfit) as (a0 & Hrun0 & Ha0 & _).
    assert (a0 = a1) by congruence. subst a0. exact Ha0. }
  destruct (transposed_shape A a1 HA Ha1) as (HwfAt & HrAt & HcAt).
  assert (Hb2 : size b2 = size (buffer_ B)) by (unfold size in *; lia).
  destruct (transposed_shape B b2 HB Hb2) as (HwfBt & HrBt & HcBt).
  rewrite <- Hc in HwfBt, HrBt, HcBt.
  assert (HaddT : op_add (mkMatrix (Columns A) a1) (mkMatrix (Columns A) b2)
                  = Ok (mkMatrix (Columns A) (zip_with sadd a1 b2))).
  { apply op_add_zip; [reflexivity | congruence | exact Hlen2]. }
  exists (mkMatrix (Columns A) a1), (mkMatrix (Columns A) b2).
  split; [exact Hrun1|]. split; [exact HrunB|]. split; [|split; [|split]].
  - unfold op_scale.
    rewrite !op_scale_assign_map. exact Hmap.
  - rewrite (op_add_zip A B Hr Hc Hlen).
    change (Transpose (mkMatrix (rows_ A) (zip_with sadd (buffer_ A) (buffer_ B)))
            = op_add (mkMatrix (Columns A) a1) (mkMatrix (Columns A) b2)).
    rewrite Hadd. symmetry. exact HaddT.
  - rewrite (op_sub_zip A B Hr Hc Hlen).
    change (Transpose (mkMatrix (rows_ A) (zip_with ssub (buffer_ A) (buffer_ B)))
            = op_sub (mkMatrix (Columns A) a1) (mkMatrix (Columns A) b2)).
    rewrite Hsub. symmetry.
    apply op_sub_zip; [reflexivity | congruence | exact Hlen2].
  - eexists. split; [exact HaddT|].
    assert (Hzs : size (zip_with sadd a1 b2) = size (buffer_ A))
      by (unfold size in *; rewrite length_zip_with; lia).
    destruct (transposed_shape A _ HA Hzs) as (_ & HrS & HcS). auto.
Qed.

End TransposeCommutes.

Lemma Transpose_commutes_witness :
  exists At Bt,
    Transpose (mkMatrix 2 [1; 2; 3; 4; 5; 6]%float) = Ok At /\
    Transpose (mkMatrix 2 [6; 5; 4; 3; 2; 1]%float) = Ok Bt /\
    (op_scale (mkMatrix 2 [1; 2; 3; 4; 5; 6]%float) 2%float ≫= Transpose)
    = op_scale At 2%float /\
    (op_add (mkMatrix 2 [1; 2; 3; 4; 5; 6]%float)
            (mkMatrix 2 [6; 5; 4; 3; 2; 1]%float) ≫= Transpose)
    = op_add At Bt /\
    (op_sub (mkMatrix 2 [1; 2; 3; 4; 5; 6]%float)
            (mkMatrix 2 [6; 5; 4; 3; 2; 1]%float) ≫= Transpose)
    = op_sub At Bt /\
    exists St, op_add At Bt = Ok St /\
               Rows St = Columns (mkMatrix 2 [1; 2; 3; 4; 5; 6]%float) /\
               Columns St = Rows (mkMatrix 2 [1; 2; 3; 4; 5; 6]%float).
Proof.
  apply (Transpose_commutes (mkMatrix 2 [1; 2; 3; 4; 5; 6]%float)
           (mkMatrix 2 [6; 5; 4; 3; 2; 1]%float) 2%float).
  - repeat split; vm_compute; congruence.
  - repeat split; vm_compute; congruence.
  - reflexivity.
  - reflexivity.
  - vm_compute. reflexivity.
Defined.

(** ** The bidiagonal sweep *)

Lemma for_loop_outcome {S : Type} (P : S -> Prop) (body : N -> S -> result S)
    (k : nat) (i0 : N) :
  (forall i s, P s -> body i s = ContractFailure \/ exists s', body i s = Ok s' /\ P s') ->
  forall s, P s ->
    for_loop k i0 body s = ContractFailure \/
    exists s', for_loop k i0 body s = Ok s' /\ P s'.
Proof.
  intros Hbody. revert i0. induction k as [|k IH]; intros i0 s Hs.
  - right. exists s. split; [reflexivity | exact Hs].
  - cbn [for_loop]. destruct (Hbody i0 s Hs) as [Hfail|(s1 & Hrun & Hs1)].
    + left. rewrite Hfail. reflexivity.
    + rewrite Hrun. cbn. apply IH. exact Hs1.
Qed.

Section SweepFacts.
Context {T : Type} `{Scalar T}.
Variable Sign : T -> T.
Variable GivensLeftRotation : Matrix T -> N -> N -> T -> T -> result (Matrix T).
Variable GivensRightRotation : Matrix T -> N -> N -> T -> T -> result (Matrix T).
Variable RoundZeroes : Matrix T -> result (Matrix T).
Variable GetSubmatrix : Matrix T -> N * N -> N * N -> result (Matrix T).
Hypothesis left_contract : rotates_rows GivensLeftRotation.
Hypothesis right_contract : rotates_columns GivensRightRotation.

Lemma shaped_index_fits r c (m : Matrix T) i :
  shaped r c m -> i < r -> SizeT.fits (i + 1) /\ SizeT.fits i.
Proof.
  intros ((Hsz & Hpos & Hfit) & Hr & Hc) Hi. rewrite Hr, Hc in *.
  unfold SizeT.fits in *. assert (0 < c) by (apply Hpos; lia). nia.
Qed.

Lemma entry_Ok_shaped r c (m : Matrix T) i j :
  shaped r c m -> i < r -> j < c -> elem m i j = Ok (entry m i j).
Proof.
  intros Hm Hi Hj. destruct (shaped_elem r c m i j Hm Hi Hj) as (x & Hx & _).
  unfold entry. rewrite Hx. reflexivity.
Qed.

(** Step [i] of the inner loop, for [i < min(r, c)]: every element it reads
    and every pair of rows or columns it rotates is in range. *)
Lemma sweep_body_run (shift : T) r c i (U Sm VT : Matrix T) :
  shaped r r U -> shaped r c Sm -> shaped c c VT -> i < N.min r c ->
  exists U' S' VT',
    sweep_body GivensLeftRotation GivensRightRotation shift i (U, Sm, VT)
    = Ok (U', S', VT') /\
    shaped r r U' /\ shaped r c S' /\ shaped c c VT'.
Proof.
  intros HU HS HV Hi.
  destruct (shaped_index_fits r c Sm i HS) as [Hfit Hfiti]; [lia|].
  assert (Hfirst : exists S1 VT1,
    (if SizeT.add i 1 <? Columns Sm then
       f_elem ← (if 0 <? i then elem Sm (SizeT.sub i 1) i
                 else a ← elem Sm 0 0; b ← elem Sm 0 0;
                      Ok (ssub (smul a b) shift));
       s_elem ← (if 0 <? i then elem Sm (SizeT.sub i 1) (SizeT.add i 1)
                 else a ← elem Sm 0 1; b ← elem Sm 0 0; Ok (smul a b));
       VT ← GivensLeftRotation VT i (SizeT.add i 1) f_elem s_elem;
       Sm ← GivensRightRotation Sm i (SizeT.add i 1) f_elem s_elem;
       Ok (Sm, VT)
     else Ok (Sm, VT)) = Ok (S1, VT1) /\ shaped r c S1 /\ shaped c c VT1).
  { rewrite (add_small i 1 Hfit). pose proof HS as (_ & _ & HcS). rewrite HcS.
    destruct (N.ltb_spec (i + 1) c) as [Hcol|Hcol]; [|exists Sm, VT; auto].
    assert (Hf : exists f_elem,
      (if 0 <? i then elem Sm (SizeT.sub i 1) i
       else a ← elem Sm 0 0; b ← elem Sm 0 0; Ok (ssub (smul a b) shift))
      = Ok f_elem).
    { destruct (N.ltb_spec 0 i) as [Hpos|Hzero].
      - rewrite (sub_small i 1) by (assumption || lia).
        rewrite (entry_Ok_shaped r c Sm (i - 1) i HS) by lia. eexists. reflexivity.
      - rewrite (entry_Ok_shaped r c Sm 0 0 HS) by lia. eexists. reflexivity. }
    assert (Hs : exists s_elem,
      (if 0 <? i then elem Sm (SizeT.sub i 1) (i + 1)
       else a ← elem Sm 0 1; b ← elem Sm 0 0; Ok (smul a b))
      = Ok s_elem).
    { destruct (N.ltb_spec 0 i) as [Hpos|Hzero].
      - rewrite (sub_small i 1) by (assumption || lia).
        rewrite (entry_Ok_shaped r c Sm (i - 1) (i + 1) HS) by lia.
        eexists. reflexivity.
      - rewrite (entry_Ok_shaped r c Sm 0 1 HS) by lia.
        rewrite (entry_Ok_shaped r c Sm 0 0 HS) by lia. eexists. reflexivity. }
    destruct Hf as [f_elem Hf]. destruct Hs as [s_elem Hs]. rewrite Hf, Hs. cbn.
    destruct (left_contract c c VT i (i + 1) f_elem s_elem HV)
      as (VT1 & HrunV & HV1); [lia | lia | lia |].
    destruct (right_contract r c Sm i (i + 1) f_elem s_elem HS)
      as (S1 & HrunS & HS1); [lia | lia | lia |].
    rewrite HrunV. cbn. rewrite HrunS. cbn. exists S1, VT1. auto. }
  destruct Hfirst as (S1 & VT1 & Hfirst & HS1 & HV1).
  unfold sweep_body. rewrite Hfirst. cbn.
  rewrite (add_small i 1 Hfit). pose proof HS1 as (_ & HrS & _). rewrite HrS.
  destruct (N.ltb_spec (i + 1) r) as [Hrow|Hrow]; [|exists U, S1, VT1; auto].
  rewrite (entry_Ok_shaped r c S1 i i HS1) by lia.
  rewrite (entry_Ok_shaped r c S1 (i + 1) i HS1) by lia. cbn.
  destruct (right_contract r r U i (i + 1) (entry S1 i i) (entry S1 (i + 1) i) HU)
    as (U1 & HrunU & HU1); [lia | lia | lia |].
  destruct (left_contract r c S1 i (i + 1) (entry S1 i i) (entry S1 (i + 1) i) HS1)
    as (S2 & HrunS & HS2); [lia | lia | lia |].
  rewrite HrunU. cbn. rewrite HrunS. cbn. exists U1, S2, VT1. auto.
Qed.

Lemma sweep_loop_run (shift : T) r c (U Sm VT : Matrix T) :
  shaped r r U -> shaped r c Sm -> shaped c c VT ->
  exists U' S' VT',
    for_loop (N.to_nat (N.min r c)) 0
      (sweep_body GivensLeftRotation GivensRightRotation shift) (U, Sm, VT)
    = Ok (U', S', VT') /\
    shaped r r U' /\ shaped r c S' /\ shaped c c VT'.
Proof.
  intros HU HS HV.
  destruct (for_loop_invariant
    (fun st : Matrix T * Matrix T * Matrix T =>
       shaped r r (fst (fst st)) /\ shaped r c (snd (fst st)) /\ shaped c c (snd st))
    (sweep_body GivensLeftRotation GivensRightRotation shift)
    (N.to_nat (N.min r c)) 0) with (s := (U, Sm, VT))
    as ([[U' S'] VT'] & Hrun & HU' & HS' & HV').
  - intros i [[U0 S0] V0] Hi (HU0 & HS0 & HV0). cbn [fst snd] in *.
    destruct (sweep_body_run shift r c i U0 S0 V0 HU0 HS0 HV0)
      as (U1 & S1 & V1 & Hrun & HU1 & HS1 & HV1); [lia|].
    exists (U1, S1, V1). auto.
  - auto.
  - exists U', S', VT'. auto.
Qed.

End SweepFacts.

Section SweepOutcome.
Context {T : Type} `{Scalar T}.
Variable Sign : T -> T.
Variable GivensLeftRotation : Matrix T -> N -> N -> T -> T -> result (Matrix T).
Variable GivensRightRotation : Matrix T -> N -> N -> T -> T -> result (Matrix T).
Variable RoundZeroes : Matrix T -> result (Matrix T).
Variable GetSubmatrix : Matrix T -> N * N -> N * N -> result (Matrix T).

(** The matrix [BB] of a sweep, built by the four assignments. *)
Lemma trailing_block_run (v00 p v11 : T) :
  (BB ← Matrix_square 2;
   BB ← set_elem BB 0 0 v00;
   BB ← set_elem BB 1 0 p;
   b10 ← elem BB 1 0;
   BB ← set_elem BB 0 1 b10;
   set_elem BB 1 1 v11) = Ok (mkMatrix 2 [v00; p; p; v11]).
Proof. vm_compute. reflexivity. Qed.

Lemma trailing_block_shift (v00 p v11 : T) :
  GetWilkinsonShift Sign (mkMatrix 2 [v00; p; p; v11])
  = assert (seqb p p) (Ok (wilkinson_formula Sign v00 p v11)).
Proof.
  apply GetWilkinsonShift_eval; vm_compute; reflexivity.
Qed.

(** One sweep: the block and the element above it are read in range, and
    the only assertion left is the symmetry check of the shift. *)
Lemma sweep_shift_run r c sz (U Sm VT : Matrix T) :
  extracts_blocks GetSubmatrix ->
  shaped r c Sm -> 2 <= r -> 2 <= c ->
  sweep Sign GivensLeftRotation GivensRightRotation RoundZeroes GetSubmatrix
    r c sz (U, Sm, VT)
  = assert (seqb (trailing_product Sm r c) (trailing_product Sm r c))
      ('(U, Sm, VT) ← for_loop (N.to_nat sz) 0
                        (sweep_body GivensLeftRotation GivensRightRotation
                           (trailing_shift Sign Sm r c)) (U, Sm, VT);
       Sm ← RoundZeroes Sm;
       Ok (U, Sm, VT)).
Proof.
  intros Hblocks HS Hr Hc.
  pose proof HS as ((Hsz & Hpos & Hfit) & HrS & HcS).
  rewrite HrS, HcS in Hsz. unfold SizeT.fits in Hfit.
  assert (Hfr : SizeT.fits r) by (unfold SizeT.fits; nia).
  assert (Hfc : SizeT.fits c) by (unfold SizeT.fits; nia).
  destruct (Hblocks r c Sm (r - 2) r (c - 2) c HS)
    as (minor & Hminor & Hshape & Helems); [lia | lia | lia | lia |].
  assert (E00 : elem minor 0 0 = Ok (entry Sm (r - 2) (c - 2))).
  { rewrite Helems by lia. rewrite !N.add_0_r.
    apply (entry_Ok_shaped r c); [exact HS | lia | lia]. }
  assert (E01 : elem minor 0 1 = Ok (entry Sm (r - 2) (c - 1))).
  { rewrite Helems by lia. rewrite N.add_0_r.
    replace (c - 2 + 1) with (c - 1) by lia.
    apply (entry_Ok_shaped r c); [exact HS | lia | lia]. }
  assert (E11 : elem minor 1 1 = Ok (entry Sm (r - 1) (c - 1))).
  { rewrite Helems by lia.
    replace (r - 2 + 1) with (r - 1) by lia.
    replace (c - 2 + 1) with (c - 1) by lia.
    apply (entry_Ok_shaped r c); [exact HS | lia | lia]. }
  assert (Eabove :
    (if 3 <=? r then
       a ← elem Sm (SizeT.sub r 3) (c - 2);
       b ← elem Sm (SizeT.sub r 3) (c - 2);
       Ok (smul a b)
     else Ok (of_Z 0))
    = Ok (if 3 <=? r then smul (entry Sm (r - 3) (c - 2)) (entry Sm (r - 3) (c - 2))
          else of_Z 0)).
  { destruct (N.leb_spec 3 r) as [H3|H3]; [|reflexivity].
    rewrite (sub_small r 3) by (assumption || lia).
    rewrite (entry_Ok_shaped r c Sm (r - 3) (c - 2) HS) by lia. reflexivity. }
  unfold sweep.
  rewrite (sub_small r 2), (sub_small c 2) by (assumption || lia).
  rewrite Hminor. cbn [mbind result_bind].
  rewrite E00, E01, E11, Eabove. cbn [mbind result_bind].
  pose proof (trailing_block_run
    (sadd (smul (entry Sm (r - 2) (c - 2)) (entry Sm (r - 2) (c - 2)))
          (if 3 <=? r then smul (entry Sm (r - 3) (c - 2)) (entry Sm (r - 3) (c - 2))
           else of_Z 0))
    (smul (entry Sm (r - 2) (c - 2)) (entry Sm (r - 2) (c - 1)))
    (sadd (smul (entry Sm (r - 2) (c - 1)) (entry Sm (r - 2) (c - 1)))
          (smul (entry Sm (r - 1) (c - 1)) (entry Sm (r - 1) (c - 1))))) as Hblock.
  destruct (Matrix_square 2) as [BB0| | |]; try discriminate Hblock.
  cbn [mbind result_bind] in Hblock |- *.
  destruct (set_elem BB0 0 0 _) as [BB1| | |]; try discriminate Hblock.
  cbn [mbind result_bind] in Hblock |- *.
  destruct (set_elem BB1 1 0 _) as [BB2| | |]; try discriminate Hblock.
  cbn [mbind result_bind] in Hblock |- *.
  destruct (elem BB2 1 0) as [b10| | |]; try discriminate Hblock.
  cbn [mbind result_bind] in Hblock |- *.
  destruct (set_elem BB2 0 1 b10) as [BB3| | |]; try discriminate Hblock.
  cbn [mbind result_bind] in Hblock |- *.
  rewrite Hblock. cbn [mbind result_bind].
  rewrite trailing_block_shift. unfold assert, trailing_product.
  destruct (seqb _ _); reflexivity.
Qed.

End SweepOutcome.

Section BidiagonalFacts.
Context {T : Type} `{Scalar T}.
Variable Sign : T -> T.
Variable GivensLeftRotation : Matrix T -> N -> N -> T -> T -> result (Matrix T).
Variable GivensRightRotation : Matrix T -> N -> N -> T -> T -> result (Matrix T).
Variable RoundZeroes : Matrix T -> result (Matrix T).
Variable GetSubmatrix : Matrix T -> N * N -> N * N -> result (Matrix T).

Lemma sweep_run r c (U Sm VT : Matrix T) :
  rotates_rows GivensLeftRotation -> rotates_columns GivensRightRotation ->
  keeps_shape RoundZeroes -> extracts_blocks GetSubmatrix ->
  shaped r r U -> shaped r c Sm -> shaped c c VT -> 2 <= r -> 2 <= c ->
  (seqb (trailing_product Sm r c) (trailing_product Sm r c) = false ->
   sweep Sign GivensLeftRotation GivensRightRotation RoundZeroes GetSubmatrix
     r c (N.min r c) (U, Sm, VT) = ContractFailure) /\
  (seqb (trailing_product Sm r c) (trailing_product Sm r c) = true ->
   exists U' S1 S' VT',
     for_loop (N.to_nat (N.min r c)) 0
       (sweep_body GivensLeftRotation GivensRightRotation
          (trailing_shift Sign Sm r c)) (U, Sm, VT) = Ok (U', S1, VT') /\
     RoundZeroes S1 = Ok S' /\
     sweep Sign GivensLeftRotation GivensRightRotation RoundZeroes GetSubmatrix
       r c (N.min r c) (U, Sm, VT) = Ok (U', S', VT') /\
     shaped r r U' /\ shaped r c S' /\ shaped c c VT').
Proof.
  intros Hleft Hright Hround Hblocks HU HS HV Hr Hc.
  rewrite (sweep_shift_run Sign GivensLeftRotation GivensRightRotation RoundZeroes
             GetSubmatrix r c (N.min r c) U Sm VT Hblocks HS Hr Hc).
  split; intros Hsym; rewrite Hsym; [reflexivity|]. unfold assert.
  destruct (sweep_loop_run GivensLeftRotation GivensRightRotation Hleft Hright
              (trailing_shift Sign Sm r c) r c U Sm VT HU HS HV)
    as (U' & S1 & VT' & Hloop & HU' & HS1 & HV').
  destruct (Hround r c S1 HS1) as (S' & Hrz & HS').
  exists U', S1, S', VT'. rewrite Hloop. cbn [mbind result_bind]. rewrite Hrz.
  cbn [mbind result_bind]. auto 10.
Qed.

(** X14. One sweep of [BidiagonalAlgorithmQR] on an [r x c] matrix with
    [r, c >= 2], with collaborators that keep their contracts. The matrix
    [BB] handed to [GetWilkinsonShift] is symmetric by construction, so the
    sweep fails its contract exactly when the off-diagonal product
    [S(r-2,c-2) * S(r-2,c-1)] is not [==] to itself (a NaN). Otherwise the
    shift is the Wilkinson formula on the entries of the trailing block,
    every element access and every rotation of the [min(r, c)] steps is in
    range, and the sweep returns factors of the shapes [r x r], [r x c] and
    [c x c]. *)
Theorem sweep_outcome r c (U Sm VT : Matrix T) :
  rotates_rows GivensLeftRotation -> rotates_columns GivensRightRotation ->
  keeps_shape RoundZeroes -> extracts_blocks GetSubmatrix ->
  shaped r r U -> shaped r c Sm -> shaped c c VT -> 2 <= r -> 2 <= c ->
  (seqb (trailing_product Sm r c) (trailing_product Sm r c) = false ->
   sweep Sign GivensLeftRotation GivensRightRotation RoundZeroes GetSubmatrix
     r c (N.min r c) (U, Sm, VT) = ContractFailure) /\
  (seqb (trailing_product Sm r c) (trailing_product Sm r c) = true ->
   exists U' S1 S' VT',
     for_loop (N.to_nat (N.min r c)) 0
       (sweep_body GivensLeftRotation GivensRightRotation
          (trailing_shift Sign Sm r c)) (U, Sm, VT) = Ok (U', S1, VT') /\
     RoundZeroes S1 = Ok S' /\
     sweep Sign GivensLeftRotation GivensRightRotation RoundZeroes GetSubmatrix
       r c (N.min r c) (U, Sm, VT) = Ok (U', S', VT') /\
     shaped r r U' /\ shaped r c S' /\ shaped c c VT').
Proof. apply sweep_run. Qed.

(** X15. [BidiagonalAlgorithmQR] on an [r x c] matrix with [r, c >= 2]
    starts from the identities of sizes [r] and [c] and the input itself and
    runs exactly [it_cnt] sweeps, whatever the iterates are. With
    collaborators that keep their contracts a run has two outcomes only: a
    failed contract (the symmetry check of a shift), or factors [U], [S],
    [VT] of the shapes [r x r], [r x c], [c x c]; it never reads or writes
    out of range. With no iterations it returns the identities and the
    input. *)
Theorem BidiagonalAlgorithmQR_outcome r c (B : Matrix T) (it_cnt : N) :
  rotates_rows GivensLeftRotation -> rotates_columns GivensRightRotation ->
  keeps_shape RoundZeroes -> extracts_blocks GetSubmatrix ->
  shaped r c B -> 2 <= r -> 2 <= c ->
  SizeT.fits (r * r) -> SizeT.fits (c * c) ->
  exists Ir Ic,
    Identity r (of_Z 1) = Ok Ir /\ Identity c (of_Z 1) = Ok Ic /\
    BidiagonalAlgorithmQR Sign GivensLeftRotation GivensRightRotation RoundZeroes
      GetSubmatrix B it_cnt
    = (st ← iterations (N.to_nat it_cnt)
              (sweep Sign GivensLeftRotation GivensRightRotation RoundZeroes
                 GetSubmatrix r c (N.min r c)) (Ir, B, Ic);
       Ok (mkDiagBasisQR (fst (fst st)) (snd (fst st)) (snd st))) /\
    BidiagonalAlgorithmQR Sign GivensLeftRotation GivensRightRotation RoundZeroes
      GetSubmatrix B 0 = Ok (mkDiagBasisQR Ir B Ic) /\
    (BidiagonalAlgorithmQR Sign GivensLeftRotation GivensRightRotation RoundZeroes
       GetSubmatrix B it_cnt = ContractFailure \/
     exists U D VT,
       BidiagonalAlgorithmQR Sign GivensLeftRotation GivensRightRotation RoundZeroes
         GetSubmatrix B it_cnt = Ok (mkDiagBasisQR U D VT) /\
       shaped r r U /\ shaped r c D /\ shaped c c VT).
Proof.
  intros Hleft Hright Hround Hblocks HB Hr Hc Hfr Hfc.
  destruct (Identity_spec r (of_Z 1 : T)) as (Ir & HIr & HsIr & _); [lia | exact Hfr |].
  destruct (Identity_spec c (of_Z 1 : T)) as (Ic & HIc & HsIc & _); [lia | exact Hfc |].
  pose proof HB as (_ & HrB & HcB).
  assert (Hrun : forall n,
    BidiagonalAlgorithmQR Sign GivensLeftRotation GivensRightRotation RoundZeroes
      GetSubmatrix B n
    = (st ← iterations (N.to_nat n)
              (sweep Sign GivensLeftRotation GivensRightRotation RoundZeroes
                 GetSubmatrix r c (N.min r c)) (Ir, B, Ic);
       Ok (mkDiagBasisQR (fst (fst st)) (snd (fst st)) (snd st)))).
  { intros n. unfold BidiagonalAlgorithmQR. rewrite HrB, HcB, HIr, HIc.
    cbn [mbind result_bind].
    rewrite <- (for_loop_iterations
                  (sweep Sign GivensLeftRotation GivensRightRotation RoundZeroes
                     GetSubmatrix r c (N.min r c)) (N.to_nat n) 0).
    destruct (for_loop _ _ _ _) as [[[U D] VT]| | |]; reflexivity. }
  exists Ir, Ic. split; [exact HIr|]. split; [exact HIc|].
  split; [apply Hrun|]. split; [rewrite Hrun; reflexivity|].
  rewrite Hrun.
  rewrite <- (for_loop_iterations
                (sweep Sign GivensLeftRotation GivensRightRotation RoundZeroes
                   GetSubmatrix r c (N.min r c)) (N.to_nat it_cnt) 0).
  destruct (for_loop_outcome
    (fun st : Matrix T * Matrix T * Matrix T =>
       shaped r r (fst (fst st)) /\ shaped r c (snd (fst st)) /\ shaped c c (snd st))
    (fun _ => sweep Sign GivensLeftRotation GivensRightRotation RoundZeroes GetSubmatrix
      r c (N.min r c)) (N.to_nat it_cnt) 0) with (s := (Ir, B, Ic))
    as [Hfail|([[U D] VT] & Hloop & HU & HD & HVT)].
  - intros _ [[U0 S0] V0] (HU0 & HS0 & HV0). cbn [fst snd] in *.
    destruct (sweep_run r c U0 S0 V0 Hleft Hright Hround Hblocks HU0 HS0 HV0 Hr Hc)
      as [Hnan Hsym].
    destruct (seqb (trailing_product S0 r c) (trailing_product S0 r c)).
    + right.
      destruct (Hsym eq_refl)
        as (U1 & S1 & S2 & V1 & _ & _ & Hrun1 & HU1 & HS2 & HV1).
      exists (U1, S2, V1). auto.
    + left. apply Hnan. reflexivity.
  - auto.
  - left. rewrite Hfail. reflexivity.
  - right. exists U, D, VT. rewrite Hloop. cbn [mbind result_bind fst snd]. auto.
Qed.

End BidiagonalFacts.

(** ** The collaborators of the spec keep their contracts *)

Section CollaboratorFacts.
Context {T : Type} `{Scalar T}.

Lemma SpecGivensLeft_rotates : rotates_rows (SpecGivensLeft (T := T)).
Proof.
  intros r c M i j a b HM Hne Hi Hj. unfold SpecGivensLeft, assert.
  pose proof HM as (_ & Hr & Hc). rewrite Hr, Hc.
  apply N.eqb_neq in Hne. apply N.ltb_lt in Hi as Hib. apply N.ltb_lt in Hj as Hjb.
  rewrite Hne, Hib, Hjb. cbn [negb andb].
  apply (for_loop_invariant (shaped r c)); [|exact HM].
  intros k M0 Hk HM0.
  destruct (shaped_elem r c M0 i k HM0) as (x & Hx & _); [lia | lia |].
  destruct (shaped_elem r c M0 j k HM0) as (y & Hy & _); [lia | lia |].
  rewrite Hx, Hy. cbn [mbind result_bind].
  destruct (shaped_set_elem r c M0 i k (fst (rotate (givens_pair a b) x y)) HM0)
    as (M1 & Hset1 & HM1 & _); [lia | lia |].
  rewrite Hset1. cbn [mbind result_bind].
  destruct (shaped_set_elem r c M1 j k (snd (rotate (givens_pair a b) x y)) HM1)
    as (M2 & Hset2 & HM2 & _); [lia | lia |].
  exists M2. auto.
Qed.

Lemma SpecGivensRight_rotates : rotates_columns (SpecGivensRight (T := T)).
Proof.
  intros r c M i j a b HM Hne Hi Hj. unfold SpecGivensRight, assert.
  pose proof HM as (_ & Hr & Hc). rewrite Hr, Hc.
  apply N.eqb_neq in Hne. apply N.ltb_lt in Hi as Hib. apply N.ltb_lt in Hj as Hjb.
  rewrite Hne, Hib, Hjb. cbn [negb andb].
  apply (for_loop_invariant (shaped r c)); [|exact HM].
  intros k M0 Hk HM0.
  destruct (shaped_elem r c M0 k i HM0) as (x & Hx & _); [lia | lia |].
  destruct (shaped_elem r c M0 k j HM0) as (y & Hy & _); [lia | lia |].
  rewrite Hx, Hy. cbn [mbind result_bind].
  destruct (shaped_set_elem r c M0 k i (fst (rotate (givens_pair a b) x y)) HM0)
    as (M1 & Hset1 & HM1 & _); [lia | lia |].
  rewrite Hset1. cbn [mbind result_bind].
  destruct (shaped_set_elem r c M1 k j (snd (rotate (givens_pair a b) x y)) HM1)
    as (M2 & Hset2 & HM2 & _); [lia | lia |].
  exists M2. auto.
Qed.

Lemma SpecGetSubmatrix_rejects : rejects_bad_ranges (SpecGetSubmatrix (T := T)).
Proof.
  intros m r0 r1 c0 c1 Hbad. unfold SpecGetSubmatrix, assert.
  destruct (N.ltb_spec r0 r1); [|reflexivity].
  destruct (N.leb_spec r1 (Rows m)); [|reflexivity].
  destruct (N.ltb_spec c0 c1); [|reflexivity].
  destruct (N.leb_spec c1 (Columns m)); [|reflexivity].
  exfalso. apply Hbad. auto.
Qed.

Lemma SpecGetSubmatrix_extracts : extracts_blocks (SpecGetSubmatrix (T := T)).
Proof.
  intros r c m r0 r1 c0 c1 Hm Hr0 Hr1 Hc0 Hc1. unfold SpecGetSubmatrix, assert.
  pose proof Hm as ((Hsz & _ & Hfit) & Hr & Hc). rewrite Hr, Hc in *.
  apply N.ltb_lt in Hr0 as Hr0b. apply N.leb_le in Hr1 as Hr1b.
  apply N.ltb_lt in Hc0 as Hc0b. apply N.leb_le in Hc1 as Hc1b.
  rewrite Hr0b, Hr1b, Hc0b, Hc1b. cbn [andb].
  destruct (shaped_Matrix_fill (r1 - r0) (c1 - c0) (of_Z 0 : T))
    as [Hfill Hres0]; [lia | lia | unfold SizeT.fits in *; nia |].
  rewrite Hfill. cbn [mbind result_bind].
  destruct (for_loop_indexed
    (fun k res =>
       shaped (r1 - r0) (c1 - c0) res /\
       forall i j, i < k -> i < r1 - r0 -> j < c1 - c0 ->
         elem res i j = elem m (r0 + i) (c0 + j))
    (fun i res =>
       for_loop (N.to_nat (c1 - c0)) 0
         (fun j res => x ← elem m (r0 + i) (c0 + j); set_elem res i j x) res)
    (N.to_nat (r1 - r0)) 0)
    with (s := mkMatrix (r1 - r0)
                 (replicate (N.to_nat ((r1 - r0) * (c1 - c0))) (of_Z 0 : T)))
    as (res & Hrun & Hshape & Hcopied).
  - intros i res Hi (Hres & Hdone).
    destruct (copy_loop (r1 - r0) (c1 - c0)
                (fun j => elem m (r0 + i) (c0 + j)) (fun _ => i) (fun j => j)
                (c1 - c0) res Hres)
      as (res' & Hloop & Hres' & Hrow & Hrest).
    + intros j Hj.
      destruct (shaped_elem r c m (r0 + i) (c0 + j) Hm) as (x & Hx & _); [lia | lia |].
      exists x. exact Hx.
    + intros j Hj. lia.
    + intros j j' _ _ [= ->]. reflexivity.
    + exists res'. split; [exact Hloop|]. split; [exact Hres'|].
      intros i' j Hi' Hin Hj. destruct (N.eq_dec i' i) as [->|Hne].
      * apply Hrow. exact Hj.
      * rewrite Hrest; [apply Hdone; lia | exact Hin | exact Hj |].
        intros j' _ [= E _]. apply Hne. symmetry. exact E.
  - split; [exact Hres0|]. intros i j Hi. lia.
  - exists res. split; [exact Hrun|]. split; [exact Hshape|].
    intros i j Hi Hj. apply Hcopied; lia.
Qed.

Lemma identity_keeps_shape : keeps_shape (T := T) Ok.
Proof. intros r c A HA. exists A. auto. Qed.

End CollaboratorFacts.

Lemma sweep_outcome_witness :
  exists U' S1 S' VT' : Matrix float,
    for_loop (N.to_nat (N.min 2 2)) 0
      (sweep_body SpecGivensLeft SpecGivensRight
         (trailing_shift SpecSign (mkMatrix 2 [1; 1; 0; 1]%float) 2 2))
      (mkMatrix 2 [1; 0; 0; 1]%float, mkMatrix 2 [1; 1; 0; 1]%float,
       mkMatrix 2 [1; 0; 0; 1]%float) = Ok (U', S1, VT') /\
    Ok S1 = Ok S' /\
    sweep SpecSign SpecGivensLeft SpecGivensRight Ok SpecGetSubmatrix 2 2 (N.min 2 2)
      (mkMatrix 2 [1; 0; 0; 1]%float, mkMatrix 2 [1; 1; 0; 1]%float,
       mkMatrix 2 [1; 0; 0; 1]%float) = Ok (U', S', VT') /\
    shaped 2 2 U' /\ shaped 2 2 S' /\ shaped 2 2 VT'.
Proof.
  apply (proj2 (sweep_outcome SpecSign SpecGivensLeft SpecGivensRight Ok
                  SpecGetSubmatrix 2 2
                  (mkMatrix 2 [1; 0; 0; 1]%float) (mkMatrix 2 [1; 1; 0; 1]%float)
                  (mkMatrix 2 [1; 0; 0; 1]%float)
                  SpecGivensLeft_rotates SpecGivensRight_rotates
                  identity_keeps_shape SpecGetSubmatrix_extracts
                  ltac:(repeat split; vm_compute; congruence)
                  ltac:(repeat split; vm_compute; congruence)
                  ltac:(repeat split; vm_compute; congruence)
                  ltac:(lia) ltac:(lia))).
  vm_compute. reflexivity.
Defined.

Lemma BidiagonalAlgorithmQR_outcome_witness :
  exists Ir Ic : Matrix float,
    Identity 2 (of_Z 1) = Ok Ir /\ Identity 2 (of_Z 1) = Ok Ic /\
    BidiagonalAlgorithmQR SpecSign SpecGivensLeft SpecGivensRight Ok SpecGetSubmatrix
      (mkMatrix 2 [1; 1; 0; 1]%float) 3
    = (st ← iterations (N.to_nat 3)
              (sweep SpecSign SpecGivensLeft SpecGivensRight Ok SpecGetSubmatrix
                 2 2 (N.min 2 2))
              (Ir, mkMatrix 2 [1; 1; 0; 1]%float, Ic);
       Ok (mkDiagBasisQR (fst (fst st)) (snd (fst st)) (snd st))) /\
    BidiagonalAlgorithmQR SpecSign SpecGivensLeft SpecGivensRight Ok SpecGetSubmatrix
      (mkMatrix 2 [1; 1; 0; 1]%float) 0
    = Ok (mkDiagBasisQR Ir (mkMatrix 2 [1; 1; 0; 1]%float) Ic) /\
    (BidiagonalAlgorithmQR SpecSign SpecGivensLeft SpecGivensRight Ok SpecGetSubmatrix
       (mkMatrix 2 [1; 1; 0; 1]%float) 3 = ContractFailure \/
     exists U D VT,
       BidiagonalAlgorithmQR SpecSign SpecGivensLeft SpecGivensRight Ok
         SpecGetSubmatrix (mkMatrix 2 [1; 1; 0; 1]%float) 3
       = Ok (mkDiagBasisQR U D VT) /\
       shaped 2 2 U /\ shaped 2 2 D /\ shaped 2 2 VT).
Proof.
  apply (BidiagonalAlgorithmQR_outcome SpecSign SpecGivensLeft SpecGivensRight Ok
           SpecGetSubmatrix 2 2 (mkMatrix 2 [1; 1; 0; 1]%float) 3
           SpecGivensLeft_rotates SpecGivensRight_rotates
           identity_keeps_shape SpecGetSubmatrix_extracts).
  - repeat split; vm_compute; congruence.
  - lia.
  - lia.
  - reflexivity.
  - reflexivity.
Defined.

(** ** Matrices with a single row or column *)

Section SmallInputs.
Context {T : Type} `{Scalar T}.
Variable Sign : T -> T.
Variable GivensLeftRotation : Matrix T -> N -> N -> T -> T -> result (Matrix T).
Variable GivensRightRotation : Matrix T -> N -> N -> T -> T -> result (Matrix T).
Variable RoundZeroes : Matrix T -> result (Matrix T).
Variable GetSubmatrix : Matrix T -> N * N -> N * N -> result (Matrix T).

Lemma set_elem_outcome (m : Matrix T) i j x :
  set_elem m i j x = ContractFailure \/ exists m', set_elem m i j x = Ok m'.
Proof.
  unfold set_elem, assert.
  destruct (N.ltb_spec (flat_index m i j) (size (buffer_ m))) as [Hlt|Hge];
    [|left; reflexivity].
  right. rewrite vset_lt by exact Hlt. eexists. reflexivity.
Qed.

Lemma diag_fill_outcome (diag : list T) idx (m : Matrix T) :
  diag_fill diag idx m = ContractFailure \/ exists m', diag_fill diag idx m = Ok m'.
Proof.
  revert idx m. induction diag as [|value rest IH]; intros idx m.
  - right. exists m. reflexivity.
  - cbn [diag_fill]. destruct (set_elem_outcome m idx idx value) as [->|[m' ->]].
    + left. reflexivity.
    + cbn [mbind result_bind]. apply IH.
Qed.

Lemma Identity_outcome sz (v : T) :
  Identity sz v = ContractFailure \/ exists m, Identity sz v = Ok m.
Proof.
  unfold Identity, Matrix_diag, assert.
  destruct (0 <? _); [apply diag_fill_outcome | left; reflexivity].
Qed.

Lemma Identity_empty (v : T) : Identity 0 v = ContractFailure.
Proof. reflexivity. Qed.

Lemma sweep_rejected r c sz (U Sm VT : Matrix T) :
  GetSubmatrix Sm (SizeT.sub r 2, r) (SizeT.sub c 2, c) = ContractFailure ->
  sweep Sign GivensLeftRotation GivensRightRotation RoundZeroes GetSubmatrix
    r c sz (U, Sm, VT) = ContractFailure.
Proof. intros Hfail. unfold sweep. rewrite Hfail. reflexivity. Qed.

(** X16. [BidiagonalAlgorithmQR] needs at least two rows and two columns.
    On a matrix with fewer, [r - 2] or [c - 2] wraps around in [size_t], so
    the first sweep asks [GetSubmatrix] for a range that starts beyond its
    end; with a [GetSubmatrix] that rejects such ranges every run of one
    iteration or more fails its contract. (On an empty matrix the identity
    of size 0 fails before that.) *)
Theorem BidiagonalAlgorithmQR_needs_two (B : Matrix T) (it_cnt : N) :
  rejects_bad_ranges GetSubmatrix ->
  Rows B < 2 \/ Columns B < 2 -> 0 < it_cnt ->
  BidiagonalAlgorithmQR Sign GivensLeftRotation GivensRightRotation RoundZeroes
    GetSubmatrix B it_cnt = ContractFailure.
Proof.
  intros Hrej Hsmall Hit. unfold BidiagonalAlgorithmQR.
  destruct (N.eq_dec (Rows B) 0) as [Hr0|Hr0];
    [rewrite Hr0, Identity_empty; reflexivity|].
  destruct (Identity_outcome (Rows B) (of_Z 1 : T)) as [->|[U ->]]; [reflexivity|].
  cbn [mbind result_bind].
  destruct (N.eq_dec (Columns B) 0) as [Hc0|Hc0];
    [rewrite Hc0, Identity_empty; reflexivity|].
  destruct (Identity_outcome (Columns B) (of_Z 1 : T)) as [->|[VT ->]]; [reflexivity|].
  cbn [mbind result_bind].
  destruct (N.to_nat it_cnt) as [|k] eqn:Hk; [lia|].
  cbn [for_loop]. rewrite sweep_rejected; [reflexivity|].
  apply Hrej.
  intros (Hrow & _ & Hcol & _).
  destruct Hsmall as [Hs|Hs].
  - assert (Rows B = 1) as E by lia. rewrite E in Hrow.
    vm_compute in Hrow. discriminate Hrow.
  - assert (Columns B = 1) as E by lia. rewrite E in Hcol.
    vm_compute in Hcol. discriminate Hcol.
Qed.

End SmallInputs.

Lemma BidiagonalAlgorithmQR_needs_two_witness :
  BidiagonalAlgorithmQR SpecSign SpecGivensLeft SpecGivensRight Ok SpecGetSubmatrix
    (mkMatrix 1 [1; 2; 3]%float) 100 = ContractFailure.
Proof.
  apply (BidiagonalAlgorithmQR_needs_two SpecSign SpecGivensLeft SpecGivensRight Ok
           SpecGetSubmatrix (mkMatrix 1 [1; 2; 3]%float) 100
           SpecGetSubmatrix_rejects).
  - left. vm_compute. reflexivity.
  - reflexivity.
Defined.

(** ** Equality is not reflexive *)

Section ReflexivityFacts.
Context {T : Type} `{Scalar T}.

(** X17. [operator==] holds between a matrix and itself exactly when every
    element is [==] to itself, and [operator!=] is its negation: a matrix
    that holds a NaN is [!=] to itself and to each of its copies. *)
Theorem op_eq_reflexive (A : Matrix T) :
  (op_eq A A = true <-> Forall (fun x => seqb x x = true) (buffer_ A)) /\
  (op_ne A A = true <-> Exists (fun x => seqb x x = false) (buffer_ A)).
Proof.
  assert (Hrefl : forall v : list T,
    vec_eqb v v = true <-> Forall (fun x => seqb x x = true) v).
  { induction v as [|x v IH]; cbn [vec_eqb].
    - split; [constructor | reflexivity].
    - rewrite andb_true_iff, IH. split.
      + intros [Hx Hv]. constructor; assumption.
      + inversion 1; subst. split; assumption. }
  split; [apply Hrefl|].
  unfold op_ne, op_eq. rewrite negb_true_iff.
  induction (buffer_ A) as [|x v IH]; cbn [vec_eqb].
  - split; [discriminate | inversion 1].
  - rewrite andb_false_iff, IH. split.
    + intros [Hx|Hv]; [left | right]; assumption.
    + inversion 1; subst; [left | right]; assumption.
Qed.

End ReflexivityFacts.

(** The 1x2 matrix [[nan, 1]] in [double] is not equal to itself. *)
Example op_eq_nan :
  op_eq (mkMatrix 1 [PrimFloat.nan; 1%float]) (mkMatrix 1 [PrimFloat.nan; 1%float])
  = false.
Proof. vm_compute. reflexivity. Qed.

(** ** The conjugate transpose *)

Section ConjugateFacts.
Context {T : Type} `{Scalar T}.

Local Notation "v @ j" := (v !! N.to_nat j) (at level 20).

(** Transposing the transposed buffer gives the matrix back. *)
Lemma Transpose_back (m : Matrix T) (b' : list T) :
  wf m -> SizeT.fits (Columns m * size (buffer_ m)) ->
  size b' = size (buffer_ m) ->
  (forall j, j < size (buffer_ m) ->
     b' @ target (Rows m) (size (buffer_ m) - 1) j = buffer_ m @ j) ->
  Transpose (mkMatrix (Columns m) b') = Ok m.
Proof.
  intros Hwf HC Hb' Hall.
  destruct (transposed_shape m b' Hwf Hb') as (Hwf' & Hrows' & Hcols').
  destruct (Transpose_run (mkMatrix (Columns m) b') Hwf') as (b'' & Hrun & Hb'' & Hall').
  { rewrite Hrows'. cbn [buffer_]. rewrite Hb'. exact HC. }
  rewrite Hrows', Hcols' in *. cbn [buffer_] in Hb'', Hall'. rewrite Hb' in Hb'', Hall'.
  rewrite Hrun. f_equal. destruct m as [r a]. unfold Rows in *. cbn [rows_ buffer_] in *.
  f_equal. apply vec_ext; [exact Hb''|]. intros i Hi. rewrite Hb'' in Hi.
  destruct Hwf as (Hsz & _). cbn [buffer_] in Hsz. unfold Rows in Hsz. cbn [rows_] in Hsz.
  assert (Hn : 1 <= size a) by lia.
  pose proof (target_lt r (size a) Hn i Hi) as Hlt.
  rewrite <- (target_inverse r _ (size a) Hn Hsz i Hi) at 1.
  rewrite Hall' by exact Hlt. apply Hall. exact Hi.
Qed.

(** X18. [Conjugate] and [Conjugated] on a well-formed matrix whose product
    [Rows() * size] fits [size_t]. For a real scalar type they are
    [Transpose]. For a complex one the result is the transposed buffer with
    [conj] applied to each element, which is also the transpose of the
    conjugated buffer. When [Columns() * size] fits [size_t] too and [conj]
    undoes itself on the elements, conjugating twice gives the matrix back,
    row count and buffer. *)
Theorem Conjugate_spec (conj : T -> T) (m : Matrix T) :
  wf m -> SizeT.fits (Rows m * size (buffer_ m)) ->
  exists b',
    Transpose m = Ok (mkMatrix (Columns m) b') /\
    Conjugate false conj m = Transpose m /\
    Conjugated true conj m = Ok (mkMatrix (Columns m) (map conj b')) /\
    Conjugated true conj m
    = Transpose (mkMatrix (rows_ m) (map conj (buffer_ m))) /\
    (SizeT.fits (Columns m * size (buffer_ m)) ->
     Forall (fun x => conj (conj x) = x) (buffer_ m) ->
     (Conjugate true conj m ≫= Conjugate true conj) = Ok m /\
     (Conjugate false conj m ≫= Conjugate false conj) = Ok m).
Proof.
  intros Hwf HR.
  destruct (Transpose_map conj m Hwf HR) as (b' & Hrun & Hmap).
  destruct (Transpose_run m Hwf HR) as (b0 & Hrun0 & Hb' & Hall).
  assert (b0 = b') by congruence. subst b0.
  assert (Hreal : Conjugate false conj m = Transpose m).
  { unfold Conjugate. destruct (Transpose m); reflexivity. }
  assert (Hcomplex : Conjugate true conj m = Ok (mkMatrix (Columns m) (map conj b'))).
  { unfold Conjugate. rewrite Hrun. cbn [mbind result_bind].
    apply (ApplyToEach_map conj). }
  exists b'. split; [exact Hrun|]. split; [exact Hreal|].
  split; [exact Hcomplex|]. split; [unfold Conjugated; congruence|].
  intros HC Hinv.
  pose proof (Transpose_back m b' Hwf HC Hb' Hall) as Hback.
  split.
  - rewrite Hcomplex. cbn [mbind result_bind].
    destruct (transposed_shape m b' Hwf Hb') as (Hwf' & Hrows' & Hcols').
    destruct (Transpose_map conj (mkMatrix (Columns m) b') Hwf')
      as (b'' & Hrun' & Hmap').
    { rewrite Hrows'. cbn [buffer_]. rewrite Hb'. exact HC. }
    rewrite Hback in Hrun'. cbn [rows_ buffer_] in Hmap'.
    unfold Conjugate. rewrite Hmap'. cbn [mbind result_bind].
    rewrite (ApplyToEach_map conj). cbn [rows_ buffer_].
    destruct m as [r a]. injection Hrun' as Hr' Ha'. cbn [buffer_] in *.
    rewrite <- Hr', <- Ha'. f_equal. f_equal.
    rewrite map_map. rewrite <- (map_id a) at 2.
    apply map_ext_Forall. exact Hinv.
  - rewrite Hreal, Hrun. cbn [mbind result_bind].
    unfold Conjugate. rewrite Hback. reflexivity.
Qed.

End ConjugateFacts.

Lemma Conjugate_spec_witness :
  (Conjugate true PrimFloat.opp (mkMatrix 2 [1; 2; 3; 4; 5; 6]%float)
   ≫= Conjugate true PrimFloat.opp) = Ok (mkMatrix 2 [1; 2; 3; 4; 5; 6]%float) /\
  (Conjugate false PrimFloat.opp (mkMatrix 2 [1; 2; 3; 4; 5; 6]%float)
   ≫= Conjugate false PrimFloat.opp) = Ok (mkMatrix 2 [1; 2; 3; 4; 5; 6]%float).
Proof.
  destruct (Conjugate_spec PrimFloat.opp (mkMatrix 2 [1; 2; 3; 4; 5; 6]%float))
    as (b' & _ & _ & _ & _ & Hinv).
  - repeat split; vm_compute; congruence.
  - reflexivity.
  - apply Hinv.
    + reflexivity.
    + repeat constructor.
Defined.

(** ** The edges of the shifted QR iteration *)

Section SpectralEdges.
Context {T : Type} `{Scalar T}.
Variable HouseholderQR : Matrix T -> result (Matrix T * Matrix T).
Variable RoundZeroes : Matrix T -> result (Matrix T).
Variable IsHermitian : Matrix T -> bool.

Lemma spec_iteration_mismatch (shift_I D transform : Matrix T) :
  op_sub D shift_I = ContractFailure ->
  spec_iteration HouseholderQR RoundZeroes shift_I (D, transform) = ContractFailure.
Proof. intros Hsub. unfold spec_iteration. rewrite Hsub. reflexivity. Qed.

(** X19. The edges of [GetRealSpecDecomposition]. A matrix without rows
    fails a contract, that of the predicate or that of [Identity(0)]. With
    no iterations the result is the input and the identity. The function
    itself never compares the two dimensions: a matrix that is not square
    and that the predicate lets through fails the contract of the first
    subtraction [D - shift_I], whatever the factorization is. *)
Theorem GetRealSpecDecomposition_edges (matrix : Matrix T) (shift : T) (it_cnt : N) :
  (Rows matrix = 0 ->
   GetRealSpecDecomposition HouseholderQR RoundZeroes IsHermitian matrix shift it_cnt
   = ContractFailure) /\
  (forall r c,
     shaped r c matrix -> 0 < r -> SizeT.fits (r * r) ->
     IsHermitian matrix = true ->
     (exists one,
        Identity r (of_Z 1) = Ok one /\
        GetRealSpecDecomposition HouseholderQR RoundZeroes IsHermitian matrix shift 0
        = Ok (mkSpectralPair matrix one)) /\
     (r <> c -> 0 < it_cnt ->
      GetRealSpecDecomposition HouseholderQR RoundZeroes IsHermitian matrix shift it_cnt
      = ContractFailure)).
Proof.
  split.
  - intros Hempty. unfold GetRealSpecDecomposition, assert, Copy.
    destruct (IsHermitian matrix); [|reflexivity].
    rewrite Hempty, Identity_empty. reflexivity.
  - intros r c Hm Hr Hfit Hherm.
    destruct (Identity_spec r shift Hr Hfit) as (shift_I & HsI & HshI & _).
    destruct (Identity_spec r (of_Z 1 : T) Hr Hfit) as (one & Hone & _).
    pose proof Hm as (_ & HrM & HcM). pose proof HshI as (_ & HrI & HcI).
    split.
    + exists one. split; [exact Hone|].
      unfold GetRealSpecDecomposition, assert, Copy.
      rewrite Hherm, HrM, HsI, Hone. reflexivity.
    + intros Hne Hit.
      unfold GetRealSpecDecomposition, assert, Copy.
      rewrite Hherm, HrM, HsI, Hone. cbn [mbind result_bind].
      destruct (N.to_nat it_cnt) as [|k] eqn:Hk; [lia|].
      cbn [for_loop]. rewrite spec_iteration_mismatch; [reflexivity|].
      unfold op_sub, assert. rewrite HrM, HrI, HcM, HcI, N.eqb_refl.
      apply N.eqb_neq in Hne. rewrite N.eqb_sym, Hne. reflexivity.
Qed.

End SpectralEdges.

Lemma GetRealSpecDecomposition_edges_witness :
  GetRealSpecDecomposition (fun A => one ← Identity (Rows A) 1%float; Ok (one, A))
    Ok (fun _ => true) (mkMatrix 2 [1; 2; 3; 4; 5; 6]%float) 0%float 100
  = ContractFailure.
Proof.
  apply (proj2 (GetRealSpecDecomposition_edges
                  (fun A => one ← Identity (Rows A) 1%float; Ok (one, A))
                  Ok (fun _ => true) (mkMatrix 2 [1; 2; 3; 4; 5; 6]%float)
                  0%float 100) 2 3).
  - repeat split; vm_compute; congruence.
  - reflexivity.
  - reflexivity.
  - reflexivity.
  - lia.
  - reflexivity.
Defined.

(** ** Transpose beyond the range of [size_t]

    A column of [2^32 + 2] elements is well formed, and [Rows() * swap_idx]
    wraps around on it. *)

Section LongColumn.
Context {T : Type}.
Variable n i0 : N.
Hypothesis n_value : n = 2 ^ 32 + 2.
Hypothesis i0_value : i0 = 2 ^ 32 - 1.

Local Notation "v @ j" := (v !! N.to_nat j) (at level 20).

(** Below [2^32 - 1] the product does not wrap and every index is a fixed
    point. *)
Lemma next_idx_fixed i : 0 < i -> i < i0 -> next_idx n (n - 1) i = Ok i.
Proof.
  intros Hpos Hi. unfold next_idx.
  destruct (N.eqb_spec i (n - 1)) as [E|_]; [lia|].
  rewrite mul_small by (unfold SizeT.fits, SizeT.modulus; nia).
  rewrite rem_nonzero by lia. f_equal. symmetry.
  apply (N.mod_unique (n * i) (n - 1) i i); [lia | nia].
Qed.

(** At [2^32 - 1] the product wraps, to the fixed point [2^32 - 2]. *)
Lemma next_idx_wrapped s : s = i0 \/ s = i0 - 1 -> next_idx n (n - 1) s = Ok (i0 - 1).
Proof.
  intros Hs. unfold next_idx.
  destruct (N.eqb_spec s (n - 1)) as [E|_]; [lia|].
  rewrite rem_nonzero by lia. f_equal. unfold SizeT.mul, SizeT.wrap, SizeT.modulus.
  destruct Hs as [->| ->].
  - assert (E : (n * i0) mod 2 ^ 64 = i0 - 1).
    { symmetry. apply (N.mod_unique (n * i0) (2 ^ 64) 1 (i0 - 1)); [lia | nia]. }
    rewrite E. apply N.mod_small. lia.
  - assert (E : (n * (i0 - 1)) mod 2 ^ 64 = n * (i0 - 1)) by (apply N.mod_small; nia).
    rewrite E. symmetry.
    apply (N.mod_unique (n * (i0 - 1)) (n - 1) (i0 - 1) (i0 - 1)); [lia | nia].
Qed.

(** The inner loop entered at [2^32 - 1] never comes back to it. *)
Lemma cycle_stuck (fuel : nat) :
  forall s (b : list T) (vis : list bool),
    size b = n -> size vis = n -> s = i0 \/ s = i0 - 1 ->
    cycle fuel n (n - 1) i0 s (b, vis) = OutOfFuel.
Proof.
  induction fuel as [|fuel IH]; intros s b vis Hb Hvis Hs; [reflexivity|].
  cbn [cycle]. rewrite (next_idx_wrapped s Hs). cbn [mbind result_bind fst snd].
  destruct (vswap_swapped b (i0 - 1) i0) as (b' & Hswap & Hsize & _); [lia | lia |].
  rewrite Hswap. cbn [mbind result_bind].
  rewrite vset_lt by lia. cbn [mbind result_bind].
  destruct (N.eqb_spec (i0 - 1) i0) as [E|_]; [lia|].
  apply IH; [congruence | rewrite size_insert; exact Hvis | right; reflexivity].
Qed.

(** The outer loop reaches the index [2^32 - 1] with every index before it
    swapped with itself, and stays in its inner loop. *)
Lemma outer_stuck (fuel k : nat) :
  forall i (b : list T) (vis : list bool),
    size b = n -> size vis = n ->
    (forall j, i <= j -> j < n -> vis @ j = Some false) ->
    1 <= i -> i <= i0 -> i0 < i + N.of_nat k ->
    for_loop k i
      (fun i st =>
         v ← vget (snd st) i;
         if v : bool then Ok st else cycle fuel n (n - 1) i i st)
      (b, vis) = OutOfFuel.
Proof.
  induction k as [|k IH]; intros i b vis Hb Hvis Hfalse Hlo Hhi Hreach; [lia|].
  cbn [for_loop]. cbn [snd].
  assert (Hget : vget vis i = Ok false) by (apply vget_Ok, Hfalse; lia).
  rewrite Hget. cbn [mbind result_bind].
  destruct (N.eq_dec i i0) as [->|Hne].
  - rewrite (cycle_stuck fuel i0 b vis Hb Hvis) by (left; reflexivity). reflexivity.
  - destruct fuel as [|fuel]; [reflexivity|].
    cbn [cycle]. rewrite next_idx_fixed by lia. cbn [mbind result_bind fst snd].
    destruct (vswap_swapped b i i) as (b' & Hswap & Hsize & _); [lia | lia |].
    rewrite Hswap. cbn [mbind result_bind].
    rewrite vset_lt by lia. cbn [mbind result_bind]. rewrite N.eqb_refl.
    apply IH; [congruence | rewrite size_insert; exact Hvis | | lia | lia | lia].
    intros j Hj Hjn. rewrite lookup_N_insert_ne by lia. apply Hfalse; lia.
Qed.

Lemma long_column_stuck (b : list T) (fuel : nat) :
  size b = n -> Transpose_fuel fuel (mkMatrix n b) = OutOfFuel.
Proof.
  intros Hb. unfold Transpose_fuel, Rows. cbn [rows_ buffer_].
  rewrite Hb, (sub_small n 1) by (unfold SizeT.fits, SizeT.modulus; lia).
  rewrite (outer_stuck fuel (length b - 1) 1 b (replicate (length b) false));
    [reflexivity | exact Hb | | | lia | lia | unfold size in Hb; lia].
  - unfold size. rewrite length_replicate. exact Hb.
  - intros j _ Hj. apply lookup_replicate_2. unfold size in Hb. lia.
Qed.

End LongColumn.

Lemma long_column_wf {T : Type} (b : list T) :
  size b = 2 ^ 32 + 2 -> wf (mkMatrix (2 ^ 32 + 2) b).
Proof.
  intros Hb. unfold wf, Rows, Columns. cbn [rows_ buffer_]. rewrite Hb.
  change (2 ^ 32 + 2 =? 0) with false. cbv iota.
  rewrite N.div_same by lia. unfold SizeT.fits, SizeT.modulus. split_and!; lia.
Qed.

Section Overflow.
Context {T : Type} `{Scalar T}.

Lemma size_replicate (k : N) (v : T) : size (replicate (N.to_nat k) v) = k.
Proof. unfold size. rewrite length_replicate. apply N2Nat.id. Qed.

(** C2. The claim fails on a matrix it covers: the column of [2^32 + 2]
    equal elements is well formed, with [2^32 + 2] rows and one column, and
    [Transpose] does not return on it. [Rows() * swap_idx] is computed in
    [size_t]: at [i = 2^32 - 1] it wraps around, the inner loop moves to
    [2^32 - 2], which is mapped to itself, and [swap_idx != i] holds for
    ever; no amount of fuel lets the loop end. *)
Theorem Transpose_long_column_never_returns (v : T) :
  let m := mkMatrix (2 ^ 32 + 2) (replicate (N.to_nat (2 ^ 32 + 2)) v) in
  wf m /\ Rows m = 2 ^ 32 + 2 /\ Columns m = 1 /\
  size (buffer_ m) = Rows m * Columns m /\
  next_idx (Rows m) (size (buffer_ m) - 1) (2 ^ 32 - 1) = Ok (2 ^ 32 - 2) /\
  next_idx (Rows m) (size (buffer_ m) - 1) (2 ^ 32 - 2) = Ok (2 ^ 32 - 2) /\
  (forall fuel, Transpose_fuel fuel m = OutOfFuel) /\
  Transpose m = OutOfFuel.
Proof.
  intros m.
  pose proof (size_replicate (2 ^ 32 + 2) v) as Hsize.
  pose proof (long_column_wf _ Hsize) as Hwf.
  assert (Hstuck : forall fuel, Transpose_fuel fuel m = OutOfFuel).
  { intros fuel.
    apply (long_column_stuck (2 ^ 32 + 2) (2 ^ 32 - 1) eq_refl eq_refl _ fuel Hsize). }
  assert (Hcols : Columns m = 1).
  { unfold Columns, m. cbn [rows_ buffer_]. rewrite Hsize. reflexivity. }
  split; [exact Hwf|]. split; [reflexivity|]. split; [exact Hcols|].
  split; [destruct Hwf as (Hsz & _); exact Hsz|].
  unfold m, Rows. cbn [rows_ buffer_]. rewrite Hsize.
  split; [vm_compute; reflexivity|]. split; [vm_compute; reflexivity|].
  split; [exact Hstuck | apply Hstuck].
Qed.

(** C7. The claim fails on matrices it covers, by the same wrap-around of
    [Rows() * swap_idx]. On the well-formed column of [2^32 + 2] equal
    elements the first [Transpose] does not return. On the well-formed row
    of as many elements the first [Transpose] returns that column, and the
    second does not return: the matrix is never restored. *)
Theorem Transpose_twice_never_returns (v : T) :
  let column := mkMatrix (2 ^ 32 + 2) (replicate (N.to_nat (2 ^ 32 + 2)) v) in
  let row := mkMatrix 1 (replicate (N.to_nat (2 ^ 32 + 2)) v) in
  wf column /\ wf row /\
  Rows row = 1 /\ Columns row = 2 ^ 32 + 2 /\
  (forall fuel, Transpose_fuel fuel column = OutOfFuel) /\
  Transpose row = Ok column /\
  (forall fuel, (Transpose row ≫= Transpose_fuel fuel) = OutOfFuel) /\
  (Transpose row ≫= Transpose) = OutOfFuel /\
  (Transpose column ≫= Transpose) = OutOfFuel.
Proof.
  intros column row.
  pose proof (size_replicate (2 ^ 32 + 2) v) as Hsize.
  pose proof (long_column_wf _ Hsize) as Hwf.
  assert (Hstuck : forall fuel, Transpose_fuel fuel column = OutOfFuel).
  { intros fuel.
    apply (long_column_stuck (2 ^ 32 + 2) (2 ^ 32 - 1) eq_refl eq_refl _ fuel Hsize). }
  assert (Hcols : Columns row = 2 ^ 32 + 2).
  { unfold Columns, row. cbn [rows_ buffer_]. rewrite Hsize. reflexivity. }
  assert (Hrow : wf row).
  { unfold wf. rewrite Hcols. unfold row, Rows. cbn [rows_ buffer_]. rewrite Hsize.
    unfold SizeT.fits, SizeT.modulus. split_and!; lia. }
  assert (Hfirst : Transpose row = Ok column).
  { rewrite (Transpose_vector_run row Hrow); [rewrite Hcols; reflexivity | left; reflexivity |].
    unfold row, Rows. cbn [rows_ buffer_]. rewrite Hsize.
    unfold SizeT.fits, SizeT.modulus. lia. }
  split; [exact Hwf|]. split; [exact Hrow|]. split; [reflexivity|].
  split; [exact Hcols|]. split; [exact Hstuck|]. split; [exact Hfirst|].
  split; [intros fuel; rewrite Hfirst; apply Hstuck|].
  split; [rewrite Hfirst; apply Hstuck|].
  assert (Hcolumn : Transpose column = OutOfFuel) by apply Hstuck.
  rewrite Hcolumn. reflexivity.
Qed.

End Overflow.

(** ** The shifted QR iteration, entry by entry *)

Section TabulateFacts.
Context {T : Type} `{Scalar T}.

Local Notation "v @ j" := (v !! N.to_nat j) (at level 20).

Lemma tabulate_size r c (f : N -> N -> T) : size (buffer_ (tabulate r c f)) = r * c.
Proof.
  unfold tabulate, size. cbn [buffer_]. rewrite length_map, length_seq. lia.
Qed.

Lemma tabulate_lookup r c (f : N -> N -> T) k :
  k < r * c -> buffer_ (tabulate r c f) @ k = Some (f (k / c) (k mod c)).
Proof.
  intros Hk. unfold tabulate. cbn [buffer_].
  change (map ?g ?l) with (g <$> l). rewrite list_lookup_fmap.
  rewrite lookup_seq_lt by lia. cbn. rewrite N2Nat.id. reflexivity.
Qed.

Lemma tabulate_shaped r c (f : N -> N -> T) :
  0 < r -> 0 < c -> SizeT.fits (r * c) -> shaped r c (tabulate r c f).
Proof.
  intros Hr Hc Hfit.
  destruct (shaped_Matrix_fill r c (of_Z 0 : T) Hr Hc Hfit) as [_ Hfill].
  apply (shaped_resize r c _ (buffer_ (tabulate r c f)) Hfill).
  rewrite tabulate_size. cbn [buffer_]. unfold size. rewrite length_replicate. lia.
Qed.

Lemma flat_position (c i j : N) : j < c -> (c * i + j) / c = i /\ (c * i + j) mod c = j.
Proof.
  intros Hj.
  destruct (N.div_mod_unique c ((c * i + j) / c) i ((c * i + j) mod c) j)
    as [Hq Hr]; [apply N.mod_lt; lia | exact Hj | | split; assumption].
  symmetry. apply N.div_mod. lia.
Qed.

Lemma tabulate_elem r c (f : N -> N -> T) i j :
  0 < r -> 0 < c -> SizeT.fits (r * c) -> i < r -> j < c ->
  elem (tabulate r c f) i j = Ok (f i j).
Proof.
  intros Hr Hc Hfit Hi Hj.
  apply (shaped_elem_lookup r c _ i j _ (tabulate_shaped r c f Hr Hc Hfit) Hi Hj).
  rewrite tabulate_lookup by nia.
  destruct (flat_position c i j Hj) as [-> ->]. reflexivity.
Qed.

(** A matrix is the table of its entries. *)
Lemma shaped_is_tabulate r c (m : Matrix T) (f : N -> N -> T) :
  shaped r c m -> 0 < c ->
  (forall i j, i < r -> j < c -> elem m i j = Ok (f i j)) ->
  m = tabulate r c f.
Proof.
  intros Hm Hc Helem. pose proof (shaped_size r c m Hm) as Hsz.
  pose proof Hm as (_ & Hrows & _). destruct m as [rows b].
  unfold Rows in Hrows. cbn [rows_ buffer_] in *. subst rows.
  change (tabulate r c f) with (mkMatrix r (buffer_ (tabulate r c f))). f_equal.
  apply vec_ext; [rewrite Hsz; symmetry; apply (tabulate_size r c f)|].
  intros k Hk. rewrite Hsz in Hk.
  rewrite (tabulate_lookup r c f k Hk).
  assert (Hrow : k / c < r) by (apply N.Div0.div_lt_upper_bound; lia).
  assert (Hcol : k mod c < c) by (apply N.mod_lt; lia).
  pose proof (proj1 (shaped_elem_lookup r c _ (k / c) (k mod c) _ Hm Hrow Hcol)
                (Helem _ _ Hrow Hcol)) as Hlook.
  cbn [buffer_] in Hlook. rewrite <- N.div_mod in Hlook by lia. exact Hlook.
Qed.

Lemma tabulate_ext r c (f g : N -> N -> T) :
  0 < r -> 0 < c -> SizeT.fits (r * c) ->
  (forall i j, i < r -> j < c -> f i j = g i j) ->
  tabulate r c f = tabulate r c g.
Proof.
  intros Hr Hc Hfit Hfg.
  apply shaped_is_tabulate; [apply tabulate_shaped; assumption | exact Hc |].
  intros i j Hi Hj. rewrite tabulate_elem by assumption. f_equal. apply Hfg; assumption.
Qed.

(** The element-wise combination of two matrices of one shape. *)
Lemma zip_tabulate (f : T -> T -> T) r c (A B : Matrix T) :
  shaped r c A -> shaped r c B -> 0 < c ->
  mkMatrix (rows_ A) (zip_with f (buffer_ A) (buffer_ B))
  = tabulate r c (fun i j => f (entry A i j) (entry B i j)).
Proof.
  intros HA HB Hc. pose proof (shaped_length r c A B HA HB) as Hlen.
  assert (Hz : shaped r c (mkMatrix (rows_ A) (zip_with f (buffer_ A) (buffer_ B)))).
  { apply shaped_resize; [exact HA|]. unfold size. rewrite length_zip_with. lia. }
  apply shaped_is_tabulate; [exact Hz | exact Hc |].
  intros i j Hi Hj.
  apply (shaped_elem_lookup r c _ i j _ Hz Hi Hj). cbn [buffer_].
  destruct (shaped_elem r c A i j HA Hi Hj) as (x & Hx & Hlx).
  destruct (shaped_elem r c B i j HB Hi Hj) as (y & Hy & Hly).
  rewrite lookup_zip_with, Hlx, Hly. cbn.
  rewrite (entry_Ok A i j x Hx), (entry_Ok B i j y Hy). reflexivity.
Qed.

Lemma op_sub_tabulate r c (A B : Matrix T) :
  shaped r c A -> shaped r c B -> 0 < c ->
  op_sub A B = Ok (tabulate r c (fun i j => ssub (entry A i j) (entry B i j))).
Proof.
  intros HA HB Hc. pose proof (shaped_length r c A B HA HB) as Hlen.
  pose proof HA as (_ & HrA & HcA). pose proof HB as (_ & HrB & HcB).
  rewrite op_sub_zip by congruence. f_equal. apply zip_tabulate; assumption.
Qed.

Lemma op_add_tabulate r c (A B : Matrix T) :
  shaped r c A -> shaped r c B -> 0 < c ->
  op_add A B = Ok (tabulate r c (fun i j => sadd (entry A i j) (entry B i j))).
Proof.
  intros HA HB Hc. pose proof (shaped_length r c A B HA HB) as Hlen.
  pose proof HA as (_ & HrA & HcA). pose proof HB as (_ & HrB & HcB).
  rewrite op_add_zip by congruence. f_equal. apply zip_tabulate; assumption.
Qed.

Lemma op_mul_tabulate r k c (A B : Matrix T) :
  0 < r -> 0 < c -> SizeT.fits (r * c) ->
  shaped r k A -> shaped k c B ->
  op_mul A B = Ok (tabulate r c (fun i j => dot A B i j (N.to_nat k))).
Proof.
  intros Hr Hc Hfit HA HB.
  destruct (op_mul_entries r k c A B Hr Hc Hfit HA HB) as (m & -> & Hm & Helem).
  f_equal. apply shaped_is_tabulate; assumption.
Qed.

Lemma Identity_tabulate n (v : T) :
  0 < n -> SizeT.fits (n * n) -> Identity n v = Ok (tabulate n n (scalar_diag v)).
Proof.
  intros Hn Hfit. destruct (Identity_spec n v Hn Hfit) as (M & -> & HM & Helem).
  f_equal. apply shaped_is_tabulate; assumption.
Qed.

Lemma entry_tabulate r c (f : N -> N -> T) i j :
  0 < r -> 0 < c -> SizeT.fits (r * c) -> i < r -> j < c ->
  entry (tabulate r c f) i j = f i j.
Proof. intros. apply entry_Ok. apply tabulate_elem; assumption. Qed.

End TabulateFacts.

Lemma iterations_agree {S : Type} (P : S -> Prop) (f g : S -> result S) :
  (forall s, P s -> f s = g s /\ exists s', g s = Ok s' /\ P s') ->
  forall (k : nat) s, P s ->
    iterations k f s = iterations k g s /\
    exists s', iterations k g s = Ok s' /\ P s'.
Proof.
  intros Hstep k s Hs. induction k as [|k [Heq (s1 & Hrun & Hs1)]].
  - split; [reflexivity|]. exists s. split; [reflexivity | exact Hs].
  - cbn [iterations]. rewrite Heq, Hrun. cbn [mbind result_bind].
    apply Hstep. exact Hs1.
Qed.

Section SpectralEntries.
Context {T : Type} `{Scalar T}.
Variable HouseholderQR : Matrix T -> result (Matrix T * Matrix T).
Variable RoundZeroes : Matrix T -> result (Matrix T).
Variable IsHermitian : Matrix T -> bool.

(** The body of the loop computes the iteration of the claim: the
    subtraction, the two products and the addition of the code give the
    entries that [qr_step] writes down. *)
Lemma spec_iteration_step (n : N) (shift : T) (D transform : Matrix T) :
  0 < n -> SizeT.fits (n * n) ->
  factors_square HouseholderQR n -> rounding_keeps_shape RoundZeroes n ->
  shaped n n D -> shaped n n transform ->
  spec_iteration HouseholderQR RoundZeroes (tabulate n n (scalar_diag shift))
    (D, transform)
  = qr_step HouseholderQR RoundZeroes n shift (D, transform) /\
  exists D' transform',
    qr_step HouseholderQR RoundZeroes n shift (D, transform) = Ok (D', transform') /\
    shaped n n D' /\ shaped n n transform'.
Proof.
  intros Hn Hfit Hqr Hround HD Ht.
  pose proof (tabulate_shaped n n (scalar_diag shift) Hn Hn Hfit) as HsI.
  assert (Hsub : op_sub D (tabulate n n (scalar_diag shift))
    = Ok (tabulate n n (fun i j => ssub (entry D i j) (scalar_diag shift i j)))).
  { rewrite (op_sub_tabulate n n) by assumption. f_equal.
    apply tabulate_ext; try assumption.
    intros i j Hi Hj. rewrite entry_tabulate by assumption. reflexivity. }
  unfold spec_iteration, qr_step. cbn [fst snd]. rewrite Hsub. cbn [mbind result_bind].
  destruct (Hqr _ (tabulate_shaped n n
              (fun i j => ssub (entry D i j) (scalar_diag shift i j)) Hn Hn Hfit))
    as (Q & R & -> & HQ & HR).
  cbn [mbind result_bind fst snd].
  rewrite (op_mul_tabulate n n n R Q Hn Hn Hfit HR HQ). cbn [mbind result_bind].
  assert (Hadd :
    op_add (tabulate n n (fun i j => dot R Q i j (N.to_nat n)))
      (tabulate n n (scalar_diag shift))
    = Ok (tabulate n n
            (fun i j => sadd (dot R Q i j (N.to_nat n)) (scalar_diag shift i j)))).
  { rewrite (op_add_tabulate n n); [|apply tabulate_shaped; assumption..|exact Hn].
    f_equal. apply tabulate_ext; try assumption.
    intros i j Hi Hj. rewrite !entry_tabulate by assumption. reflexivity. }
  rewrite Hadd. cbn [mbind result_bind].
  unfold op_mul_assign. rewrite (op_mul_tabulate n n n transform Q Hn Hn Hfit Ht HQ).
  cbn [mbind result_bind].
  destruct (Hround _ (tabulate_shaped n n
              (fun i j => sadd (dot R Q i j (N.to_nat n)) (scalar_diag shift i j))
              Hn Hn Hfit)) as (D' & -> & HD').
  cbn [mbind result_bind]. split; [reflexivity|].
  exists D', (tabulate n n (fun i j => dot transform Q i j (N.to_nat n))).
  split; [reflexivity|]. split; [exact HD' | apply tabulate_shaped; assumption].
Qed.

(** C4. [GetRealSpecDecomposition] checks that its argument is Hermitian,
    builds [shift * I] and the identity, and then runs the iteration exactly
    [it_cnt] times from the copy of its argument and the identity, whatever
    the iterates are: no test on them ends the loop. On an [n x n] argument,
    with collaborators that keep their contracts, each iteration factors
    [D - shift * I] into [(Q, R)], sets [D] to the rounded
    [R * Q + shift * I] and the accumulator to [transform * Q], entry by
    entry as [qr_step] writes them with the sums [dot]; every operation
    succeeds and the last pair [{D, transform}] is returned. *)
Theorem GetRealSpecDecomposition_iterations (matrix : Matrix T) (shift : T)
    (it_cnt : N) :
  GetRealSpecDecomposition HouseholderQR RoundZeroes IsHermitian matrix shift it_cnt
  = assert (IsHermitian matrix)
      (shift_I ← Identity (Rows matrix) shift;
       one ← Identity (Rows matrix) (of_Z 1);
       st ← iterations (N.to_nat it_cnt)
              (qr_iteration HouseholderQR RoundZeroes shift_I) (matrix, one);
       Ok (mkSpectralPair (fst st) (snd st))) /\
  (forall n,
     0 < n -> shaped n n matrix -> IsHermitian matrix = true ->
     factors_square HouseholderQR n -> rounding_keeps_shape RoundZeroes n ->
     exists D transform,
       Identity n shift = Ok (tabulate n n (scalar_diag shift)) /\
       Identity n (of_Z 1) = Ok (tabulate n n (scalar_diag (of_Z 1))) /\
       iterations (N.to_nat it_cnt) (qr_step HouseholderQR RoundZeroes n shift)
         (matrix, tabulate n n (scalar_diag (of_Z 1)))
       = Ok (D, transform) /\
       iterations (N.to_nat it_cnt)
         (qr_iteration HouseholderQR RoundZeroes (tabulate n n (scalar_diag shift)))
         (matrix, tabulate n n (scalar_diag (of_Z 1)))
       = Ok (D, transform) /\
       GetRealSpecDecomposition HouseholderQR RoundZeroes IsHermitian
         matrix shift it_cnt = Ok (mkSpectralPair D transform) /\
       shaped n n D /\ shaped n n transform).
Proof.
  pose proof (proj1 (GetRealSpecDecomposition_counted_loop HouseholderQR RoundZeroes
                       IsHermitian matrix shift it_cnt)) as Heq.
  split; [exact Heq|].
  intros n Hn Hm Hherm Hqr Hround.
  assert (Hfit : SizeT.fits (n * n)).
  { pose proof Hm as ((_ & _ & Hfits) & _).
    rewrite (shaped_size n n matrix Hm) in Hfits. exact Hfits. }
  pose proof (Identity_tabulate n shift Hn Hfit) as HsI.
  pose proof (Identity_tabulate n (of_Z 1 : T) Hn Hfit) as Hone.
  destruct (iterations_agree
    (fun st : Matrix T * Matrix T => shaped n n (fst st) /\ shaped n n (snd st))
    (qr_iteration HouseholderQR RoundZeroes (tabulate n n (scalar_diag shift)))
    (qr_step HouseholderQR RoundZeroes n shift))
    with (k := N.to_nat it_cnt) (s := (matrix, tabulate n n (scalar_diag (of_Z 1 : T))))
    as (Hsame & [D transform] & Hrun & HD & Ht).
  - intros [D0 t0] [HD0 Ht0]. cbn [fst snd] in *.
    destruct (spec_iteration_step n shift D0 t0 Hn Hfit Hqr Hround HD0 Ht0)
      as (Hstep & D1 & t1 & Hrun1 & HD1 & Ht1).
    rewrite <- spec_iteration_worded. split; [exact Hstep|].
    exists (D1, t1). auto.
  - split; [exact Hm | apply tabulate_shaped; assumption].
  - cbn [fst snd] in *. exists D, transform.
    split; [exact HsI|]. split; [exact Hone|]. split; [exact Hrun|].
    split; [rewrite Hsame; exact Hrun|]. split; [|split; assumption].
    rewrite Heq, Hherm. destruct Hm as (_ & -> & _).
    unfold assert. rewrite HsI. cbn [mbind result_bind]. rewrite Hone.
    cbn [mbind result_bind]. rewrite Hsame, Hrun. reflexivity.
Qed.

End SpectralEntries.

(** The factorization and the rounding of the spec's contracts keep the
    shape of 2x2 matrices. *)
Lemma givens_qr_factors {T : Type} `{Scalar T} : factors_square (givens_qr (T := T)) 2.
Proof.
  intros A HA. unfold givens_qr. pose proof HA as (_ & HrA & _).
  rewrite (entry_Ok_shaped 2 2 A 0 0 HA), (entry_Ok_shaped 2 2 A 1 0 HA) by lia.
  cbn [mbind result_bind].
  destruct (SpecGivensLeft_rotates 2 2 A 0 1 (entry A 0 0) (entry A 1 0) HA)
    as (R & -> & HR); [lia | lia | lia |].
  cbn [mbind result_bind]. rewrite HrA.
  destruct (Identity_spec 2 (of_Z 1 : T)) as (one & -> & Hone & _);
    [lia | reflexivity |].
  cbn [mbind result_bind].
  destruct (SpecGivensLeft_rotates 2 2 one 0 1 (entry A 0 0) (entry A 1 0) Hone)
    as (G & -> & HG); [lia | lia | lia |].
  cbn [mbind result_bind].
  pose proof HG as (HwfG & HrG & HcG). pose proof (shaped_size 2 2 G HG) as HsG.
  destruct (Transpose_run G HwfG) as (b' & -> & Hb' & _).
  { rewrite HrG, HsG. reflexivity. }
  cbn [mbind result_bind].
  destruct (transposed_shape G b' HwfG Hb') as (Hwf' & Hr' & Hc').
  exists (mkMatrix (Columns G) b'), R. split; [reflexivity|].
  split; [|exact HR]. split; [exact Hwf'|]. split; congruence.
Qed.

Lemma SpecRoundZeroes_keeps_shape (eps : float) (n : N) :
  rounding_keeps_shape (SpecRoundZeroes eps) n.
Proof.
  intros A HA. eexists. split; [reflexivity|].
  apply shaped_resize; [exact HA|]. unfold size. rewrite length_map. reflexivity.
Qed.

(** A hundred iterations on [[2,1],[1,2]] with shift [1/2], in [double]. *)
Lemma GetRealSpecDecomposition_iterations_witness :
  exists D transform : Matrix float,
    Identity 2 0.5%float = Ok (tabulate 2 2 (scalar_diag 0.5%float)) /\
    Identity 2 (of_Z 1) = Ok (tabulate 2 2 (scalar_diag (of_Z 1))) /\
    iterations (N.to_nat 100) (qr_step givens_qr (SpecRoundZeroes 0x1p-40) 2 0.5%float)
      (mkMatrix 2 [2; 1; 1; 2]%float, tabulate 2 2 (scalar_diag (of_Z 1)))
    = Ok (D, transform) /\
    iterations (N.to_nat 100)
      (qr_iteration givens_qr (SpecRoundZeroes 0x1p-40)
         (tabulate 2 2 (scalar_diag 0.5%float)))
      (mkMatrix 2 [2; 1; 1; 2]%float, tabulate 2 2 (scalar_diag (of_Z 1)))
    = Ok (D, transform) /\
    GetRealSpecDecomposition givens_qr (SpecRoundZeroes 0x1p-40)
      (fun A => match Transposed A with Ok At => op_eq At A | _ => false end)
      (mkMatrix 2 [2; 1; 1; 2]%float) 0.5%float 100
    = Ok (mkSpectralPair D transform) /\
    shaped 2 2 D /\ shaped 2 2 transform.
Proof.
  apply (proj2 (GetRealSpecDecomposition_iterations givens_qr (SpecRoundZeroes 0x1p-40)
                  (fun A => match Transposed A with Ok At => op_eq At A | _ => false end)
                  (mkMatrix 2 [2; 1; 1; 2]%float) 0.5%float 100) 2).
  - reflexivity.
  - repeat split; vm_compute; congruence.
  - vm_compute. reflexivity.
  - apply givens_qr_factors.
  - apply SpecRoundZeroes_keeps_shape.
Defined.

(** The run of the witness: after one iteration [D] is
    [[38/13, 5/13],[5/13, 14/13]] up to rounding, so an iteration is not the
    identity; after a hundred the iterates have gone to the eigenvalues 3
    and 1 of [[2,1],[1,2]], and the accumulator to the rotation by 45
    degrees whose columns are the eigenvectors. *)
Example shifted_qr_run :
  exists D1 Q1 Q : Matrix float,
    GetRealSpecDecomposition givens_qr (SpecRoundZeroes 0x1p-40) (fun _ => true)
      (mkMatrix 2 [2; 1; 1; 2]%float) 0.5%float 1
    = Ok (mkSpectralPair D1 Q1) /\
    forallb (fun pb => PrimFloat.ltb (PrimFloat.abs (fst pb * 13 - snd pb)) 0x1p-40)
      (zip (buffer_ D1) [38; 5; 5; 14])%float = true /\
    GetRealSpecDecomposition givens_qr (SpecRoundZeroes 0x1p-40) (fun _ => true)
      (mkMatrix 2 [2; 1; 1; 2]%float) 0.5%float 100
    = Ok (mkSpectralPair (mkMatrix 2 [3; 0; 0; 1]%float) Q) /\
    forallb (fun pb => PrimFloat.ltb (PrimFloat.abs (fst pb - snd pb)) 0x1p-30)
      (zip (buffer_ Q)
         [0x1.6a09e667f3bcdp-1; -0x1.6a09e667f3bcdp-1;
          0x1.6a09e667f3bcdp-1; 0x1.6a09e667f3bcdp-1])%float = true.
Proof.
  do 3 eexists. split; [vm_compute; reflexivity|].
  split; [vm_compute; reflexivity|]. split; vm_compute; reflexivity.
Qed.
